(** * Sharp-edge immersed-boundary Navier-Stokes prototypes

    A shallow embedding of the numerical core of
    - [prototypes/gls_navier_stokes_sharpe_edge/gls_navier_stokes_sharp_edge.cc]
      (module [SharpEdge]) and
    - [prototypes/direct_gls_navier_stokes_sharpe_edge/directSteadyNS.cpp]
      (module [Direct]),
    together with the stabilisation parameter of [src/GLS_residual.h].

    The C++ type [double] is an interface ([Double]) with two instances:
    IEEE binary64 ([float], Rocq's primitive floats), on which the model
    runs, and exact real arithmetic ([R]), in which the formulas of the
    specification are read.  Unsigned loop counters are [nat]: every one
    of them is bounded by the number of dofs of a cell or by
    [max_iteration], so none wraps around.  Functions of deal.II (shape
    functions, inverse mappings, constraint scatter, the direct solver)
    are fields of a record or variables of a section. *)

From Stdlib Require Import Reals Lra Lia List ZArith Bool Arith PeanoNat Floats.
From Stdlib Require Import Sorted.
Import ListNotations.

Set Implicit Arguments.

(* ================================================================== *)
(** ** The [double] interface *)

Declare Scope double_scope.
Delimit Scope double_scope with D.

Class Double (T : Type) : Type := {
  dadd : T -> T -> T;
  dsub : T -> T -> T;
  dmul : T -> T -> T;
  ddiv : T -> T -> T;
  dopp : T -> T;
  dsqrt : T -> T;
  dltb : T -> T -> bool;   (* a < b  *)
  dleb : T -> T -> bool;   (* a <= b *)
  deqb : T -> T -> bool;   (* a == b *)
  of_Z : Z -> T;           (* conversion of an integer literal *)
  M_PI : T                 (* 3.14159265358979323846 *)
}.

Infix "+" := dadd : double_scope.
Infix "-" := dsub : double_scope.
Infix "*" := dmul : double_scope.
Infix "/" := ddiv : double_scope.
Notation "- x" := (dopp x) : double_scope.
Infix "<?" := dltb : double_scope.
Infix "<=?" := dleb : double_scope.
Infix "=?" := deqb : double_scope.

(** IEEE binary64. *)
Definition float_of_Z (z : Z) : float :=
  match z with
  | Z0 => PrimFloat.zero
  | Zpos _ => PrimFloat.of_uint63 (Uint63.of_Z z)
  | Zneg p => PrimFloat.opp (PrimFloat.of_uint63 (Uint63.of_Z (Zpos p)))
  end.

#[global] Instance binary64 : Double float := {
  dadd := PrimFloat.add;
  dsub := PrimFloat.sub;
  dmul := PrimFloat.mul;
  ddiv := PrimFloat.div;
  dopp := PrimFloat.opp;
  dsqrt := PrimFloat.sqrt;
  dltb := PrimFloat.ltb;
  dleb := PrimFloat.leb;
  deqb := PrimFloat.eqb;
  of_Z := float_of_Z;
  M_PI := 0x1.921fb54442d18p+1%float
}.

(** Exact arithmetic. *)
Definition Rltb (a b : R) : bool := if Rlt_dec a b then true else false.
Definition Rleb (a b : R) : bool := if Rle_dec a b then true else false.
Definition Reqb (a b : R) : bool := if Req_dec_T a b then true else false.

#[global] Instance exact : Double R := {
  dadd := Rplus;
  dsub := Rminus;
  dmul := Rmult;
  ddiv := Rdiv;
  dopp := Ropp;
  dsqrt := R_sqrt.sqrt;
  dltb := Rltb;
  dleb := Rleb;
  deqb := Reqb;
  of_Z := IZR;
  M_PI := PI
}.

Section Numbers.
Context {T : Type} {DT : Double T}.
Local Open Scope double_scope.

(** The decimal literal [m]e-[e]: the quotient of two integers that a
    double holds exactly is rounded once, like the literal. *)
Definition decimal (m : Z) (e : nat) : T := of_Z m / of_Z (10 ^ Z.of_nat e).

Definition dgtb (a b : T) : bool := b <? a.         (* a > b *)
Definition dneb (a b : T) : bool := negb (a =? b).  (* a != b *)

(** [alpha] after [j] rounds of [alpha *= 0.5]. *)
Fixpoint halve (j : nat) (alpha : T) : T :=
  match j with
  | O => alpha
  | S j' => halve j' (alpha * decimal 5 1)
  end.

(** [std::max(a, b)], that is [(a < b) ? b : a]. *)
Definition std_max (a b : T) : T := if a <? b then b else a.

(* ------------------------------------------------------------------ *)
(** *** [Point<2>] and [Tensor<1,2>] *)

Definition Point : Type := (T * T)%type.

Definition padd (p q : Point) : Point := (fst p + fst q, snd p + snd q).
Definition psub (p q : Point) : Point := (fst p - fst q, snd p - snd q).
Definition pscale (a : T) (p : Point) : Point := (a * fst p, a * snd p).
Definition pdiv (p : Point) (a : T) : Point := (fst p / a, snd p / a).
Definition norm (p : Point) : T := dsqrt (fst p * fst p + snd p * snd p).

(** Component [c] of a tensor, [t[c]]. *)
Definition component (p : Point) (c : nat) : T :=
  match c with O => fst p | _ => snd p end.

(* ------------------------------------------------------------------ *)
(** *** [SparseMatrix<double>] and [Vector<double>] *)

Definition Matrix : Type := nat -> nat -> T.
Definition Vector : Type := nat -> T.

Definition mset (A : Matrix) (i j : nat) (v : T) : Matrix :=
  fun i' j' => if (Nat.eqb i' i && Nat.eqb j' j)%bool then v else A i' j'.

Definition madd (A : Matrix) (i j : nat) (v : T) : Matrix :=
  fun i' j' => if (Nat.eqb i' i && Nat.eqb j' j)%bool then A i' j' + v else A i' j'.

Definition vset (r : Vector) (i : nat) (v : T) : Vector :=
  fun i' => if Nat.eqb i' i then v else r i'.

Definition mzero : Matrix := fun _ _ => of_Z 0.
Definition vzero : Vector := fun _ => of_Z 0.

(** [v.l2_norm()] of a vector with [n] entries. *)
Fixpoint sum_squares (n : nat) (r : Vector) : T :=
  match n with
  | O => of_Z 0
  | S m => sum_squares m r + r m * r m
  end.

Definition l2_norm (n : nat) (r : Vector) : T := dsqrt (sum_squares n r).

End Numbers.

Arguments Point T : clear implicits.
Arguments Matrix T : clear implicits.
Arguments Vector T : clear implicits.

(* ================================================================== *)
(** ** Exceptions and loops *)

(** A C++ exception that leaves the function is [None]. *)
Definition bind {A B : Type} (o : option A) (f : A -> option B) : option B :=
  match o with Some a => f a | None => None end.

Notation "x <- c ;; k" := (bind c (fun x => k))
  (at level 61, c at next level, right associativity).

(** Runs [body] on each element of [l] in turn, threading the state. *)
Fixpoint for_each {A St : Type} (body : A -> St -> option St) (l : list A)
  (s : St) : option St :=
  match l with
  | [] => Some s
  | a :: l' => s' <- body a s ;; for_each body l' s'
  end.

(** The index walk
    [while (l < size) { ...; if (l < (dim+1)*4) l = l+dim+1; else l = l+dim; }]
    for [dim = 2]; the result lists the values of [l] at which the body
    runs, [None] when [fuel] steps do not reach the end. *)
Definition stride_next (l : nat) : nat :=
  if Nat.ltb l 12 then l + 3 else l + 2.

Fixpoint stride_loop (fuel size l : nat) : option (list nat) :=
  if Nat.ltb l size then
    match fuel with
    | O => None
    | S fuel' => option_map (cons l) (stride_loop fuel' size (stride_next l))
    end
  else Some [].

Definition stride (size k : nat) : list nat :=
  match stride_loop size size k with Some ls => ls | None => [] end.

(* ================================================================== *)
(** ** The problem: class members and what deal.II provides *)

Record Problem (T Cell : Type) : Type := {
  (* members of DirectSteadyNavierStokes<2> *)
  viscosity_ : T;
  radius : T;
  radius_2 : T;
  couette : bool;
  vertices_to_cell : nat -> list Cell;
  (* the finite element, the dof handler and the mapping *)
  dofs_per_cell : nat;                          (* fe.dofs_per_cell *)
  n_dofs : nat;                                 (* dof_handler.n_dofs() *)
  active_cells : list Cell;                     (* dof_handler.active_cell_iterators() *)
  get_dof_indices : Cell -> list nat;           (* cell->get_dof_indices(...) *)
  vertex_index : Cell -> nat -> nat;            (* cell->vertex_index(v) *)
  support_points : nat -> Point T;              (* map_dofs_to_support_points *)
  transform_real_to_unit_cell : Cell -> Point T -> option (Point T);
                                                (* None: ExcTransformationFailed *)
  distance_to_unit_cell : Point T -> T;         (* GeometryInfo<2> *)
  shape_value : nat -> Point T -> T;            (* fe.shape_value(n, p) *)
  find_active_cell_around_point : Point T -> option Cell;
                                                (* None: no cell holds the point *)
  minimal_cell_diameter : T                     (* GridTools::minimal_cell_diameter *)
}.

Record System (T : Type) : Type := {
  system_matrix : Matrix T;
  system_rhs : Vector T
}.

(** The two immersed circles of the Couette case. *)
Inductive circle : Type := Small | Large.

(* ================================================================== *)
(** ** gls_navier_stokes_sharp_edge.cc *)

Module SharpEdge.
Section WithProblem.
Context {T : Type} {DT : Double T} {Cell : Type}.
Variable P : Problem T Cell.
Local Open Scope double_scope.

(** [center_x = 0.2], [center_y = 0]. *)
Definition center_immersed : Point T := (decimal 2 1, of_Z 0).

(** The distance vector of [sharp_edge_V2] for the small circle,
    [sp - center - radius * (sp - center) / (sp - center).norm()]. *)
Definition vect_dist (sp : Point T) : Point T :=
  psub (psub sp center_immersed)
       (pdiv (pscale (radius P) (psub sp center_immersed))
             (norm (psub sp center_immersed))).

(** [second_point(sp + vect_dist)]. *)
Definition second_point (sp : Point T) : Point T := padd sp (vect_dist sp).

(** For the large circle,
    [sp - radius_2 * (sp - center) / (sp - center).norm()]. *)
Definition vect_dist_large (sp : Point T) : Point T :=
  psub sp
       (pdiv (pscale (radius_2 P) (psub sp center_immersed))
             (norm (psub sp center_immersed))).

Definition second_point_large (sp : Point T) : Point T :=
  padd sp (vect_dist_large sp).

(** The boundary condition of the small circle on velocity component
    [k] at the dof of support point [sp]:
    [1 * ((sp - center) / (sp - center).norm())[1]] for [k == 0] and
    [-1 * ((sp - center) / (sp - center).norm())[0]] otherwise. *)
Definition boundary_condition (k : nat) (sp : Point T) : T :=
  let n_vec := pdiv (psub sp center_immersed) (norm (psub sp center_immersed)) in
  if Nat.eqb k 0 then of_Z 1 * component n_vec 1
  else of_Z (-1) * component n_vec 0.

(** The search loop over [active_neighbors]: the index of the first
    cell whose inverse mapping succeeds with [dist_2 == 0]; a failed
    mapping is caught and skipped; [cell_found] stays 0 otherwise. *)
Fixpoint cell_search (cell_index : nat) (rest : list Cell) (pt : Point T) : nat :=
  match rest with
  | [] => 0%nat
  | c :: rest' =>
      match transform_real_to_unit_cell P c pt with
      | Some p_cell =>
          if distance_to_unit_cell P p_cell =? of_Z 0 then cell_index
          else cell_search (S cell_index) rest' pt
      | None => cell_search (S cell_index) rest' pt
      end
  end.

(** From the vertex of local dof [l] to the cell used for the
    interpolation: [v = floor(l / (dim + 1))], the cells around vertex
    [v] of [cell], the search, then [cell_2 = active_neighbors[cell_found]]
    and the inverse mapping of the point in [cell_2], this time outside
    any [try]. *)
Definition active_neighbors_of (cell : Cell) (l : nat) : list Cell :=
  let v := (l / 3)%nat in
  let v_index := vertex_index P cell v in
  vertices_to_cell P v_index.

Definition locate (pt : Point T) (cell : Cell) (l : nat) : option (Cell * Point T) :=
  let active_neighbors := active_neighbors_of cell l in
  let cell_found := cell_search 0 active_neighbors pt in
  cell_2 <- nth_error active_neighbors cell_found ;;
  second_point_v <- transform_real_to_unit_cell P cell_2 pt ;;
  Some (cell_2, second_point_v).

(** The loops that clear the line of dof [i]: for every neighbour
    cell, the columns of its dofs are set to 0. *)
Definition clear_line (active_neighbors : list Cell) (i : nat) (A : Matrix T)
  : Matrix T :=
  fold_left
    (fun A' cell_3 =>
       fold_left
         (fun A'' o => mset A'' i (nth o (get_dof_indices P cell_3) 0%nat) (of_Z 0))
         (seq 0 (dofs_per_cell P)) A')
    active_neighbors A.

(** The loop over [n]: the interpolation weights of the second point
    are added on the columns of the dofs of [cell_2] of component [k]. *)
Definition add_stencil (local_dof_indices_2 : list nat) (second_point_v : Point T)
  (k i : nat) (sum_line : T) (A : Matrix T) : Matrix T :=
  fold_left
    (fun A' n =>
       madd A' i (nth n local_dof_indices_2 0%nat)
            (shape_value P n second_point_v / (of_Z 1 / sum_line)))
    (stride (dofs_per_cell P) k) A.

(** The body of [while (l < local_dof_indices.size())] in the pass of
    the small circle. *)
Definition override_row (initial_step : bool) (cell : Cell) (k l : nat)
  (S0 : System T) : option (System T) :=
  let local_dof_indices := get_dof_indices P cell in
  let sp := support_points P (nth l local_dof_indices 0%nat) in
  let active_neighbors := active_neighbors_of cell l in
  found <- locate (second_point sp) cell l ;;
  let cell_2 := fst found in
  let second_point_v := snd found in
  let local_dof_indices_2 := get_dof_indices P cell_2 in
  let global_index_overrigth := nth l local_dof_indices 0%nat in
  let sum_line := system_matrix S0 global_index_overrigth global_index_overrigth in
  let A1 := clear_line active_neighbors global_index_overrigth (system_matrix S0) in
  let A2 :=
    if dneb (norm (vect_dist sp)) (of_Z 0) then
      add_stencil local_dof_indices_2 second_point_v k global_index_overrigth sum_line
        (mset A1 global_index_overrigth global_index_overrigth
              (of_Z (-2) / (of_Z 1 / sum_line)))
    else
      mset A1 global_index_overrigth global_index_overrigth sum_line in
  let r1 :=
    if (couette P && initial_step)%bool then
      vset (system_rhs S0) global_index_overrigth
           (boundary_condition k sp / (of_Z 1 / sum_line))
    else vset (system_rhs S0) global_index_overrigth (of_Z 0) in
  let r2 :=
    if negb (couette P) then vset r1 global_index_overrigth (of_Z 0) else r1 in
  Some {| system_matrix := A2; system_rhs := r2 |}.

(** The same body in the pass of the large circle. *)
Definition override_row_large (cell : Cell) (k l : nat) (S0 : System T)
  : option (System T) :=
  let local_dof_indices := get_dof_indices P cell in
  let sp := support_points P (nth l local_dof_indices 0%nat) in
  let active_neighbors := active_neighbors_of cell l in
  found <- locate (second_point_large sp) cell l ;;
  let cell_2 := fst found in
  let second_point_v := snd found in
  let local_dof_indices_2 := get_dof_indices P cell_2 in
  let global_index_overrigth := nth l local_dof_indices 0%nat in
  let sum_line := system_matrix S0 global_index_overrigth global_index_overrigth in
  let A1 := clear_line active_neighbors global_index_overrigth (system_matrix S0) in
  let A2 :=
    add_stencil local_dof_indices_2 second_point_v k global_index_overrigth sum_line
      (mset A1 global_index_overrigth global_index_overrigth
            (of_Z (-2) / (of_Z 1 / sum_line))) in
  Some {| system_matrix := A2;
          system_rhs := vset (system_rhs S0) global_index_overrigth (of_Z 0) |}.

(** The two passes over a cut cell. *)
Definition rewrite_row (c : circle) (initial_step : bool) (cell : Cell) (k l : nat)
  : System T -> option (System T) :=
  match c with
  | Small => override_row initial_step cell k l
  | Large => override_row_large cell k l
  end.

Definition second_point_of (c : circle) (sp : Point T) : Point T :=
  match c with
  | Small => second_point sp
  | Large => second_point_large sp
  end.

(** The number of dofs [j] of the cell with
    [(support_points[local_dof_indices[j]] - center_immersed).norm() <= rad]. *)
Definition count_within (rad : T) (local_dof_indices : list nat) : nat :=
  length
    (filter
       (fun j =>
          norm (psub (support_points P (nth j local_dof_indices 0%nat)) center_immersed)
          <=? rad)
       (seq 0 (dofs_per_cell P))).

(** [count != 0 and count != local_dof_indices.size()]. *)
Definition is_cut (count : nat) : bool :=
  (negb (Nat.eqb count 0) && negb (Nat.eqb count (dofs_per_cell P)))%bool.

(** [for (k = 0; k < dim + 1; ++k) if (k < dim) { l = k; while ... }]. *)
Definition component_loops (row : nat -> nat -> System T -> option (System T))
  (S0 : System T) : option (System T) :=
  for_each
    (fun k S1 =>
       if Nat.ltb k 2 then for_each (row k) (stride (dofs_per_cell P) k) S1
       else Some S1)
    (seq 0 3) S0.

(** The body of the loop over the active cells. *)
Definition visit_cell (initial_step : bool) (cell : Cell) (S0 : System T)
  : option (System T) :=
  let local_dof_indices := get_dof_indices P cell in
  let count_small := count_within (radius P) local_dof_indices in
  let count_large :=
    if negb (couette P) then 0%nat
    else count_within (radius_2 P) local_dof_indices in
  S1 <- (if is_cut count_small
         then component_loops (override_row initial_step cell) S0
         else Some S0) ;;
  if is_cut count_large
  then component_loops (override_row_large cell) S1
  else Some S1.

Definition sharp_edge_V2 (initial_step : bool) (S0 : System T)
  : option (System T) :=
  for_each (visit_cell initial_step) (active_cells P) S0.

End WithProblem.
End SharpEdge.

(* ================================================================== *)
(** ** directSteadyNS.cpp: the override *)

Module Direct.
Section WithProblem.
Context {T : Type} {DT : Double T} {Cell : Type}.
Variable P : Problem T Cell.
Local Open Scope double_scope.

(** The locals of [sharp_edge_V2()]: [center_x = 0], [center_y = 0],
    [radius = 0.21], [radius_2 = 0.91]; [couette] is the constant
    [true], so its [couette == false] branches are not reached, and
    neither are the branches under [bridge_petit == 0] and
    [bridge_gros == 0], both variables being the constant 1. *)
Definition center_immersed : Point T := (of_Z 0, of_Z 0).
Definition radius : T := decimal 21 2.
Definition radius_2 : T := decimal 91 2.

(** [min_cell_d], from [h = GridTools::minimal_cell_diameter]. *)
Definition min_cell_d : T :=
  let h := minimal_cell_diameter P in
  (h * h) / dsqrt (of_Z 2 * (h * h)).

(** [sp - rad * (sp - center) / (sp - center).norm()]. *)
Definition vect_dist (rad : T) (sp : Point T) : Point T :=
  psub sp
       (pdiv (pscale rad (psub sp center_immersed))
             (norm (psub sp center_immersed))).

(** [sqrt(vect_dist[1] * vect_dist[1] + vect_dist[0] * vect_dist[0])]. *)
Definition dist (vd : Point T) : T :=
  dsqrt (component vd 1 * component vd 1 + component vd 0 * component vd 0).

Definition second_point (rad : T) (sp : Point T) : Point T :=
  padd sp (vect_dist rad sp).

(** The boundary condition of the small circle, as in the other
    prototype but about this centre. *)
Definition boundary_condition (k : nat) (sp : Point T) : T :=
  let n_vec := pdiv (psub sp center_immersed) (norm (psub sp center_immersed)) in
  if Nat.eqb k 0 then of_Z 1 * component n_vec 1
  else of_Z (-1) * component n_vec 0.

(** [for (m = 0; m < n_dofs; m++) system_matrix.set(i, m, 0)]. *)
Definition clear_row (i : nat) (A : Matrix T) : Matrix T :=
  fold_left (fun A' m => mset A' i m (of_Z 0)) (seq 0 (n_dofs P)) A.

Definition add_stencil (local_dof_indices_2 : list nat) (second_point_v : Point T)
  (k i : nat) (d : T) (A : Matrix T) : Matrix T :=
  fold_left
    (fun A' n =>
       madd A' i (nth n local_dof_indices_2 0%nat)
            (shape_value P n second_point_v / (d * d)))
    (stride (dofs_per_cell P) k) A.

(** The body of [while (l < local_dof_indices.size())]; [small] tells
    the pass of the small circle from the pass of the large one. *)
Definition override_row (small : bool) (cell : Cell) (k l : nat) (S0 : System T)
  : option (System T) :=
  let rad := if small then radius else radius_2 in
  let local_dof_indices := get_dof_indices P cell in
  let sp := support_points P (nth l local_dof_indices 0%nat) in
  let vd := vect_dist rad sp in
  let d := dist vd in
  let second_point := padd sp vd in
  cell_2 <- find_active_cell_around_point P second_point ;;
  second_point_v <- transform_real_to_unit_cell P cell_2 second_point ;;
  let local_dof_indices_2 := get_dof_indices P cell_2 in
  let global_index_overrigth := nth l local_dof_indices 0%nat in
  let A1 := clear_row global_index_overrigth (system_matrix S0) in
  let A2 :=
    add_stencil local_dof_indices_2 second_point_v k global_index_overrigth d
      (mset A1 global_index_overrigth global_index_overrigth
            (of_Z (-2) / (d * d))) in
  let value :=
    if small then boundary_condition k sp / (d * d) else of_Z 0 in
  Some {| system_matrix := A2;
          system_rhs := vset (system_rhs S0) global_index_overrigth value |}.

Definition count_within (rad : T) (local_dof_indices : list nat) : nat :=
  length
    (filter
       (fun j =>
          norm (psub (support_points P (nth j local_dof_indices 0%nat)) center_immersed)
          <=? rad)
       (seq 0 (dofs_per_cell P))).

Definition is_cut (count : nat) : bool :=
  (negb (Nat.eqb count 0) && negb (Nat.eqb count (dofs_per_cell P)))%bool.

Definition component_loops (row : nat -> nat -> System T -> option (System T))
  (S0 : System T) : option (System T) :=
  for_each
    (fun k S1 =>
       if Nat.ltb k 2 then for_each (row k) (stride (dofs_per_cell P) k) S1
       else Some S1)
    (seq 0 3) S0.

Definition visit_cell (cell : Cell) (S0 : System T) : option (System T) :=
  let local_dof_indices := get_dof_indices P cell in
  let count_small := count_within radius local_dof_indices in
  let count_large := count_within radius_2 local_dof_indices in
  S1 <- (if is_cut count_small
         then component_loops (override_row true cell) S0
         else Some S0) ;;
  if is_cut count_large
  then component_loops (override_row false cell) S1
  else Some S1.

(** The last lines: the row of the last dof fixes it to 0. *)
Definition pin_last_dof (S0 : System T) : System T :=
  let last := (n_dofs P - 1)%nat in
  {| system_matrix :=
       mset (clear_row last (system_matrix S0)) last last
            (of_Z 1 / (min_cell_d * min_cell_d));
     system_rhs := vset (system_rhs S0) last (of_Z 0) |}.

Definition sharp_edge_V2 (S0 : System T) : option (System T) :=
  S1 <- for_each visit_cell (active_cells P) S0 ;;
  Some (pin_last_dof S1).

End WithProblem.
End Direct.

(* ================================================================== *)
(** ** A concrete problem: the square [-w,w]^2 cut into [nx] by [nx]
    equal cells, with Q1 velocity and pressure on every vertex *)

Module Grid.
Section WithDouble.
Context {T : Type} {DT : Double T}.
Local Open Scope double_scope.

Variable nx : nat.
Variable w : T.

Definition of_nat (n : nat) : T := of_Z (Z.of_nat n).

(** The side of a cell. *)
Definition side : T := of_Z 2 * w / of_nat nx.

(** Vertex [v] is the point number [v mod (nx+1)] of row [v / (nx+1)]. *)
Definition vertex (v : nat) : Point T :=
  (- w + of_nat (v mod (nx + 1)) * side,
   - w + of_nat (v / (nx + 1)) * side).

(** Cell [c] is the cell number [c mod nx] of row [c / nx]; its
    vertices in the order of deal.II: lower left, lower right, upper
    left, upper right. *)
Definition cell_vertex (c v : nat) : nat :=
  ((c / nx + v / 2) * (nx + 1) + (c mod nx + v mod 2))%nat.

(** Local dof [3 v + comp] of a cell is component [comp] on its vertex
    [v]; the velocity dofs are numbered first, then the pressure dofs. *)
Definition n_vertices : nat := ((nx + 1) * (nx + 1))%nat.

Definition global_dof (vtx comp : nat) : nat :=
  if Nat.ltb comp 2 then (2 * vtx + comp)%nat else (2 * n_vertices + vtx)%nat.

Definition cell_dofs (c : nat) : list nat :=
  map (fun l => global_dof (cell_vertex c (l / 3)) (l mod 3)) (seq 0 12).

Definition dof_vertex (i : nat) : nat :=
  if Nat.ltb i (2 * n_vertices) then (i / 2)%nat else (i - 2 * n_vertices)%nat.

(** The cells around a vertex, in increasing order. *)
Definition cells_of_vertex (v : nat) : list nat :=
  filter (fun c => existsb (fun w => Nat.eqb (cell_vertex c w) v) (seq 0 4))
         (seq 0 (nx * nx)).

(** The inverse of the affine mapping of a cell; it never fails. *)
Definition to_unit_cell (c : nat) (p : Point T) : Point T :=
  pdiv (psub p (vertex (cell_vertex c 0))) side.

(** [GeometryInfo<2>::distance_to_unit_cell]. *)
Definition unit_cell_distance (p : Point T) : T :=
  let step (result x : T) : T :=
    if result <? - x then - x
    else if result <? x - of_Z 1 then x - of_Z 1
    else result in
  step (step (of_Z 0) (fst p)) (snd p).

(** The bilinear shape function of the vertex of local dof [n]. *)
Definition q1_shape (n : nat) (p : Point T) : T :=
  let x := fst p in
  let y := snd p in
  match (n / 3)%nat with
  | 0%nat => (of_Z 1 - x) * (of_Z 1 - y)
  | 1%nat => x * (of_Z 1 - y)
  | 2%nat => (of_Z 1 - x) * y
  | _ => x * y
  end.

(** The first cell, in increasing order, that holds the point. *)
Definition cell_around (p : Point T) : option nat :=
  find (fun c => unit_cell_distance (to_unit_cell c p) =? of_Z 0) (seq 0 (nx * nx)).

Definition problem (nu rad rad2 : T) (cou : bool) : Problem T nat := {|
  viscosity_ := nu;
  radius := rad;
  radius_2 := rad2;
  couette := cou;
  vertices_to_cell := cells_of_vertex;
  dofs_per_cell := 12;
  n_dofs := 3 * n_vertices;
  active_cells := seq 0 (nx * nx);
  get_dof_indices := cell_dofs;
  vertex_index := cell_vertex;
  support_points := fun i => vertex (dof_vertex i);
  transform_real_to_unit_cell := fun c p => Some (to_unit_cell c p);
  distance_to_unit_cell := unit_cell_distance;
  shape_value := q1_shape;
  find_active_cell_around_point := cell_around;
  minimal_cell_diameter := dsqrt (side * side + side * side)
|}.

End WithDouble.
End Grid.

(* ================================================================== *)
(** ** The GLS assembler (the same in both prototypes) *)

(** What [FEValues], the quadrature, [AffineConstraints] and UMFPACK
    provide.  [matrix_terms cell q tau u] and [rhs_terms cell q tau u]
    stand for the sums that the assembler adds to [local_matrix(i, j)]
    and [local_rhs(i)] at quadrature point [q]. *)
Record Assembly (T Cell Constraints : Type) : Type := {
  measure : Cell -> T;                                   (* cell->measure() *)
  n_q_points : nat;
  velocity_value : Cell -> nat -> Vector T -> Point T;   (* present_velocity_values[q] *)
  matrix_terms : Cell -> nat -> T -> Vector T -> Matrix T;
  rhs_terms : Cell -> nat -> T -> Vector T -> Vector T;
  nonzero_constraints : Constraints;
  zero_constraints : Constraints;
  distribute_local_to_global :
    Constraints -> Matrix T -> Vector T -> list nat -> Matrix T -> Vector T ->
    Matrix T * Vector T;
  distribute_local_to_global_rhs :
    Constraints -> Vector T -> list nat -> Vector T -> Vector T;
  distribute : Constraints -> Vector T -> Vector T;
  umfpack : Matrix T -> Vector T -> option (Vector T)    (* None: the solver fails *)
}.

(** The vectors and the matrix of [DirectSteadyNavierStokes]. *)
Record Solver (T : Type) : Type := {
  sys : System T;
  present_solution : Vector T;
  newton_update : Vector T;
  evaluation_point : Vector T;
  last_vect : Vector T
}.

Section Assembler.
Context {T : Type} {DT : Double T} {Cell Constraints : Type}.
Variable P : Problem T Cell.
Variable F : Assembly T Cell Constraints.
Local Open Scope double_scope.

(** [std::pow(x, 2)]. *)
Definition pow2 (x : T) : T := x * x.

(** [h = std::sqrt(4. * cell->measure() / M_PI)], the branch [dim == 2]. *)
Definition element_size (cell_measure : T) : T :=
  dsqrt (of_Z 4 * cell_measure / M_PI).

(** [u_mag = std::max(present_velocity_values[q].norm(), 1e-12)]. *)
Definition u_mag (velocity_norm : T) : T := std_max velocity_norm (decimal 1 12).

(** [tau = 1. / std::sqrt(std::pow(2. * u_mag / h, 2)
                          + 9 * std::pow(4 * viscosity_ / (h * h), 2))]. *)
Definition tau (nu h velocity_norm : T) : T :=
  of_Z 1 /
  dsqrt (pow2 (of_Z 2 * u_mag velocity_norm / h)
         + of_Z 9 * pow2 (of_Z 4 * nu / (h * h))).

(** The loop over the quadrature points of one cell. *)
Definition assemble_cell (assemble_matrix : bool) (u : Vector T) (cell : Cell)
  : Matrix T * Vector T :=
  let h := element_size (measure F cell) in
  fold_left
    (fun (local : Matrix T * Vector T) q =>
       let t := tau (viscosity_ P) h (norm (velocity_value F cell q u)) in
       let local_matrix :=
         if assemble_matrix
         then fun i j => fst local i j + matrix_terms F cell q t u i j
         else fst local in
       let local_rhs := fun i => snd local i + rhs_terms F cell q t u i in
       (local_matrix, local_rhs))
    (seq 0 (n_q_points F)) (mzero, vzero).

(** [assemble(initial_step, assemble_matrix)]. *)
Definition assemble (initial_step assemble_matrix : bool) (St : Solver T)
  : Solver T :=
  let A0 := if assemble_matrix then mzero else system_matrix (sys St) in
  let constraints_used :=
    if initial_step then nonzero_constraints F else zero_constraints F in
  let Ar :=
    fold_left
      (fun (Ar : Matrix T * Vector T) cell =>
         let local := assemble_cell assemble_matrix (evaluation_point St) cell in
         let local_dof_indices := get_dof_indices P cell in
         if assemble_matrix then
           distribute_local_to_global F constraints_used (fst local) (snd local)
             local_dof_indices (fst Ar) (snd Ar)
         else
           (fst Ar,
            distribute_local_to_global_rhs F constraints_used (snd local)
              local_dof_indices (snd Ar)))
      (active_cells P) (A0, vzero) in
  {| sys := {| system_matrix := fst Ar; system_rhs := snd Ar |};
     present_solution := present_solution St;
     newton_update := newton_update St;
     evaluation_point := evaluation_point St;
     last_vect := last_vect St |}.

Definition assemble_system (initial_step : bool) : Solver T -> Solver T :=
  assemble initial_step true.

Definition assemble_rhs (initial_step : bool) : Solver T -> Solver T :=
  assemble initial_step false.

(** [solve(initial_step)]: UMFPACK, then the constraints are distributed
    over the update. *)
Definition solve (initial_step : bool) (St : Solver T) : option (Solver T) :=
  let constraints_used :=
    if initial_step then nonzero_constraints F else zero_constraints F in
  u <- umfpack F (system_matrix (sys St)) (system_rhs (sys St)) ;;
  Some {| sys := sys St;
          present_solution := present_solution St;
          newton_update := distribute F constraints_used u;
          evaluation_point := evaluation_point St;
          last_vect := last_vect St |}.

(** [initialize_system()]: the matrix and three vectors are
    reinitialised, which zeroes them. *)
Definition initialize_system (St : Solver T) : Solver T :=
  {| sys := {| system_matrix := mzero; system_rhs := vzero |};
     present_solution := vzero;
     newton_update := vzero;
     evaluation_point := evaluation_point St;
     last_vect := last_vect St |}.

(** [evaluation_point = present_solution;
     evaluation_point.add(alpha, newton_update);
     nonzero_constraints.distribute(evaluation_point)]. *)
Definition trial_point (alpha : T) (St : Solver T) : Vector T :=
  distribute F (nonzero_constraints F)
    (fun i => present_solution St i + alpha * newton_update St i).

End Assembler.

(** The stabilisation parameter of [GLS_residual_trg] (GLS_residual.h):
    [u_mag = std::max(interpolated_v.norm(), 1e-3)], and [h] is
    [trg_.size_el()]. *)
Definition GLS_residual_trg_tau {T : Type} {DT : Double T} (nu h velocity_norm : T)
  : T :=
  let u_mag := std_max velocity_norm (decimal 1 3) in
  (of_Z 1 /
   dsqrt (pow2 (of_Z 2 * u_mag / h) + of_Z 9 * pow2 (of_Z 4 * nu / (h * h))))%D.

(** The branch [dim == 3] of the element size,
    [h = pow(6 * cell->measure() / M_PI, 1. / 3.)], in exact arithmetic. *)
Definition element_size_3d (cell_measure : R) : R :=
  Rpower (6 * cell_measure / PI) (1 / 3).

(** [torque()] of gls_navier_stokes_sharp_edge.cc: the step along the
    normal, from [h = GridTools::minimal_cell_diameter(triangulation)]:
    [dr = (h * h) / sqrt(2 * (h * h)); dr = dr * 2]. *)
Definition torque_dr {T : Type} {DT : Double T} (h : T) : T :=
  let dr := ((h * h) / dsqrt (of_Z 2 * (h * h)))%D in
  (dr * of_Z 2)%D.

(** [torque()] of directSteadyNS.cpp: [dr = (h * h) / sqrt(2 * (h * h))]. *)
Definition direct_torque_dr {T : Type} {DT : Double T} (h : T) : T :=
  ((h * h) / dsqrt (of_Z 2 * (h * h)))%D.

(* ================================================================== *)
(** ** The Newton drivers *)

(** How a loop run with some fuel ends: it returns, an exception leaves
    it, or the fuel runs out before it ends. *)
Inductive outcome (A : Type) : Type :=
| Done (a : A)
| Raised
| OutOfFuel.

Arguments Done {A} a.
Arguments Raised {A}.
Arguments OutOfFuel {A}.

Definition obind {A B : Type} (o : outcome A) (f : A -> outcome B) : outcome B :=
  match o with
  | Done a => f a
  | Raised => Raised
  | OutOfFuel => OutOfFuel
  end.

Definition lift {A : Type} (o : option A) : outcome A :=
  match o with Some a => Done a | None => Raised end.

Notation "x <~ c ;; k" := (obind c (fun x => k))
  (at level 61, c at next level, right associativity).

(** How a run that does not run out of fuel ends: with a result that
    satisfies [Q], or with an exception. *)
Definition ends_with {A : Type} (Q : A -> Prop) (o : outcome A) : Prop :=
  match o with
  | Done a => Q a
  | Raised => True
  | OutOfFuel => False
  end.

(** The local variables of [newton_iteration] and the solver. *)
Record Newton (T : Type) : Type := {
  first_step : bool;
  outer_iteration : nat;
  current_res : T;
  last_res : T;
  st : Solver T
}.

Definition with_sys {T : Type} (St : Solver T) (S1 : System T) : Solver T :=
  {| sys := S1;
     present_solution := present_solution St;
     newton_update := newton_update St;
     evaluation_point := evaluation_point St;
     last_vect := last_vect St |}.

Definition with_evaluation_point {T : Type} (St : Solver T) (u : Vector T)
  : Solver T :=
  {| sys := sys St;
     present_solution := present_solution St;
     newton_update := newton_update St;
     evaluation_point := u;
     last_vect := last_vect St |}.

Definition with_present_solution {T : Type} (St : Solver T) (u : Vector T)
  : Solver T :=
  {| sys := sys St;
     present_solution := u;
     newton_update := newton_update St;
     evaluation_point := evaluation_point St;
     last_vect := last_vect St |}.

Definition with_last_vect {T : Type} (St : Solver T) (u : Vector T) : Solver T :=
  {| sys := sys St;
     present_solution := present_solution St;
     newton_update := newton_update St;
     evaluation_point := evaluation_point St;
     last_vect := u |}.

(** *** gls_navier_stokes_sharp_edge.cc *)

Module SharpEdgeNewton.
Section WithProblem.
Context {T : Type} {DT : Double T} {Cell Constraints : Type}.
Variable P : Problem T Cell.
Variable F : Assembly T Cell Constraints.
Local Open Scope double_scope.

Definition residual (St : Solver T) : T :=
  l2_norm (n_dofs P) (system_rhs (sys St)).

(** [sharp_edge_V2(first_step)] on the system of the solver. *)
Definition sharp_edge (initial_step : bool) (St : Solver T) : outcome (Solver T) :=
  S1 <~ lift (SharpEdge.sharp_edge_V2 P initial_step (sys St)) ;;
  Done (with_sys St S1).

(** The body of the line search up to the test of the residual: the
    trial point, the residual there, and the trial point copied into
    [present_solution] and [last_vect]. *)
Definition line_search_body (alpha : T) (St : Solver T) : outcome (Solver T) :=
  let St1 := with_evaluation_point St (trial_point F alpha St) in
  let St2 := assemble_rhs P F false St1 in
  St3 <~ sharp_edge false St2 ;;
  let St4 := with_present_solution St3 (evaluation_point St3) in
  Done (with_last_vect St4 (present_solution St4)).

(** [for (double alpha = 1.0; alpha > 1e-3; alpha *= 0.5) { ...
       if (current_res < last_res) break;
       last_res = current_res; }]
    on the variables [current_res], [last_res] and the solver. *)
Fixpoint line_search (fuel : nat) (alpha : T) (N : Newton T) : outcome (Newton T) :=
  if dgtb alpha (decimal 1 3) then
    match fuel with
    | O => OutOfFuel
    | S fuel' =>
        St1 <~ line_search_body alpha (st N) ;;
        let res := residual St1 in
        if res <? last_res N then
          Done {| first_step := first_step N;
                  outer_iteration := outer_iteration N;
                  current_res := res;
                  last_res := last_res N;
                  st := St1 |}
        else
          line_search fuel' (alpha * decimal 5 1)
            {| first_step := first_step N;
               outer_iteration := outer_iteration N;
               current_res := res;
               last_res := res;
               st := St1 |}
    end
  else Done N.

(** The branch [if (first_step)] of the loop body. *)
Definition initial_newton_step (N : Newton T) : outcome (Newton T) :=
  let St1 := initialize_system (st N) in
  let St2 := with_evaluation_point St1 (present_solution St1) in
  let St3 := assemble_system P F true St2 in
  (* vertices_cell_mapping() recomputes vertices_to_cell from the mesh *)
  St4 <~ sharp_edge true St3 ;;
  St5 <~ lift (solve F true St4) ;;
  let St6 :=
    with_present_solution St5
      (distribute F (nonzero_constraints F) (newton_update St5)) in
  let St7 := with_evaluation_point St6 (present_solution St6) in
  let St8 := assemble_rhs P F false St7 in
  Done {| first_step := false;
          outer_iteration := outer_iteration N;
          current_res := residual St8;
          last_res := residual St8;
          st := with_last_vect St8 (present_solution St8) |}.

(** The branch [else] of the loop body. *)
Definition later_newton_step (ls_fuel : nat) (N : Newton T) : outcome (Newton T) :=
  let St1 := with_evaluation_point (st N) (present_solution (st N)) in
  let St2 := assemble_system P F false St1 in
  St3 <~ sharp_edge false St2 ;;
  St4 <~ lift (solve F false St3) ;;
  line_search ls_fuel (of_Z 1)
    {| first_step := false;
       outer_iteration := outer_iteration N;
       current_res := residual St3;
       last_res := last_res N;
       st := St4 |}.

Definition newton_step (ls_fuel : nat) (N : Newton T) : outcome (Newton T) :=
  if first_step N then initial_newton_step N else later_newton_step ls_fuel N.

(** [(first_step || (current_res > tolerance))
     && outer_iteration < max_iteration]. *)
Definition continues (tolerance : T) (max_iteration : nat) (N : Newton T) : bool :=
  ((first_step N || dgtb (current_res N) tolerance)
   && Nat.ltb (outer_iteration N) max_iteration)%bool.

Fixpoint newton_loop (fuel ls_fuel : nat) (tolerance : T) (max_iteration : nat)
  (N : Newton T) : outcome (Newton T) :=
  if continues tolerance max_iteration N then
    match fuel with
    | O => OutOfFuel
    | S fuel' =>
        N1 <~ newton_step ls_fuel N ;;
        newton_loop fuel' ls_fuel tolerance max_iteration
          {| first_step := first_step N1;
             outer_iteration := S (outer_iteration N1);
             current_res := current_res N1;
             last_res := last_res N1;
             st := st N1 |}
    end
  else Done N.

Definition newton_start (is_initial_step : bool) (St : Solver T) : Newton T :=
  {| first_step := is_initial_step;
     outer_iteration := 0;
     current_res := of_Z 1;
     last_res := of_Z 1;
     st := St |}.

(** [newton_iteration(tolerance, max_iteration, is_initial_step, _)]:
    the loop over the Newton steps runs on [max_iteration] steps of
    fuel and each line search on 10. *)
Definition newton_iteration (tolerance : T) (max_iteration : nat)
  (is_initial_step : bool) (St : Solver T) : outcome (Newton T) :=
  newton_loop max_iteration 10 tolerance max_iteration
    (newton_start is_initial_step St).

(** The state after the first [j] trials of the line search, each one
    taken from the state that the one before left, with step lengths
    [alpha], [alpha * 0.5], ... *)
Fixpoint trials (j : nat) (alpha : T) (St : Solver T) : outcome (Solver T) :=
  match j with
  | O => Done St
  | S j' => St1 <~ line_search_body alpha St ;; trials j' (alpha * decimal 5 1) St1
  end.

(** The value that the residual of trial [i] is compared with: the
    [last_res] at the start of the line search for the first trial, the
    residual of the trial before for the others; [Si] is the state
    after [i] trials. *)
Definition threshold (last : T) (i : nat) (Si : Solver T) : T :=
  match i with O => last | S _ => residual Si end.

(** Trial [i] of a line search that starts with step length [alpha],
    last residual [last] and state [St] was made and met the test
    [current_res < last_res] with the given verdict. *)
Definition compared (alpha last : T) (St : Solver T) (i : nat) (verdict : bool)
  : Prop :=
  exists Si Si',
    trials i alpha St = Done Si /\
    trials (S i) alpha St = Done Si' /\
    (residual Si' <? threshold last i Si) = verdict.

(** The line search in the words of the specification: the step
    lengths 1, 1/2, 1/4, ... down to 1e-3, every trial formed from the
    same [present_solution] and compared with the same [last_res], the
    first one that passes accepted, and [alpha = 1e-3] accepted when
    none passes. *)
Definition spec_trial (alpha : T) (St : Solver T) : outcome (Solver T) :=
  let St1 := with_evaluation_point St (trial_point F alpha St) in
  sharp_edge false (assemble_rhs P F false St1).

Definition spec_accept (St : Solver T) : Solver T :=
  with_present_solution St (evaluation_point St).

Fixpoint spec_search (fuel : nat) (alpha : T) (last : T) (St : Solver T)
  : outcome (Solver T) :=
  match fuel with
  | O => OutOfFuel
  | S fuel' =>
      if alpha <? decimal 1 3 then
        St1 <~ spec_trial (decimal 1 3) St ;; Done (spec_accept St1)
      else
        St1 <~ spec_trial alpha St ;;
        if residual St1 <? last then Done (spec_accept St1)
        else spec_search fuel' (alpha * decimal 5 1) last St
  end.

Definition spec_line_search (N : Newton T) : outcome (Solver T) :=
  spec_search 20 (of_Z 1) (last_res N) (st N).

(** The iterate that the line search of the code leaves, and the claim
    that it is the one of the specification. *)
Definition code_line_search (N : Newton T) : outcome (Solver T) :=
  N1 <~ line_search 10 (of_Z 1) N ;; Done (st N1).

Definition accepted_entry (o : outcome (Solver T)) (i : nat) : option T :=
  match o with
  | Done St => Some (present_solution St i)
  | _ => None
  end.

Definition spec_line_search_agrees (N : Newton T) : Prop :=
  forall i,
    accepted_entry (code_line_search N) i = accepted_entry (spec_line_search N) i.

End WithProblem.
End SharpEdgeNewton.

(** *** directSteadyNS.cpp *)

Module DirectNewton.
Section WithProblem.
Context {T : Type} {DT : Double T} {Cell Constraints : Type}.
Variable P : Problem T Cell.
Variable F : Assembly T Cell Constraints.
Local Open Scope double_scope.

Definition residual (St : Solver T) : T :=
  l2_norm (n_dofs P) (system_rhs (sys St)).

Definition sharp_edge (St : Solver T) : outcome (Solver T) :=
  S1 <~ lift (Direct.sharp_edge_V2 P (sys St)) ;;
  Done (with_sys St S1).

(** [for (double alpha = 1.0; alpha > 1e-3; alpha *= 0.5) { ... }]: the
    test of the residual and its [break] are commented out; the loop
    changes [evaluation_point], the right-hand side and [current_res]. *)
Fixpoint line_search (fuel : nat) (alpha : T) (N : Newton T) : outcome (Newton T) :=
  if dgtb alpha (decimal 1 3) then
    match fuel with
    | O => OutOfFuel
    | S fuel' =>
        let St1 := with_evaluation_point (st N) (trial_point F alpha (st N)) in
        let St2 := assemble_rhs P F false St1 in
        line_search fuel' (alpha * decimal 5 1)
          {| first_step := first_step N;
             outer_iteration := outer_iteration N;
             current_res := residual St2;
             last_res := last_res N;
             st := St2 |}
    end
  else Done N.

Definition initial_newton_step (N : Newton T) : outcome (Newton T) :=
  let St1 := initialize_system (st N) in
  let St2 := with_evaluation_point St1 (present_solution St1) in
  let St3 := assemble_system P F true St2 in
  St4 <~ sharp_edge St3 ;;
  St5 <~ lift (solve F true St4) ;;
  let St6 :=
    with_present_solution St5
      (distribute F (nonzero_constraints F) (newton_update St5)) in
  let St7 := with_evaluation_point St6 (present_solution St6) in
  let St8 := assemble_rhs P F false St7 in
  Done {| first_step := false;
          outer_iteration := outer_iteration N;
          current_res := residual St8;
          last_res := residual St8;
          st := St8 |}.

Definition later_newton_step (ls_fuel : nat) (N : Newton T) : outcome (Newton T) :=
  let St1 := with_evaluation_point (st N) (present_solution (st N)) in
  let St2 := assemble_system P F false St1 in
  St3 <~ sharp_edge St2 ;;
  St4 <~ lift (solve F false St3) ;;
  N1 <~ line_search ls_fuel (of_Z 1)
          {| first_step := false;
             outer_iteration := outer_iteration N;
             current_res := current_res N;
             last_res := last_res N;
             st := St4 |} ;;
  Done {| first_step := false;
          outer_iteration := outer_iteration N1;
          current_res := current_res N1;
          last_res := current_res N1;
          st := with_present_solution (st N1) (evaluation_point (st N1)) |}.

Definition newton_step (ls_fuel : nat) (N : Newton T) : outcome (Newton T) :=
  if first_step N then initial_newton_step N else later_newton_step ls_fuel N.

Definition continues (tolerance : T) (max_iteration : nat) (N : Newton T) : bool :=
  ((first_step N || dgtb (current_res N) tolerance)
   && Nat.ltb (outer_iteration N) max_iteration)%bool.

Fixpoint newton_loop (fuel ls_fuel : nat) (tolerance : T) (max_iteration : nat)
  (N : Newton T) : outcome (Newton T) :=
  if continues tolerance max_iteration N then
    match fuel with
    | O => OutOfFuel
    | S fuel' =>
        N1 <~ newton_step ls_fuel N ;;
        newton_loop fuel' ls_fuel tolerance max_iteration
          {| first_step := first_step N1;
             outer_iteration := S (outer_iteration N1);
             current_res := current_res N1;
             last_res := last_res N1;
             st := st N1 |}
    end
  else Done N.

Definition newton_start (is_initial_step : bool) (St : Solver T) : Newton T :=
  {| first_step := is_initial_step;
     outer_iteration := 0;
     current_res := of_Z 1;
     last_res := of_Z 1;
     st := St |}.

Definition newton_iteration (tolerance : T) (max_iteration : nat)
  (is_initial_step : bool) (St : Solver T) : outcome (Newton T) :=
  newton_loop max_iteration 10 tolerance max_iteration
    (newton_start is_initial_step St).

End WithProblem.
End DirectNewton.

(* ================================================================== *)
(** ** The statements of the specification *)

Section SpecStatements.
Context {T : Type} {DT : Double T}.
Local Open Scope double_scope.

(** The normal projection of [x] onto the circle of centre [c] and
    radius [r], in the words of the specification:
    [x_proj = c + r (x - c) / |x - c|]. *)
Definition spec_projection (c : Point T) (r : T) (x : Point T) : Point T :=
  padd c (pdiv (pscale r (psub x c)) (norm (psub x c))).

(** The mirror point in the words of the specification:
    [x_m = x_i + 2 (x_proj - x_i)]. *)
Definition spec_mirror_point (c : Point T) (r : T) (x : Point T) : Point T :=
  padd x (pscale (of_Z 2) (psub (spec_projection c r x) x)).

(** The sum of the interpolation weights [N_n(xi)] over the positions
    [n] of component [k] in the dof list of the cell that land on
    column [m]. *)
Definition stencil_weight {Cell : Type} (P : Problem T Cell)
  (local_dof_indices_2 : list nat) (xi : Point T) (k m : nat) : T :=
  fold_left
    (fun acc n =>
       if Nat.eqb (nth n local_dof_indices_2 0%nat) m
       then acc + shape_value P n xi else acc)
    (stride (dofs_per_cell P) k) (of_Z 0).

(** The columns that [SharpEdge.clear_line] sets to zero. *)
Definition cleared_columns {Cell : Type} (P : Problem T Cell)
  (active_neighbors : list Cell) : list nat :=
  flat_map
    (fun cell_3 =>
       map (fun o => nth o (get_dof_indices P cell_3) 0%nat)
           (seq 0 (dofs_per_cell P)))
    active_neighbors.

(** The rows that [SharpEdge.sharp_edge_V2] rewrites: the velocity dofs
    of the cells cut by the small circle or by the large one. *)
Definition velocity_dofs {Cell : Type} (P : Problem T Cell) (cell : Cell) : list nat :=
  flat_map
    (fun k => map (fun l => nth l (get_dof_indices P cell) 0%nat)
                  (stride (dofs_per_cell P) k))
    (seq 0 2).

Definition cut_by_small {Cell : Type} (P : Problem T Cell) (cell : Cell) : bool :=
  SharpEdge.is_cut P
    (SharpEdge.count_within P (radius P) (get_dof_indices P cell)).

Definition cut_by_large {Cell : Type} (P : Problem T Cell) (cell : Cell) : bool :=
  SharpEdge.is_cut P
    (if negb (couette P) then 0%nat
     else SharpEdge.count_within P (radius_2 P) (get_dof_indices P cell)).

Definition rewritten_rows {Cell : Type} (P : Problem T Cell) : list nat :=
  flat_map
    (fun cell =>
       if (cut_by_small P cell || cut_by_large P cell)%bool
       then velocity_dofs P cell else [])
    (active_cells P).

End SpecStatements.

(* ================================================================== *)
(** ** Concrete inputs *)

(** A mesh of one cell, the square [1.2, 2.2] x [0, 1], whose lower
    left vertex lies at distance 1 from the centre (0.2, 0) of the
    circle; local dof [l] is global dof [l]. *)
Module Strip.
Section WithDouble.
Context {T : Type} {DT : Double T}.
Local Open Scope double_scope.

Definition vertex_at (corner : Point T) (v : nat) : Point T :=
  match v with
  | 0%nat => corner
  | 1%nat => padd corner (of_Z 1, of_Z 0)
  | 2%nat => padd corner (of_Z 0, of_Z 1)
  | _ => padd corner (of_Z 1, of_Z 1)
  end.

(** The unit square whose lower left vertex is [corner]. *)
Definition problem_at (corner : Point T) (rad : T) (cou : bool) : Problem T unit := {|
  viscosity_ := of_Z 1;
  radius := rad;
  radius_2 := decimal 91 2;
  couette := cou;
  vertices_to_cell := fun _ => [tt];
  dofs_per_cell := 12;
  n_dofs := 12;
  active_cells := [tt];
  get_dof_indices := fun _ => seq 0 12;
  vertex_index := fun _ v => v;
  support_points := fun i => vertex_at corner (i / 3);
  transform_real_to_unit_cell := fun _ p => Some (psub p corner);
  distance_to_unit_cell := Grid.unit_cell_distance;
  shape_value := Grid.q1_shape;
  find_active_cell_around_point := fun _ => Some tt;
  minimal_cell_diameter := dsqrt (of_Z 2)
|}.

Definition corner : Point T := (decimal 12 1, of_Z 0).

Definition problem : T -> bool -> Problem T unit := problem_at corner.

End WithDouble.
End Strip.

(** The square [-1,1]^2 in 2 by 2 cells with the circle of [runMMS]
    (radius 0.21 about (0.2, 0)), in binary64; [coarse_grid true] is the
    Couette variant. *)
Definition coarse_grid (cou : bool) : Problem float nat :=
  Grid.problem 2 (of_Z 1) (of_Z 1) (decimal 21 2) (decimal 91 2) cou.

(** The square [-1.5,1.5]^2 in 5 by 5 cells, in binary64: the circles
    of directSteadyNS.cpp, of radius 0.21 and 0.91 about the origin,
    lie inside it, and the larger one cuts the cells around the middle
    cell. *)
Definition wide_grid : Problem float nat :=
  Grid.problem 5 (decimal 15 1) (of_Z 1) (decimal 21 2) (decimal 91 2) true.


(** The unit square whose lower left vertex (0, 0.91) lies on the
    large circle of directSteadyNS.cpp, in binary64. *)
Definition square_on_large_circle : Problem float unit :=
  Strip.problem_at (of_Z 0, decimal 91 2) (decimal 21 2) true.

(** The strip in exact arithmetic. *)
Definition strip_R (rad : R) (cou : bool) : Problem R unit := Strip.problem rad cou.

(** A system with 4 on the diagonal and right-hand side 1. *)
Definition diagonal_system : System float :=
  {| system_matrix := fun i j => if Nat.eqb i j then of_Z 4 else of_Z 0;
     system_rhs := fun _ => of_Z 1 |}.

Definition diagonal_system_R : System R :=
  {| system_matrix := fun i j => if Nat.eqb i j then 4%R else 0%R;
     system_rhs := fun _ => 1%R |}.

(* ================================================================== *)
(** ** The claims of the specification, in its own words *)

Section SpecClaims.
Context {T : Type} {DT : Double T} {Cell : Type}.
Variable P : Problem T Cell.
Local Open Scope double_scope.

Definition matrix_entry (o : option (System T)) (i j : nat) : option T :=
  option_map (fun s => system_matrix s i j) o.

Definition rhs_entry (o : option (System T)) (i : nat) : option T :=
  option_map (fun s => system_rhs s i) o.

(** Steps 3 and 4 of the row rewrite as the specification has them:
    [J_ii = -2 alpha / d^2] and [J_im = alpha N_m(xi) / d^2] on the dofs
    [m] of component [k] of the cell of the mirror point. *)
Definition spec_row_stencil (initial_step : bool) (cell : Cell) (k l : nat)
  (S0 : System T) : Prop :=
  let i := nth l (get_dof_indices P cell) 0%nat in
  let sp := support_points P i in
  let alpha := system_matrix S0 i i in
  let d := norm (SharpEdge.vect_dist P sp) in
  let after := SharpEdge.override_row P initial_step cell k l S0 in
  dneb d (of_Z 0) = true ->
  forall cell_2 xi,
    SharpEdge.locate P (SharpEdge.second_point P sp) cell l = Some (cell_2, xi) ->
    matrix_entry after i i = Some (of_Z (-2) * alpha / (d * d)) /\
    forall n,
      In n (stride (dofs_per_cell P) k) ->
      matrix_entry after i (nth n (get_dof_indices P cell_2) 0%nat) =
      Some (alpha * shape_value P n xi / (d * d)).

(** Step 5 as the specification has it: [r_i = alpha g_k(x_proj) / d^2]
    on the initial Newton step and [r_i = 0] afterwards. *)
Definition spec_row_rhs (initial_step : bool) (cell : Cell) (k l : nat)
  (S0 : System T) : Prop :=
  let i := nth l (get_dof_indices P cell) 0%nat in
  let sp := support_points P i in
  let alpha := system_matrix S0 i i in
  let d := norm (SharpEdge.vect_dist P sp) in
  let x_proj := spec_projection SharpEdge.center_immersed (radius P) sp in
  rhs_entry (SharpEdge.override_row P initial_step cell k l S0) i =
  Some (if initial_step
        then alpha * SharpEdge.boundary_condition k x_proj / (d * d)
        else of_Z 0).


(** The second stencil point as the specification has it. *)
Definition spec_second_point (sp : Point T) : Prop :=
  SharpEdge.second_point P sp =
  spec_mirror_point SharpEdge.center_immersed (radius P) sp.

(** Idempotence as the specification has it. *)
Definition override_twice (initial_step : bool) (S0 : System T)
  : option (System T) :=
  S1 <- SharpEdge.sharp_edge_V2 P initial_step S0 ;;
  SharpEdge.sharp_edge_V2 P initial_step S1.

Definition spec_idempotent (initial_step : bool) (S0 : System T) : Prop :=
  forall i j,
    matrix_entry (override_twice initial_step S0) i j =
    matrix_entry (SharpEdge.sharp_edge_V2 P initial_step S0) i j /\
    rhs_entry (override_twice initial_step S0) i =
    rhs_entry (SharpEdge.sharp_edge_V2 P initial_step S0) i.

End SpecClaims.

(** The sampling step as the specification has it, [dr = h_min / sqrt 2]. *)
Definition spec_sampling_step {T : Type} {DT : Double T} (h_min : T) : T :=
  (h_min / dsqrt (of_Z 2))%D.

(** The stabilisation parameter as the specification has it, the norm
    of the velocity floored at 1e-12. *)
Definition spec_tau {T : Type} {DT : Double T} (nu h velocity_norm : T) : T :=
  let floored := std_max velocity_norm (decimal 1 12) in
  (of_Z 1 /
   dsqrt ((of_Z 2 * floored / h) * (of_Z 2 * floored / h)
          + of_Z 9 * ((of_Z 4 * nu / (h * h)) * (of_Z 4 * nu / (h * h)))))%D.

(** A stand-in for the assembler on the one-cell grid: the right-hand
    side is 5 on dof 0 while the evaluation point is below 1.25 there
    and 3 from there on, no constraints, no solver. *)
Definition step_assembly : Assembly float nat unit := {|
  measure := fun _ => of_Z 4;
  n_q_points := 1;
  velocity_value := fun _ _ _ => (of_Z 0, of_Z 0);
  matrix_terms := fun _ _ _ _ => mzero;
  rhs_terms := fun _ _ _ u i =>
    if Nat.eqb i 0
    then (if (u 0%nat <? decimal 125 2)%D then of_Z 5 else of_Z 3)
    else of_Z 0;
  nonzero_constraints := tt;
  zero_constraints := tt;
  distribute_local_to_global := fun _ _ _ _ A r => (A, r);
  distribute_local_to_global_rhs := fun _ local_rhs dofs r =>
    fold_left
      (fun r' l => vset r' (nth l dofs 0%nat) (r' (nth l dofs 0%nat) + local_rhs l)%D)
      (seq 0 (length dofs)) r;
  distribute := fun _ u => u;
  umfpack := fun _ _ => None
|}.

(** The square [-1,1]^2 as one cell, which the circle of [runMMS] does
    not cut. *)
Definition one_cell_grid : Problem float nat :=
  Grid.problem 1 (of_Z 1) (of_Z 1) (decimal 21 2) (decimal 91 2) false.

(** A Newton iteration about to search along the update (1, 0, ...)
    from the iterate 0, the last residual being 1. *)
Definition before_line_search : Newton float := {|
  first_step := false;
  outer_iteration := 1;
  current_res := of_Z 1;
  last_res := of_Z 1;
  st := {| sys := diagonal_system;
           present_solution := vzero;
           newton_update := fun i => if Nat.eqb i 0 then of_Z 1 else of_Z 0;
           evaluation_point := vzero;
           last_vect := vzero |}
|}.

(* ================================================================== *)
(** ** Statements about whole runs *)

(** Row [i] of the system is the same in [S] and [S']. *)
Definition same_row {T : Type} (i : nat) (S S' : System T) : Prop :=
  (forall j, system_matrix S' i j = system_matrix S i j) /\
  system_rhs S' i = system_rhs S i.

(** The system that a run returns, [d] if it raises. *)
Definition get_system {T : Type} (o : option (System T)) (d : System T) : System T :=
  match o with Some s => s | None => d end.

Definition returns {A : Type} (o : option A) : bool :=
  match o with Some _ => true | None => false end.

Section SearchStatement.
Context {T : Type} {DT : Double T} {Cell Constraints : Type}.
Variable P : Problem T Cell.
Variable F : Assembly T Cell Constraints.

(** What a line search of at most [n] rounds, started with step length
    [alpha], last residual [last] and state [St], leaves: it stops at
    a trial [j], with the state that the trials 0 to [j] leave one
    after the other; all the trials before [j] failed the test; trial
    [j] passed it, or is the last round and failed it too. *)
Definition searched (n : nat) (alpha last : T) (St : Solver T)
  (o : outcome (Newton T)) : Prop :=
  match o with
  | OutOfFuel => False
  | Raised =>
      exists j, j < n /\ SharpEdgeNewton.trials P F (S j) alpha St = Raised /\
                (forall i, i < j -> SharpEdgeNewton.compared P F alpha last St i false)
  | Done N' =>
      exists j, j < n /\
                SharpEdgeNewton.trials P F (S j) alpha St = Done (st N') /\
                current_res N' = SharpEdgeNewton.residual P (st N') /\
                (forall i, i < j -> SharpEdgeNewton.compared P F alpha last St i false) /\
                (SharpEdgeNewton.compared P F alpha last St j true \/
                 (S j = n /\ SharpEdgeNewton.compared P F alpha last St j false))
  end.

End SearchStatement.

Section DirectStatements.
Context {T : Type} {DT : Double T} {Cell : Type}.
Variable P : Problem T Cell.

(** The cells that the passes of [Direct.sharp_edge_V2] enter, and the
    rows that it rewrites. *)
Definition direct_cut (small : bool) (cell : Cell) : bool :=
  Direct.is_cut P
    (Direct.count_within P (if small then Direct.radius else Direct.radius_2)
       (get_dof_indices P cell)).

Definition direct_rewritten_rows : list nat :=
  flat_map
    (fun cell =>
       if (direct_cut true cell || direct_cut false cell)%bool
       then velocity_dofs P cell else [])
    (active_cells P).

(** Row [i] is the same in [S] and [S'] on the [n_dofs] columns of the
    matrix and in the right-hand side. *)
Definition agree_row (i : nat) (S S' : System T) : Prop :=
  (forall j, j < n_dofs P -> system_matrix S' i j = system_matrix S i j) /\
  system_rhs S' i = system_rhs S i.

End DirectStatements.

(* ================================================================== *)
(** ** Proof automation *)

(** Shows the operations of the instance [exact] as those of [R]. *)
Ltac exact_arith :=
  cbn [dadd dsub dmul ddiv dopp dsqrt dltb dleb deqb of_Z M_PI exact] in *.

(* ================================================================== *)
(** ** gls_navier_stokes_sharp_edge.cc: [vertices_cell_mapping()] *)

Section VerticesCellMapping.
Context {T Cell : Type}.
Variable P : Problem T Cell.

(** [operator<] of the cell iterators, the order of
    [std::set<active_cell_iterator>]. *)
Variable cell_ltb : Cell -> Cell -> bool.

(** [std::set::insert] on the ordered sequence of the elements of the
    set: a cell equivalent to one of the set is not inserted. *)
Fixpoint set_insert (c : Cell) (s : list Cell) : list Cell :=
  match s with
  | [] => [c]
  | x :: s' =>
      if cell_ltb c x then c :: x :: s'
      else if cell_ltb x c then x :: set_insert c s'
      else x :: s'
  end.

(** [std::set<...> adjacent_2(adjacent.begin(), adjacent.end())]. *)
Definition set_of_range (adjacent : list Cell) : list Cell :=
  fold_left (fun s c => set_insert c s) adjacent [].

(** [vertices_to_cell[v_index] = adjacent_3]. *)
Fixpoint assign_at {A : Type} (n : nat) (a : A) (l : list A) : list A :=
  match l, n with
  | [], _ => []
  | _ :: l', O => a :: l'
  | x :: l', S n' => x :: assign_at n' a l'
  end.

(** The body of the loop over the vertices of a cell.  The vector is
    indexed without a check; an index past its end is [None]. *)
Definition add_cell_to_vertex (cell : Cell) (i : nat)
  (vertices_to_cell : list (list Cell)) : option (list (list Cell)) :=
  let v_index := vertex_index P cell i in
  adjacent <- nth_error vertices_to_cell v_index ;;
  let adjacent_2 := set_insert cell (set_of_range adjacent) in
  Some (assign_at v_index adjacent_2 vertices_to_cell).

(** [GeometryInfo<2>::vertices_per_cell]. *)
Definition vertices_per_cell : nat := 4.

(** [vertices_to_cell.clear();
     vertices_to_cell.resize(dof_handler.n_dofs() / (dim + 1));
     for (cell) for (i < vertices_per_cell) ...]. *)
Definition vertices_cell_mapping : option (list (list Cell)) :=
  for_each
    (fun cell V => for_each (add_cell_to_vertex cell) (seq 0 vertices_per_cell) V)
    (active_cells P)
    (repeat [] (n_dofs P / 3)).

End VerticesCellMapping.

(* ================================================================== *)
(** ** gls_navier_stokes_sharp_edge.cc: [torque()] *)

(** [cos] and [sin] of <cmath>. *)
Class Trig (T : Type) : Type := {
  dcos : T -> T;
  dsin : T -> T
}.

#[global] Instance exact_trig : Trig R := {
  dcos := cos;
  dsin := sin
}.

Section Torque.
Context {T : Type} {DT : Double T} {TT : Trig T} {Cell : Type}.
Variable P : Problem T Cell.
Variable present_solution : Vector T.
Local Open Scope double_scope.

(** [nb_evaluation = 100]. *)
Definition nb_evaluation : nat := 100.

Definition of_unsigned (n : nat) : T := of_Z (Z.of_nat n).

(** [i * 2 * PI / (nb_evaluation)]: the product [i * 2] is one of
    unsigned integers. *)
Definition sample_angle (i : nat) : T :=
  of_unsigned (i * 2) * M_PI / of_unsigned nb_evaluation.

(** [i * 2 * PI / (nb_evaluation) - PI / 2]. *)
Definition tangent_angle (i : nat) : T :=
  sample_angle i - M_PI / of_Z 2.

(** [eval_point(rad * cos(...) + center_x, rad * sin(...) + center_y)]
    with [center_x = 0] and [center_y = 0]. *)
Definition eval_point (rad : T) (i : nat) : Point T :=
  (rad * dcos (sample_angle i) + of_Z 0, rad * dsin (sample_angle i) + of_Z 0).

(** [eval_point_2], at [offset] along the normal of the sample:
    [(eval_point[0] + offset * cos(...), eval_point[1] + offset * sin(...))]. *)
Definition eval_point_2 (rad offset : T) (i : nat) : Point T :=
  (fst (eval_point rad i) + offset * dcos (sample_angle i),
   snd (eval_point rad i) + offset * dsin (sample_angle i)).

(** The point of the large circle is moved inwards:
    [(eval_point[0] - dr * cos(...), eval_point[1] - dr * sin(...))]. *)
Definition eval_point_2_large (rad offset : T) (i : nat) : Point T :=
  (fst (eval_point rad i) - offset * dcos (sample_angle i),
   snd (eval_point rad i) - offset * dsin (sample_angle i)).

(** [u_1 = -sin(...); v_1 = cos(...);
     U1 = u_1 * cos(... - PI / 2) + v_1 * sin(... - PI / 2)]. *)
Definition U1 (i : nat) : T :=
  let u_1 := - dsin (sample_angle i) in
  let v_1 := dcos (sample_angle i) in
  u_1 * dcos (tangent_angle i) + v_1 * dsin (tangent_angle i).

(** [for (j = 0; j < 12; j = j + 3)
       acc += fe.shape_value(j + c, p) * present_solution(local_dof_indices[j + c])]
    for the component [c]. *)
Definition interpolate (c : nat) (local_dof_indices : list nat) (p : Point T) : T :=
  fold_left
    (fun acc j =>
       acc + shape_value P (j + c) p
             * present_solution (nth (j + c) local_dof_indices 0%nat))
    [0; 3; 6; 9]%nat (of_Z 0).

(** The cell around a point and the point in the coordinates of the
    cell; both calls may throw. *)
Definition cell_and_unit_point (pt : Point T) : option (Cell * Point T) :=
  cell <- find_active_cell_around_point P pt ;;
  p <- transform_real_to_unit_cell P cell pt ;;
  Some (cell, p).

(** [U2], the tangential velocity interpolated at [pt]. *)
Definition U2 (i : nat) (pt : Point T) : option T :=
  found <- cell_and_unit_point pt ;;
  let local_dof_indices := get_dof_indices P (fst found) in
  let u_2 := interpolate 0 local_dof_indices (snd found) in
  let v_2 := interpolate 1 local_dof_indices (snd found) in
  Some (u_2 * dcos (tangent_angle i) + v_2 * dsin (tangent_angle i)).

Definition dr : T := torque_dr (minimal_cell_diameter P).

(** The shear at sample [i] of the small circle,
    [du_dr = (U2 / (radius + dr) - U1 / radius) / dr]; the cell of the
    sample itself is looked up first, and not used. *)
Definition du_dr_small (i : nat) : option T :=
  _ <- cell_and_unit_point (eval_point (radius P) i) ;;
  u2 <- U2 i (eval_point_2 (radius P) dr i) ;;
  Some ((u2 / (radius P + dr) - U1 i / radius P) / dr).

(** The first loop: [t_torque], [fx_v] and [fy_v]. *)
Definition torque_small_step (i : nat) (acc : T * T * T) : option (T * T * T) :=
  let '(t_torque, fx_v, fy_v) := acc in
  du_dr <- du_dr_small i ;;
  let mu := viscosity_ P in
  let rad := radius P in
  let n1 := of_unsigned (nb_evaluation - 1) in
  Some (t_torque + rad * du_dr * mu * rad * of_Z 2 * M_PI * rad / n1,
        fx_v + du_dr * mu * rad * of_Z 2 * M_PI * rad / n1 * dcos (tangent_angle i),
        fy_v + du_dr * mu * rad * of_Z 2 * M_PI * rad / n1 * dsin (tangent_angle i)).

Definition torque_small : option (T * T * T) :=
  for_each torque_small_step (seq 0 nb_evaluation) (of_Z 0, of_Z 0, of_Z 0).

(** The second loop, on the large circle: [u_1 = 0], [v_1 = 0],
    [du_dr = (U2 / (radius_2 - dr) - U1 / radius_2) / dr]. *)
Definition du_dr_large (i : nat) : option T :=
  _ <- cell_and_unit_point (eval_point (radius_2 P) i) ;;
  let U1_large :=
    of_Z 0 * dcos (tangent_angle i) + of_Z 0 * dsin (tangent_angle i) in
  u2 <- U2 i (eval_point_2_large (radius_2 P) dr i) ;;
  Some ((u2 / (radius_2 P - dr) - U1_large / radius_2 P) / dr).

Definition torque_large_step (i : nat) (t_torque_l : T) : option T :=
  du_dr <- du_dr_large i ;;
  let mu := viscosity_ P in
  let rad := radius_2 P in
  Some (t_torque_l
        + rad * du_dr * mu * rad * of_Z 2 * M_PI * rad
          / of_unsigned (nb_evaluation - 1)).

Definition torque_large : option T :=
  for_each torque_large_step (seq 0 nb_evaluation) (of_Z 0).

(** The pressures extrapolated to the surface in the last loop, from
    the pressures [P_1], [P_2] and [P_3] interpolated at [dr], [2 dr]
    and [3 dr] from it:
    [P2_temp = P_1 + (P_1 - P_2) + ((P_1 - P_2) - (P_2 - P_3)); P2 = P2_temp;
     P = P_1 + (P_1 - P_2) * 1; P3 = P_1]. *)
Definition pressure_order_2 (P_1 P_2 P_3 : T) : T :=
  P_1 + (P_1 - P_2) + ((P_1 - P_2) - (P_2 - P_3)).

Definition pressure_order_1 (P_1 P_2 : T) : T := P_1 + (P_1 - P_2) * of_Z 1.

Definition pressure_order_0 (P_1 : T) : T := P_1.

End Torque.

(* ================================================================== *)
(** ** gls_navier_stokes_sharp_edge.cc: [calculateL2Error()] *)

(** The tangential velocity of the Couette flow between the circles at
    the distance [r] from the centre, as the loop over the vertices
    computes it:
    [omega_1 = 1 / radius; omega_2 = 0; ri_ = radius; ro_ = radius_2;
     A = (omega_2 * ro_ * ro_ - omega_1 * ri_ * ri_) / (ro_ * ro_ - ri_ * ri_);
     B = (omega_1 - omega_2) * ri_ * ri_ * ro_ * ro_ / (ro_ * ro_ - ri_ * ri_);
     utheta = A * r + B / r;
     if (r > ro_) utheta = 0;
     if (r < ri_) utheta = omega_1 * r]. *)
Definition couette_utheta {T : Type} {DT : Double T} (radius radius_2 r : T) : T :=
  let omega_1 := (of_Z 1 / radius)%D in
  let omega_2 := of_Z 0 in
  let ri_ := radius in
  let ro_ := radius_2 in
  let A := ((omega_2 * ro_ * ro_ - omega_1 * ri_ * ri_) / (ro_ * ro_ - ri_ * ri_))%D in
  let B := ((omega_1 - omega_2) * ri_ * ri_ * ro_ * ro_ / (ro_ * ro_ - ri_ * ri_))%D in
  let utheta := (A * r + B / r)%D in
  let utheta := if dgtb r ro_ then of_Z 0 else utheta in
  if (r <? ri_)%D then (omega_1 * r)%D else utheta.

(* ================================================================== *)
(** ** Statements about the search, the rows and the drivers *)

(** The test of the search loop of [sharp_edge_V2] on one cell: the
    inverse mapping succeeds and gives a point at distance 0 of the
    unit cell. *)
Definition holds_point {T : Type} {DT : Double T} {Cell : Type}
  (P : Problem T Cell) (pt : Point T) (c : Cell) : bool :=
  match transform_real_to_unit_cell P c pt with
  | Some p_cell => (distance_to_unit_cell P p_cell =? of_Z 0)%D
  | None => false
  end.

(** Whether, for every velocity dof of every cell that a circle cuts,
    one of the cells around the vertex of the dof holds the second
    point of the dof for that circle. *)
Definition second_points_held {T : Type} {DT : Double T} {Cell : Type}
  (P : Problem T Cell) : bool :=
  forallb
    (fun cell =>
       forallb
         (fun c =>
            if match c with
               | Small => cut_by_small P cell
               | Large => cut_by_large P cell
               end
            then
              forallb
                (fun k =>
                   forallb
                     (fun l =>
                        existsb
                          (holds_point P
                             (SharpEdge.second_point_of P c
                                (support_points P
                                   (nth l (get_dof_indices P cell) 0%nat))))
                          (SharpEdge.active_neighbors_of P cell l))
                     (stride (dofs_per_cell P) k))
                [0%nat; 1%nat]
            else true)
         [Small; Large])
    (active_cells P).

(** The square [-1,1]^2 in 7 by 7 cells with the circle of [runMMS], in
    binary64: the circle cuts six cells. *)
Definition fine_grid : Problem float nat :=
  Grid.problem 7 (of_Z 1) (of_Z 1) (decimal 21 2) (decimal 91 2) false.

(** Entry [i] of the product of the matrix with a vector of [n]
    entries, [(A u)_i], the product that the direct solver of [solve]
    inverts. *)
Fixpoint row_times {T : Type} {DT : Double T} (n : nat) (A : Matrix T) (i : nat)
  (u : Vector T) : T :=
  match n with
  | O => of_Z 0
  | S m => (row_times m A i u + A i m * u m)%D
  end.

(** The value of component [k] of [u] interpolated at the reference
    point [xi] of the cell whose dofs are [local_dof_indices_2], with
    the shape functions that the override uses for its stencil. *)
Definition stencil_value {T : Type} {DT : Double T} {Cell : Type}
  (P : Problem T Cell) (local_dof_indices_2 : list nat) (xi : Point T) (k : nat)
  (u : Vector T) : T :=
  fold_left
    (fun acc n =>
       (acc + shape_value P n xi * u (nth n local_dof_indices_2 0%nat))%D)
    (stride (dofs_per_cell P) k) (of_Z 0).

(** An assembler that adds nothing, without constraints, whose solver
    returns the right-hand side, in exact arithmetic. *)
Definition idle_assembly : Assembly R unit unit := {|
  measure := fun _ => 1%R;
  n_q_points := 1;
  velocity_value := fun _ _ _ => (0%R, 0%R);
  matrix_terms := fun _ _ _ _ => mzero;
  rhs_terms := fun _ _ _ _ => vzero;
  nonzero_constraints := tt;
  zero_constraints := tt;
  distribute_local_to_global := fun _ _ _ _ A r => (A, r);
  distribute_local_to_global_rhs := fun _ _ _ r => r;
  distribute := fun _ u => u;
  umfpack := fun _ r => Some r
|}.

(** A solver at rest on the system with 4 on the diagonal. *)
Definition solver_at_rest : Solver R := {|
  sys := diagonal_system_R;
  present_solution := vzero;
  newton_update := vzero;
  evaluation_point := vzero;
  last_vect := vzero
|}.

Ltac exact_trig := cbn [dcos dsin exact_trig] in *.

(* ================================================================== *)
(** * Part II: lemmas *)

Unset Implicit Arguments.

(** ** The index walk *)

Lemma stride_next_gt (l : nat) : l < stride_next l.
Proof. unfold stride_next. destruct (Nat.ltb l 12); lia. Qed.

(** With [size - l] steps of fuel the walk reaches the end. *)
Lemma stride_loop_enough (fuel size l : nat) :
  size - l <= fuel -> exists ls, stride_loop fuel size l = Some ls.
Proof.
  revert l. induction fuel as [|fuel IH]; intros l Hfuel; simpl.
  - destruct (Nat.ltb_spec l size) as [Hlt|Hge]; [lia|]. now exists [].
  - destruct (Nat.ltb_spec l size) as [Hlt|Hge]; [|now exists []].
    destruct (IH (stride_next l)) as [ls Hls].
    + pose proof (stride_next_gt l). lia.
    + rewrite Hls. now exists (l :: ls).
Qed.

Lemma stride_loop_lt (fuel size l : nat) (ls : list nat) :
  stride_loop fuel size l = Some ls -> forall n, In n ls -> n < size.
Proof.
  revert l ls. induction fuel as [|fuel IH]; intros l ls; simpl.
  - destruct (Nat.ltb_spec l size); [discriminate|].
    intros [= <-] n [].
  - destruct (Nat.ltb_spec l size) as [Hlt|Hge].
    + destruct (stride_loop fuel size (stride_next l)) as [ls'|] eqn:E;
        simpl; [|discriminate].
      intros [= <-] n [<-|Hin]; [assumption|]. eapply IH; eassumption.
    + intros [= <-] n [].
Qed.

Lemma stride_lt (size k n : nat) : In n (stride size k) -> n < size.
Proof.
  unfold stride. destruct (stride_loop size size k) as [ls|] eqn:E.
  - eapply stride_loop_lt; eassumption.
  - intros [].
Qed.

(** The fuel that [stride] gives the walk is enough. *)
Lemma stride_total (size k : nat) : stride_loop size size k = Some (stride size k).
Proof.
  unfold stride. destruct (stride_loop_enough size size k) as [ls Hls]; [lia|].
  now rewrite Hls.
Qed.

(** On the twelve dofs of a Q1-Q1 cell the walk visits the four dofs
    of component [k]. *)
Lemma stride_Q1 (k : nat) :
  k < 3 -> stride 12 k = [k; k + 3; k + 6; k + 9].
Proof.
  intros Hk. destruct k as [|[|[|k]]]; try reflexivity. lia.
Qed.

(** ** Writes into the matrix and the vectors *)

Section Writes.
Context {T : Type} {DT : Double T}.

Lemma mset_eq (A : Matrix T) (i j : nat) (v : T) : mset A i j v i j = v.
Proof. unfold mset. now rewrite !Nat.eqb_refl. Qed.

Lemma mset_other_row (A : Matrix T) (i j i' j' : nat) (v : T) :
  i' <> i -> mset A i j v i' j' = A i' j'.
Proof.
  intros H. unfold mset. apply Nat.eqb_neq in H. now rewrite H.
Qed.

Lemma mset_other_col (A : Matrix T) (i j i' j' : nat) (v : T) :
  j' <> j -> mset A i j v i' j' = A i' j'.
Proof.
  intros H. unfold mset. apply Nat.eqb_neq in H. rewrite H.
  now rewrite andb_false_r.
Qed.

Lemma madd_other_row (A : Matrix T) (i j i' j' : nat) (v : T) :
  i' <> i -> madd A i j v i' j' = A i' j'.
Proof.
  intros H. unfold madd. apply Nat.eqb_neq in H. now rewrite H.
Qed.

Lemma vset_eq (r : Vector T) (i : nat) (v : T) : vset r i v i = v.
Proof. unfold vset. now rewrite Nat.eqb_refl. Qed.

Lemma vset_other (r : Vector T) (i i' : nat) (v : T) :
  i' <> i -> vset r i v i' = r i'.
Proof. intros H. unfold vset. apply Nat.eqb_neq in H. now rewrite H. Qed.

(** Setting the columns [cols] of row [i] to [z], one after the other. *)
Lemma set_columns_other_row (cols : list nat) (A : Matrix T) (i i' j' : nat) (z : T) :
  i' <> i -> fold_left (fun A' c => mset A' i c z) cols A i' j' = A i' j'.
Proof.
  intros H. revert A. induction cols as [|c cols IH]; intros A; simpl.
  - reflexivity.
  - rewrite IH. now apply mset_other_row.
Qed.

Lemma set_columns_out (cols : list nat) (A : Matrix T) (i j : nat) (z : T) :
  ~ In j cols -> fold_left (fun A' c => mset A' i c z) cols A i j = A i j.
Proof.
  revert A. induction cols as [|c cols IH]; intros A Hout; simpl.
  - reflexivity.
  - rewrite IH.
    + apply mset_other_col. intros ->. apply Hout. now left.
    + intros H. apply Hout. now right.
Qed.

Lemma set_columns_in (cols : list nat) (A : Matrix T) (i j : nat) (z : T) :
  In j cols -> fold_left (fun A' c => mset A' i c z) cols A i j = z.
Proof.
  revert A. induction cols as [|c cols IH]; intros A; simpl.
  - intros [].
  - intros Hin. destruct (in_dec Nat.eq_dec j cols) as [Hj|Hj].
    + now apply IH.
    + destruct Hin as [->|Hin]; [|contradiction].
      rewrite set_columns_out by assumption. apply mset_eq.
Qed.

End Writes.

Section ClearLine.
Context {T : Type} {DT : Double T} {Cell : Type}.
Variable P : Problem T Cell.

(** [clear_line] is the column-by-column write over [cleared_columns]. *)
Lemma clear_line_columns (ns : list Cell) (i : nat) (A : Matrix T) :
  SharpEdge.clear_line P ns i A =
  fold_left (fun A' c => mset A' i c (of_Z 0)) (cleared_columns P ns) A.
Proof.
  unfold SharpEdge.clear_line, cleared_columns.
  revert A. induction ns as [|c ns IH]; intros A; simpl.
  - reflexivity.
  - rewrite fold_left_app, IH. f_equal.
    generalize (seq 0 (dofs_per_cell P)). intros os. revert A.
    induction os as [|o os IHo]; intros A; simpl; [reflexivity|]. apply IHo.
Qed.

Lemma clear_line_other_row (ns : list Cell) (A : Matrix T) (i i' j' : nat) :
  i' <> i -> SharpEdge.clear_line P ns i A i' j' = A i' j'.
Proof. intros H. rewrite clear_line_columns. now apply set_columns_other_row. Qed.

Lemma clear_line_cleared (ns : list Cell) (A : Matrix T) (i j : nat) :
  In j (cleared_columns P ns) -> SharpEdge.clear_line P ns i A i j = of_Z 0.
Proof. intros H. rewrite clear_line_columns. now apply set_columns_in. Qed.

Lemma clear_line_kept (ns : list Cell) (A : Matrix T) (i j : nat) :
  ~ In j (cleared_columns P ns) -> SharpEdge.clear_line P ns i A i j = A i j.
Proof. intros H. rewrite clear_line_columns. now apply set_columns_out. Qed.

(** The interpolation loop writes into row [i] alone. *)
Lemma add_stencil_other_row (dofs2 : list nat) (xi : Point T) (k i : nat)
  (sum_line : T) (A : Matrix T) (i' j' : nat) :
  i' <> i -> SharpEdge.add_stencil P dofs2 xi k i sum_line A i' j' = A i' j'.
Proof.
  intros H. unfold SharpEdge.add_stencil.
  generalize (stride (dofs_per_cell P) k). intros ns. revert A.
  induction ns as [|n ns IH]; intros A; simpl; [reflexivity|].
  rewrite IH. now apply madd_other_row.
Qed.

(** The dofs of the cell found by [locate] are among the cleared columns. *)
Lemma locate_neighbor (pt : Point T) (cell : Cell) (l : nat) (cell_2 : Cell)
  (xi : Point T) :
  SharpEdge.locate P pt cell l = Some (cell_2, xi) ->
  In cell_2 (SharpEdge.active_neighbors_of P cell l) /\
  transform_real_to_unit_cell P cell_2 pt = Some xi.
Proof.
  unfold SharpEdge.locate, bind.
  destruct (nth_error _ _) as [c|] eqn:Hn; [|discriminate].
  destruct (transform_real_to_unit_cell P c pt) as [q|] eqn:Ht; [|discriminate].
  intros [= <- <-]. split; [|assumption]. eapply nth_error_In; eassumption.
Qed.

Lemma stencil_column_cleared (ns : list Cell) (cell_2 : Cell) (k n : nat) :
  In cell_2 ns -> In n (stride (dofs_per_cell P) k) ->
  In (nth n (get_dof_indices P cell_2) 0) (cleared_columns P ns).
Proof.
  intros Hc Hn. unfold cleared_columns. apply in_flat_map. exists cell_2.
  split; [assumption|]. apply in_map_iff. exists n. split; [reflexivity|].
  apply in_seq. apply stride_lt in Hn. lia.
Qed.

End ClearLine.

(** ** The rewritten row in exact arithmetic *)

Section ExactRow.
Context {Cell : Type}.
Variable P : Problem R Cell.
Local Open Scope R_scope.

(** Dividing by [1 / a] multiplies by [a]; for [a = 0] both sides are
    0, as they are for a double ([x / inf]). *)
Lemma div_inv_scale (x a : R) : x / (1 / a) = a * x.
Proof.
  destruct (Req_dec a 0) as [->|Ha].
  - unfold Rdiv. rewrite Rinv_0, Rmult_0_r, Rinv_0. ring.
  - field. assumption.
Qed.

Lemma stencil_weight_acc (dofs2 : list nat) (xi : Point R) (m : nat)
  (ns : list nat) (acc : R) :
  fold_left
    (fun a n => if Nat.eqb (nth n dofs2 0%nat) m then dadd a (shape_value P n xi) else a)
    ns acc =
  acc +
  fold_left
    (fun a n => if Nat.eqb (nth n dofs2 0%nat) m then dadd a (shape_value P n xi) else a)
    ns 0.
Proof.
  revert acc. induction ns as [|n ns IH]; intros acc; simpl.
  - ring.
  - destruct (Nat.eqb (nth n dofs2 0%nat) m).
    + rewrite (IH (acc + _)), (IH (0 + _)). ring.
    + apply IH.
Qed.

(** The interpolation loop adds [sum_line] times the weight of every
    column onto row [i]. *)
Lemma add_stencil_entry (dofs2 : list nat) (xi : Point R) (k i : nat)
  (sum_line : R) (A : Matrix R) (m : nat) :
  SharpEdge.add_stencil P dofs2 xi k i sum_line A i m =
  A i m + sum_line * stencil_weight P dofs2 xi k m.
Proof.
  unfold SharpEdge.add_stencil, stencil_weight.
  generalize (stride (dofs_per_cell P) k). intros ns. revert A.
  induction ns as [|n ns IH]; intros A; simpl.
  - ring.
  - rewrite IH. unfold madd. rewrite Nat.eqb_refl. simpl.
    rewrite (Nat.eqb_sym m).
    destruct (Nat.eqb (nth n dofs2 0%nat) m).
    + rewrite (stencil_weight_acc dofs2 xi m ns (0 + _)).
      rewrite div_inv_scale. exact_arith. ring.
    + reflexivity.
Qed.

(** What [rewrite_row] returns once the cell of the second point is
    located. *)
Lemma rewrite_row_located (c : circle) (initial_step : bool) (cell : Cell)
  (k l : nat) (S0 : System R) (cell_2 : Cell) (xi : Point R) :
  let i := nth l (get_dof_indices P cell) 0%nat in
  let sp := support_points P i in
  let alpha := system_matrix S0 i i in
  let cleared :=
    SharpEdge.clear_line P (SharpEdge.active_neighbors_of P cell l) i
      (system_matrix S0) in
  let stencil :=
    SharpEdge.add_stencil P (get_dof_indices P cell_2) xi k i alpha
      (mset cleared i i (-2 / (1 / alpha))) in
  SharpEdge.locate P (SharpEdge.second_point_of P c sp) cell l = Some (cell_2, xi) ->
  exists S1,
    SharpEdge.rewrite_row P c initial_step cell k l S0 = Some S1 /\
    system_matrix S1 =
      match c with
      | Small =>
          if dneb (norm (SharpEdge.vect_dist P sp)) 0
          then stencil else mset cleared i i alpha
      | Large => stencil
      end /\
    forall i',
      system_rhs S1 i' =
      if Nat.eqb i' i then
        match c with
        | Small =>
            if (couette P && initial_step)%bool
            then SharpEdge.boundary_condition k sp / (1 / alpha)
            else 0
        | Large => 0
        end
      else system_rhs S0 i'.
Proof.
  intros i sp alpha cleared stencil Hloc.
  destruct c; simpl in Hloc |- *.
  - unfold SharpEdge.override_row. fold i. fold sp. rewrite Hloc. simpl.
    eexists. split; [reflexivity|]. split; [reflexivity|].
    intros i'. simpl. unfold vset.
    destruct (couette P), initial_step; simpl; destruct (Nat.eqb i' i); reflexivity.
  - unfold SharpEdge.override_row_large. fold i. fold sp. rewrite Hloc. simpl.
    eexists. split; [reflexivity|]. split; [reflexivity|].
    intros i'. reflexivity.
Qed.

(** The entries of the stencil on row [i]. *)
Lemma stencil_diag (ns : list Cell) (k i : nat) (A : Matrix R)
  (dofs2 : list nat) (xi : Point R) (alpha : R) :
  SharpEdge.add_stencil P dofs2 xi k i alpha
    (mset (SharpEdge.clear_line P ns i A) i i (-2 / (1 / alpha))) i i =
  -2 * alpha + alpha * stencil_weight P dofs2 xi k i.
Proof.
  rewrite add_stencil_entry, mset_eq. f_equal.
  replace (-2 / (1 / alpha)) with ((-2) / (1 / alpha)) by (unfold Rdiv; ring).
  rewrite div_inv_scale. ring.
Qed.

Lemma stencil_off (ns : list Cell) (k i : nat) (A : Matrix R)
  (dofs2 : list nat) (xi : Point R) (alpha : R) (m : nat) :
  In m (cleared_columns P ns) -> m <> i ->
  SharpEdge.add_stencil P dofs2 xi k i alpha
    (mset (SharpEdge.clear_line P ns i A) i i (-2 / (1 / alpha))) i m =
  alpha * stencil_weight P dofs2 xi k m.
Proof.
  intros Hm Hmi. rewrite add_stencil_entry, mset_other_col by assumption.
  rewrite (@clear_line_cleared R exact Cell P) by assumption. exact_arith. ring.
Qed.

End ExactRow.

(** ** The one-cell strip in exact arithmetic *)

Section StripFacts.
Local Open Scope R_scope.

Lemma norm_on_axis (a : R) : 0 <= a -> norm (a, 0) = a.
Proof.
  intros Ha. unfold norm. exact_arith. simpl.
  replace (a * a + 0 * 0) with (a * a) by ring. now apply sqrt_square.
Qed.

Lemma strip_corner : (Strip.corner : Point R) = (12 / 10, 0).
Proof. reflexivity. Qed.

Lemma strip_center : (SharpEdge.center_immersed : Point R) = (2 / 10, 0).
Proof. reflexivity. Qed.

Lemma strip_relative :
  psub (Strip.corner : Point R) SharpEdge.center_immersed = (1, 0).
Proof.
  rewrite strip_corner, strip_center. unfold psub. exact_arith. simpl.
  f_equal; lra.
Qed.

Lemma strip_vect_dist (rad : R) (cou : bool) :
  SharpEdge.vect_dist (Strip.problem rad cou) Strip.corner = (1 - rad, 0).
Proof.
  unfold SharpEdge.vect_dist. rewrite strip_relative.
  rewrite norm_on_axis by lra. unfold psub, pdiv, pscale. exact_arith. simpl.
  f_equal; field.
Qed.

Lemma strip_off_surface (rad : R) (cou : bool) :
  rad < 1 ->
  dneb (norm (SharpEdge.vect_dist (Strip.problem rad cou) Strip.corner)) 0 = true.
Proof.
  intros Hr. rewrite strip_vect_dist, norm_on_axis by lra.
  unfold dneb. exact_arith. unfold Reqb.
  destruct (Req_dec_T (1 - rad) 0); [lra|reflexivity].
Qed.


(** On the strip the search ends on the only cell, and the inverse
    mapping is a translation. *)
Lemma strip_locate (rad : R) (cou : bool) (pt : Point R) (l : nat) :
  SharpEdge.locate (Strip.problem rad cou) pt tt l =
  Some (tt, psub pt Strip.corner).
Proof.
  unfold SharpEdge.locate, SharpEdge.active_neighbors_of. simpl.
  match goal with |- context [if ?b then _ else _] => destruct b end; reflexivity.
Qed.

End StripFacts.

(** ** Telling two doubles apart *)

(** Two doubles of which one is below [bound] and the other is not are
    different. *)
Lemma separated (a b bound : float) :
  PrimFloat.ltb a bound = true -> PrimFloat.ltb b bound = false -> a <> b.
Proof. intros Ha Hb Heq. rewrite Heq, Hb in Ha. discriminate. Qed.

Lemma separated_some (a b bound : float) :
  PrimFloat.ltb a bound = true -> PrimFloat.ltb b bound = false ->
  Some a <> Some b.
Proof. intros Ha Hb [= Heq]. now apply (separated a b bound). Qed.

(** ** The rows that the override leaves alone *)

Lemma for_each_invariant {A St : Type} (body : A -> St -> option St)
  (Inv : St -> Prop) (l : list A) :
  (forall a s s', In a l -> body a s = Some s' -> Inv s -> Inv s') ->
  forall s s', for_each body l s = Some s' -> Inv s -> Inv s'.
Proof.
  induction l as [|a l IH]; intros Hbody s s'; simpl.
  - intros [= <-]. auto.
  - destruct (body a s) as [s1|] eqn:Hb; simpl; [|discriminate].
    intros Hrun Hs.
    apply (IH (fun a' s0 s0' Hin => Hbody a' s0 s0' (or_intror Hin)) s1 s' Hrun).
    apply (Hbody a s s1); [now left|assumption|assumption].
Qed.

(** A property that every round keeps and that one round of the list
    brings about holds after the loop. *)
Lemma for_each_establish {A St : Type} (body : A -> St -> option St)
  (Q : St -> Prop) (l : list A) (a0 : A) :
  (forall a s s', In a l -> body a s = Some s' -> Q s -> Q s') ->
  In a0 l -> (forall s s', body a0 s = Some s' -> Q s') ->
  forall s s', for_each body l s = Some s' -> Q s'.
Proof.
  intros Hkeep Hin Hset. induction l as [|a l IH]; [contradiction|].
  intros s s'. simpl.
  destruct (body a s) as [s1|] eqn:Hb; simpl; [|discriminate].
  intros Hrun. destruct Hin as [->|Hin'].
  - apply (for_each_invariant body Q l
             (fun a' s0 s0' Hin => Hkeep a' s0 s0' (or_intror Hin)) s1 s' Hrun).
    now apply (Hset s).
  - apply (IH (fun a' s0 s0' Hin => Hkeep a' s0 s0' (or_intror Hin)) Hin' s1 s' Hrun).
Qed.

Section Frame.
Context {T : Type} {DT : Double T} {Cell : Type}.
Variable P : Problem T Cell.

Lemma same_row_refl (i : nat) (S : System T) : same_row i S S.
Proof. split; reflexivity. Qed.

Lemma same_row_trans (i : nat) (S S' S'' : System T) :
  same_row i S S' -> same_row i S' S'' -> same_row i S S''.
Proof.
  intros [HA Hr] [HA' Hr']. split.
  - intros j. now rewrite HA', HA.
  - now rewrite Hr', Hr.
Qed.

(** A rewrite changes the row of its dof only. *)
Lemma rewrite_row_frame (c : circle) (initial_step : bool) (cell : Cell)
  (k l : nat) (S S' : System T) (i : nat) :
  SharpEdge.rewrite_row P c initial_step cell k l S = Some S' ->
  i <> nth l (get_dof_indices P cell) 0 ->
  same_row i S S'.
Proof.
  intros Hrun Hi. destruct c; simpl in Hrun.
  - unfold SharpEdge.override_row, bind in Hrun.
    destruct (SharpEdge.locate _ _ _ _) as [[cell_2 xi]|]; [|discriminate].
    injection Hrun as <-. split; simpl.
    + intros j.
      destruct (dneb _ _).
      * rewrite add_stencil_other_row, mset_other_row by assumption.
        now apply clear_line_other_row.
      * rewrite mset_other_row by assumption. now apply clear_line_other_row.
    + destruct (couette P && initial_step)%bool, (negb (couette P));
        now rewrite ?vset_other by assumption.
  - unfold SharpEdge.override_row_large, bind in Hrun.
    destruct (SharpEdge.locate _ _ _ _) as [[cell_2 xi]|]; [|discriminate].
    injection Hrun as <-. split; simpl.
    + intros j. rewrite add_stencil_other_row, mset_other_row by assumption.
      now apply clear_line_other_row.
    + now rewrite vset_other.
Qed.

(** Outside the initial step of the Couette case a rewrite zeroes the
    right-hand side of its dof. *)
Lemma rewrite_row_rhs_zero (c : circle) (initial_step : bool) (cell : Cell)
  (k l : nat) (S S' : System T) :
  (couette P && initial_step)%bool = false ->
  SharpEdge.rewrite_row P c initial_step cell k l S = Some S' ->
  system_rhs S' (nth l (get_dof_indices P cell) 0) = of_Z 0.
Proof.
  intros Hcond Hrun. destruct c; simpl in Hrun.
  - unfold SharpEdge.override_row, bind in Hrun.
    destruct (SharpEdge.locate _ _ _ _) as [[cell_2 xi]|]; [|discriminate].
    injection Hrun as <-. simpl. rewrite Hcond.
    destruct (negb (couette P)); now rewrite !vset_eq.
  - unfold SharpEdge.override_row_large, bind in Hrun.
    destruct (SharpEdge.locate _ _ _ _) as [[cell_2 xi]|]; [|discriminate].
    injection Hrun as <-. simpl. apply vset_eq.
Qed.

(** The two loops over the velocity components and the dofs of a cell,
    for a property of the system that the rewrites of this cell keep. *)
Lemma component_loops_invariant (row : nat -> nat -> System T -> option (System T))
  (Inv : System T -> Prop) :
  (forall k l S S', k < 2 -> In l (stride (dofs_per_cell P) k) ->
                    row k l S = Some S' -> Inv S -> Inv S') ->
  forall S S', SharpEdge.component_loops P row S = Some S' -> Inv S -> Inv S'.
Proof.
  intros Hrow. unfold SharpEdge.component_loops.
  apply for_each_invariant. intros k S S' _.
  destruct (Nat.ltb_spec k 2) as [Hk|Hk].
  - apply for_each_invariant. intros l S1 S1' Hl. now apply Hrow.
  - intros [= <-]. auto.
Qed.

Lemma component_loops_establish (row : nat -> nat -> System T -> option (System T))
  (Q : System T -> Prop) (k0 l0 : nat) :
  (forall k l S S', k < 2 -> In l (stride (dofs_per_cell P) k) ->
                    row k l S = Some S' -> Q S -> Q S') ->
  k0 < 2 -> In l0 (stride (dofs_per_cell P) k0) ->
  (forall S S', row k0 l0 S = Some S' -> Q S') ->
  forall S S', SharpEdge.component_loops P row S = Some S' -> Q S'.
Proof.
  intros Hkeep Hk0 Hl0 Hset. unfold SharpEdge.component_loops.
  apply for_each_establish with (a0 := k0).
  - intros k S S' _.
    destruct (Nat.ltb_spec k 2) as [Hk|Hk].
    + apply for_each_invariant. intros l S1 S1' Hl. now apply Hkeep.
    + intros [= <-]. auto.
  - apply in_seq. lia.
  - intros S S'. destruct (Nat.ltb_spec k0 2) as [_|Hk]; [|lia].
    apply for_each_establish with (a0 := l0); [|assumption|assumption].
    intros l S1 S1' Hl. now apply Hkeep.
Qed.

Lemma velocity_dof_in (cell : Cell) (k l : nat) :
  k < 2 -> In l (stride (dofs_per_cell P) k) ->
  In (nth l (get_dof_indices P cell) 0) (velocity_dofs P cell).
Proof.
  intros Hk Hl. unfold velocity_dofs. apply in_flat_map. exists k. split.
  - apply in_seq. lia.
  - apply in_map_iff. now exists l.
Qed.

Lemma velocity_dof_inv (cell : Cell) (i : nat) :
  In i (velocity_dofs P cell) ->
  exists k l, k < 2 /\ In l (stride (dofs_per_cell P) k) /\
              i = nth l (get_dof_indices P cell) 0.
Proof.
  unfold velocity_dofs. intros Hi. apply in_flat_map in Hi.
  destruct Hi as (k & Hk & Hi). apply in_map_iff in Hi.
  destruct Hi as (l & <- & Hl). apply in_seq in Hk.
  exists k, l. repeat split; [lia|assumption].
Qed.

(** What [visit_cell] is, in terms of the passes. *)
Lemma visit_cell_passes (initial_step : bool) (cell : Cell) (S : System T) :
  SharpEdge.visit_cell P initial_step cell S =
  bind (if cut_by_small P cell
        then SharpEdge.component_loops P
               (SharpEdge.rewrite_row P Small initial_step cell) S
        else Some S)
       (fun S1 =>
          if cut_by_large P cell
          then SharpEdge.component_loops P
                 (SharpEdge.rewrite_row P Large initial_step cell) S1
          else Some S1).
Proof. reflexivity. Qed.

(** A property that the rewrites of a cell keep is kept by the visit
    of the cell. *)
Lemma visit_cell_invariant (initial_step : bool) (cell : Cell)
  (Inv : System T -> Prop) :
  (forall c k l S S',
      (match c with Small => cut_by_small P cell | Large => cut_by_large P cell end)
      = true ->
      k < 2 -> In l (stride (dofs_per_cell P) k) ->
      SharpEdge.rewrite_row P c initial_step cell k l S = Some S' ->
      Inv S -> Inv S') ->
  forall S S', SharpEdge.visit_cell P initial_step cell S = Some S' ->
               Inv S -> Inv S'.
Proof.
  intros Hrow S S'. rewrite visit_cell_passes. unfold bind.
  destruct (cut_by_small P cell) eqn:Hs.
  - destruct (SharpEdge.component_loops _ _ S) as [S1|] eqn:H1; [|discriminate].
    intros H2 HS.
    assert (HS1 : Inv S1).
    { revert H1 HS. apply component_loops_invariant.
      intros k l S0 S0' Hk Hl. now apply (Hrow Small). }
    destruct (cut_by_large P cell) eqn:Hl.
    + revert H2 HS1. apply component_loops_invariant.
      intros k l S0 S0' Hk Hl'. now apply (Hrow Large).
    + now injection H2 as <-.
  - intros H2 HS. destruct (cut_by_large P cell) eqn:Hl.
    + revert H2 HS. apply component_loops_invariant.
      intros k l S0 S0' Hk Hl'. now apply (Hrow Large).
    + now injection H2 as <-.
Qed.

Lemma rewritten_row_in (cell : Cell) (c : circle) (k l : nat) :
  In cell (active_cells P) ->
  (match c with Small => cut_by_small P cell | Large => cut_by_large P cell end)
  = true ->
  k < 2 -> In l (stride (dofs_per_cell P) k) ->
  In (nth l (get_dof_indices P cell) 0) (rewritten_rows P).
Proof.
  intros Hcell Hcut Hk Hl. unfold rewritten_rows. apply in_flat_map.
  exists cell. split; [assumption|].
  replace (cut_by_small P cell || cut_by_large P cell)%bool with true.
  - now apply velocity_dof_in with (k := k).
  - destruct c; rewrite Hcut; [reflexivity|now rewrite orb_true_r].
Qed.

(** The rows outside [rewritten_rows] come out of the override as they
    went in. *)
Lemma sharp_edge_V2_frame (initial_step : bool) (S S' : System T) (i : nat) :
  SharpEdge.sharp_edge_V2 P initial_step S = Some S' ->
  ~ In i (rewritten_rows P) -> same_row i S S'.
Proof.
  intros Hrun Hi. unfold SharpEdge.sharp_edge_V2 in Hrun.
  generalize (same_row_refl i S). revert Hrun.
  apply (for_each_invariant _ (fun S1 => same_row i S S1)).
  intros cell S1 S1' Hcell. apply visit_cell_invariant.
  intros c k l S2 S2' Hcut Hk Hl Hrow HS2.
  apply same_row_trans with (S' := S2); [assumption|].
  apply rewrite_row_frame with (1 := Hrow).
  intros ->. apply Hi. now apply rewritten_row_in with (c := c) (k := k).
Qed.

(** Outside the initial step of the Couette case the override leaves 0
    on the right-hand side of every row that it rewrites. *)
Lemma sharp_edge_V2_rhs_zero (initial_step : bool) (S S' : System T) (i : nat) :
  (couette P && initial_step)%bool = false ->
  SharpEdge.sharp_edge_V2 P initial_step S = Some S' ->
  In i (rewritten_rows P) -> system_rhs S' i = of_Z 0.
Proof.
  intros Hcond Hrun Hi. unfold rewritten_rows in Hi. apply in_flat_map in Hi.
  destruct Hi as (cell & Hcell & Hi).
  destruct (cut_by_small P cell || cut_by_large P cell)%bool eqn:Hcut;
    [|contradiction].
  apply velocity_dof_inv in Hi. destruct Hi as (k & l & Hk & Hl & ->).
  set (i := nth l (get_dof_indices P cell) 0).
  set (Q := fun S1 : System T => system_rhs S1 i = of_Z 0).
  (* every rewrite keeps a zero on row [i] *)
  assert (Hkeep : forall c cell' k' l' S1 S1',
             SharpEdge.rewrite_row P c initial_step cell' k' l' S1 = Some S1' ->
             Q S1 -> Q S1').
  { intros c cell' k' l' S1 S1' Hrow HQ. unfold Q in *.
    destruct (Nat.eq_dec i (nth l' (get_dof_indices P cell') 0)) as [Heq|Hne].
    - rewrite Heq. now apply rewrite_row_rhs_zero with (1 := Hcond) (2 := Hrow).
    - destruct (rewrite_row_frame c initial_step cell' k' l' S1 S1' i Hrow Hne)
        as [_ Hr]. now rewrite Hr. }
  unfold SharpEdge.sharp_edge_V2 in Hrun. revert Hrun.
  apply (for_each_establish _ Q) with (a0 := cell); [|assumption|].
  - intros cell' S1 S1' _. apply visit_cell_invariant.
    intros c k' l' S2 S2' _ _ _. apply Hkeep.
  - intros S1 S1'. rewrite visit_cell_passes. unfold bind.
    assert (Hset : forall c S2 S2',
               SharpEdge.component_loops P
                 (SharpEdge.rewrite_row P c initial_step cell) S2 = Some S2' ->
               Q S2').
    { intros c. apply component_loops_establish with (k0 := k) (l0 := l);
        [|assumption|assumption|].
      - intros k' l' S2 S2' _ _. apply Hkeep.
      - intros S2 S2' Hrow.
        now apply rewrite_row_rhs_zero with (1 := Hcond) (2 := Hrow). }
    destruct (cut_by_small P cell) eqn:Hs.
    + destruct (SharpEdge.component_loops _ _ S1) as [S2|] eqn:H1; [|discriminate].
      apply Hset in H1. destruct (cut_by_large P cell).
      * apply Hset.
      * now intros [= <-].
    + simpl in Hcut. rewrite Hcut. apply Hset.
Qed.

(** In gls_navier_stokes_sharp_edge.cc a second run of the override
    leaves the rows that it does not rewrite, and, outside the initial
    step of the Couette case, the whole right-hand side. *)
Lemma sharp_edge_twice_frame (initial_step : bool) (S0 S1 S2 : System T) :
  SharpEdge.sharp_edge_V2 P initial_step S0 = Some S1 ->
  SharpEdge.sharp_edge_V2 P initial_step S1 = Some S2 ->
  (forall i, ~ In i (rewritten_rows P) -> same_row i S1 S2) /\
  ((couette P && initial_step)%bool = false ->
   forall i, system_rhs S2 i = system_rhs S1 i).
Proof.
  intros H1 H2. split.
  - intros i Hi. now apply sharp_edge_V2_frame with (initial_step := initial_step).
  - intros Hcond i.
    destruct (in_dec Nat.eq_dec i (rewritten_rows P)) as [Hin|Hout].
    + rewrite (sharp_edge_V2_rhs_zero initial_step S1 S2 i Hcond H2 Hin).
      now rewrite (sharp_edge_V2_rhs_zero initial_step S0 S1 i Hcond H1 Hin).
    + now apply (sharp_edge_V2_frame initial_step S1 S2 i H2 Hout).
Qed.

End Frame.

(** ** The override of directSteadyNS.cpp *)

(** Two runs of the same loop, for a relation between their states. *)
Lemma for_each_related {A St : Type} (body : A -> St -> option St)
  (R : St -> St -> Prop) (l : list A) :
  (forall a s1 s2 s1' s2', In a l -> body a s1 = Some s1' ->
                           body a s2 = Some s2' -> R s1 s2 -> R s1' s2') ->
  forall s1 s2 s1' s2',
    for_each body l s1 = Some s1' -> for_each body l s2 = Some s2' ->
    R s1 s2 -> R s1' s2'.
Proof.
  induction l as [|a l IH]; intros Hbody s1 s2 s1' s2'; simpl.
  - intros [= <-] [= <-]. auto.
  - destruct (body a s1) as [t1|] eqn:H1; simpl; [|discriminate].
    destruct (body a s2) as [t2|] eqn:H2; simpl; [|discriminate].
    intros Hr1 Hr2 HR.
    apply (IH (fun a' u1 u2 u1' u2' Hin => Hbody a' u1 u2 u1' u2' (or_intror Hin))
              t1 t2 s1' s2' Hr1 Hr2).
    apply (Hbody a s1 s2 t1 t2); auto. now left.
Qed.

Lemma for_each_related_establish {A St : Type} (body : A -> St -> option St)
  (R : St -> St -> Prop) (l : list A) (a0 : A) :
  (forall a s1 s2 s1' s2', In a l -> body a s1 = Some s1' ->
                           body a s2 = Some s2' -> R s1 s2 -> R s1' s2') ->
  In a0 l ->
  (forall s1 s2 s1' s2', body a0 s1 = Some s1' -> body a0 s2 = Some s2' ->
                         R s1' s2') ->
  forall s1 s2 s1' s2',
    for_each body l s1 = Some s1' -> for_each body l s2 = Some s2' -> R s1' s2'.
Proof.
  intros Hkeep Hin Hset. induction l as [|a l IH]; [contradiction|].
  intros s1 s2 s1' s2'. simpl.
  destruct (body a s1) as [t1|] eqn:H1; simpl; [|discriminate].
  destruct (body a s2) as [t2|] eqn:H2; simpl; [|discriminate].
  intros Hr1 Hr2. destruct Hin as [->|Hin'].
  - apply (for_each_related body R l
             (fun a' u1 u2 u1' u2' Hin => Hkeep a' u1 u2 u1' u2' (or_intror Hin))
             t1 t2 s1' s2' Hr1 Hr2).
    now apply (Hset s1 s2).
  - apply (IH (fun a' u1 u2 u1' u2' Hin => Hkeep a' u1 u2 u1' u2' (or_intror Hin))
              Hin' t1 t2 s1' s2' Hr1 Hr2).
Qed.

Section DirectRows.
Context {T : Type} {DT : Double T} {Cell : Type}.
Variable P : Problem T Cell.

Lemma direct_clear_row_other (i i' j : nat) (A : Matrix T) :
  i' <> i -> Direct.clear_row P i A i' j = A i' j.
Proof. intros H. now apply set_columns_other_row. Qed.

Lemma direct_clear_row_in (i j : nat) (A : Matrix T) :
  j < n_dofs P -> Direct.clear_row P i A i j = of_Z 0.
Proof. intros H. apply set_columns_in. apply in_seq. lia. Qed.

Lemma direct_add_stencil_other_row (dofs2 : list nat) (xi : Point T) (k i : nat)
  (d : T) (A : Matrix T) (i' j' : nat) :
  i' <> i -> Direct.add_stencil P dofs2 xi k i d A i' j' = A i' j'.
Proof.
  intros H. unfold Direct.add_stencil.
  generalize (stride (dofs_per_cell P) k). intros ns. revert A.
  induction ns as [|n ns IH]; intros A; simpl; [reflexivity|].
  rewrite IH. now apply madd_other_row.
Qed.

(** An entry after the interpolation loop depends on the matrix
    through the same entry before the loop only. *)
Lemma direct_add_stencil_congr (dofs2 : list nat) (xi : Point T) (k i : nat)
  (d : T) (A A' : Matrix T) (i' j' : nat) :
  A i' j' = A' i' j' ->
  Direct.add_stencil P dofs2 xi k i d A i' j' =
  Direct.add_stencil P dofs2 xi k i d A' i' j'.
Proof.
  unfold Direct.add_stencil.
  generalize (stride (dofs_per_cell P) k). intros ns. revert A A'.
  induction ns as [|n ns IH]; intros A A' H; simpl; [assumption|].
  apply IH. unfold madd. now rewrite H.
Qed.

Lemma direct_row_frame (small : bool) (cell : Cell) (k l : nat)
  (S S' : System T) (i : nat) :
  Direct.override_row P small cell k l S = Some S' ->
  i <> nth l (get_dof_indices P cell) 0 ->
  same_row i S S'.
Proof.
  intros Hrun Hi. unfold Direct.override_row, bind in Hrun.
  destruct (find_active_cell_around_point P _) as [cell_2|]; [|discriminate].
  destruct (transform_real_to_unit_cell P cell_2 _) as [xi|]; [|discriminate].
  injection Hrun as <-. split; simpl.
  - intros j. rewrite direct_add_stencil_other_row, mset_other_row by assumption.
    now apply direct_clear_row_other.
  - now rewrite vset_other.
Qed.

(** The row that a rewrite leaves does not depend on the system that
    it finds. *)
Lemma direct_row_determined (small : bool) (cell : Cell) (k l : nat)
  (S S' S1 S1' : System T) :
  Direct.override_row P small cell k l S = Some S1 ->
  Direct.override_row P small cell k l S' = Some S1' ->
  agree_row P (nth l (get_dof_indices P cell) 0) S1 S1'.
Proof.
  unfold Direct.override_row, bind.
  destruct (find_active_cell_around_point P _) as [cell_2|]; [|discriminate].
  destruct (transform_real_to_unit_cell P cell_2 _) as [xi|]; [|discriminate].
  intros [= <-] [= <-]. split; simpl.
  - intros j Hj. apply direct_add_stencil_congr.
    unfold mset. destruct (_ && _)%bool; [reflexivity|].
    now rewrite !direct_clear_row_in.
  - now rewrite !vset_eq.
Qed.

Lemma agree_row_of_same (i : nat) (S1 S2 S1' S2' : System T) :
  same_row i S1 S1' -> same_row i S2 S2' ->
  agree_row P i S1 S2 -> agree_row P i S1' S2'.
Proof.
  intros [HA1 Hr1] [HA2 Hr2] [HA Hr]. split.
  - intros j Hj. now rewrite HA1, HA2, HA.
  - now rewrite Hr1, Hr2.
Qed.

(** A rewrite keeps two systems in agreement on row [i]. *)
Lemma direct_row_keeps (small : bool) (cell : Cell) (k l i : nat)
  (S1 S2 S1' S2' : System T) :
  Direct.override_row P small cell k l S1 = Some S1' ->
  Direct.override_row P small cell k l S2 = Some S2' ->
  agree_row P i S1 S2 -> agree_row P i S1' S2'.
Proof.
  intros H1 H2 Hagree.
  destruct (Nat.eq_dec i (nth l (get_dof_indices P cell) 0)) as [->|Hne].
  - now apply direct_row_determined with (1 := H1) (2 := H2).
  - apply agree_row_of_same with (S1 := S1) (S2 := S2); [| |assumption].
    + now apply direct_row_frame with (1 := H1).
    + now apply direct_row_frame with (1 := H2).
Qed.

Lemma direct_loops_frame (small : bool) (cell : Cell) (i : nat) (S S' : System T) :
  ~ In i (velocity_dofs P cell) ->
  Direct.component_loops P (Direct.override_row P small cell) S = Some S' ->
  same_row i S S'.
Proof.
  intros Hi Hrun. generalize (same_row_refl i S). revert Hrun.
  unfold Direct.component_loops.
  apply (for_each_invariant _ (fun S1 => same_row i S S1)).
  intros k S1 S1' _. destruct (Nat.ltb_spec k 2) as [Hk|Hk].
  - apply for_each_invariant. intros l S2 S2' Hl Hrow HS2.
    apply same_row_trans with (S' := S2); [assumption|].
    apply direct_row_frame with (1 := Hrow).
    intros ->. apply Hi. now apply velocity_dof_in with (k := k).
  - intros [= <-]. auto.
Qed.

Lemma direct_loops_keep (small : bool) (cell : Cell) (i : nat)
  (S1 S2 S1' S2' : System T) :
  Direct.component_loops P (Direct.override_row P small cell) S1 = Some S1' ->
  Direct.component_loops P (Direct.override_row P small cell) S2 = Some S2' ->
  agree_row P i S1 S2 -> agree_row P i S1' S2'.
Proof.
  unfold Direct.component_loops. apply for_each_related.
  intros k T1 T2 T1' T2' _. destruct (Nat.ltb k 2).
  - apply for_each_related. intros l U1 U2 U1' U2' _. apply direct_row_keeps.
  - intros [= <-] [= <-]. auto.
Qed.

Lemma direct_loops_establish (small : bool) (cell : Cell) (k l : nat)
  (S1 S2 S1' S2' : System T) :
  k < 2 -> In l (stride (dofs_per_cell P) k) ->
  Direct.component_loops P (Direct.override_row P small cell) S1 = Some S1' ->
  Direct.component_loops P (Direct.override_row P small cell) S2 = Some S2' ->
  agree_row P (nth l (get_dof_indices P cell) 0) S1' S2'.
Proof.
  intros Hk Hl. unfold Direct.component_loops.
  apply for_each_related_establish with (a0 := k).
  - intros k' T1 T2 T1' T2' _. destruct (Nat.ltb k' 2).
    + apply for_each_related. intros l' U1 U2 U1' U2' _. apply direct_row_keeps.
    + intros [= <-] [= <-]. auto.
  - apply in_seq. lia.
  - intros T1 T2 T1' T2'. destruct (Nat.ltb_spec k 2) as [_|Hk']; [|lia].
    apply for_each_related_establish with (a0 := l); [|assumption|].
    + intros l' U1 U2 U1' U2' _. apply direct_row_keeps.
    + intros U1 U2 U1' U2'. apply direct_row_determined.
Qed.

Lemma direct_visit_cell_passes (cell : Cell) (S : System T) :
  Direct.visit_cell P cell S =
  bind (if direct_cut P true cell
        then Direct.component_loops P (Direct.override_row P true cell) S
        else Some S)
       (fun S1 =>
          if direct_cut P false cell
          then Direct.component_loops P (Direct.override_row P false cell) S1
          else Some S1).
Proof. reflexivity. Qed.

Lemma direct_visit_frame (cell : Cell) (i : nat) (S S' : System T) :
  (direct_cut P true cell || direct_cut P false cell = true ->
   ~ In i (velocity_dofs P cell))%bool ->
  Direct.visit_cell P cell S = Some S' -> same_row i S S'.
Proof.
  intros Hi. rewrite direct_visit_cell_passes. unfold bind.
  destruct (direct_cut P true cell) eqn:Hs.
  - destruct (Direct.component_loops _ _ S) as [S1|] eqn:H1; [|discriminate].
    apply direct_loops_frame with (i := i) in H1; [|now apply Hi].
    destruct (direct_cut P false cell) eqn:Hl.
    + intros H2. apply direct_loops_frame with (i := i) in H2; [|now apply Hi].
      now apply same_row_trans with (S' := S1).
    + now intros [= <-].
  - destruct (direct_cut P false cell) eqn:Hl.
    + intros H2. apply direct_loops_frame with (i := i) in H2; [assumption|].
      now apply Hi.
    + intros [= <-]. apply same_row_refl.
Qed.

Lemma direct_visit_keeps (cell : Cell) (i : nat) (S1 S2 S1' S2' : System T) :
  Direct.visit_cell P cell S1 = Some S1' ->
  Direct.visit_cell P cell S2 = Some S2' ->
  agree_row P i S1 S2 -> agree_row P i S1' S2'.
Proof.
  rewrite !direct_visit_cell_passes. unfold bind.
  destruct (direct_cut P true cell).
  - destruct (Direct.component_loops _ _ S1) as [T1|] eqn:H1; [|discriminate].
    destruct (Direct.component_loops _ _ S2) as [T2|] eqn:H2; [|discriminate].
    intros H1' H2' Hagree.
    pose proof (direct_loops_keep true cell i S1 S2 T1 T2 H1 H2 Hagree) as HT.
    destruct (direct_cut P false cell).
    + now apply direct_loops_keep with (1 := H1') (2 := H2').
    + injection H1' as <-. now injection H2' as <-.
  - destruct (direct_cut P false cell).
    + apply direct_loops_keep.
    + intros [= <-] [= <-]. auto.
Qed.

Lemma direct_visit_establish (cell : Cell) (k l : nat) (S1 S2 S1' S2' : System T) :
  (direct_cut P true cell || direct_cut P false cell)%bool = true ->
  k < 2 -> In l (stride (dofs_per_cell P) k) ->
  Direct.visit_cell P cell S1 = Some S1' ->
  Direct.visit_cell P cell S2 = Some S2' ->
  agree_row P (nth l (get_dof_indices P cell) 0) S1' S2'.
Proof.
  intros Hcut Hk Hl. rewrite !direct_visit_cell_passes. unfold bind.
  destruct (direct_cut P true cell).
  - destruct (Direct.component_loops _ _ S1) as [T1|] eqn:H1; [|discriminate].
    destruct (Direct.component_loops _ _ S2) as [T2|] eqn:H2; [|discriminate].
    intros H1' H2'.
    pose proof (direct_loops_establish true cell k l S1 S2 T1 T2 Hk Hl H1 H2) as HT.
    destruct (direct_cut P false cell).
    + now apply direct_loops_keep with (1 := H1') (2 := H2').
    + injection H1' as <-. now injection H2' as <-.
  - simpl in Hcut. rewrite Hcut. now apply direct_loops_establish with (k := k).
Qed.

(** The cell loop of the override: rows outside [direct_rewritten_rows]
    stay, and the others come out the same from any two systems. *)
Lemma direct_cells_frame (i : nat) (S S' : System T) :
  ~ In i (direct_rewritten_rows P) ->
  for_each (Direct.visit_cell P) (active_cells P) S = Some S' ->
  same_row i S S'.
Proof.
  intros Hi Hrun. generalize (same_row_refl i S). revert Hrun.
  apply (for_each_invariant _ (fun S1 => same_row i S S1)).
  intros cell S1 S1' Hcell Hvisit HS1.
  apply same_row_trans with (S' := S1); [assumption|].
  apply direct_visit_frame with (2 := Hvisit).
  intros Hcut Hin. apply Hi. unfold direct_rewritten_rows. apply in_flat_map.
  exists cell. split; [assumption|]. now rewrite Hcut.
Qed.

Lemma direct_cells_determined (i : nat) (S1 S2 S1' S2' : System T) :
  In i (direct_rewritten_rows P) ->
  for_each (Direct.visit_cell P) (active_cells P) S1 = Some S1' ->
  for_each (Direct.visit_cell P) (active_cells P) S2 = Some S2' ->
  agree_row P i S1' S2'.
Proof.
  intros Hi. unfold direct_rewritten_rows in Hi. apply in_flat_map in Hi.
  destruct Hi as (cell & Hcell & Hi).
  destruct (direct_cut P true cell || direct_cut P false cell)%bool eqn:Hcut;
    [|contradiction].
  apply velocity_dof_inv in Hi. destruct Hi as (k & l & Hk & Hl & ->).
  apply for_each_related_establish with (a0 := cell); [|assumption|].
  - intros cell' T1 T2 T1' T2' _. apply direct_visit_keeps.
  - intros T1 T2 T1' T2'. now apply direct_visit_establish with (k := k).
Qed.

Lemma pin_last_dof_other (i : nat) (S : System T) :
  i <> n_dofs P - 1 -> same_row i S (Direct.pin_last_dof P S).
Proof.
  intros Hi. split; simpl.
  - intros j. rewrite mset_other_row by assumption.
    now apply direct_clear_row_other.
  - now rewrite vset_other.
Qed.

Lemma pin_last_dof_determined (S S' : System T) :
  agree_row P (n_dofs P - 1) (Direct.pin_last_dof P S) (Direct.pin_last_dof P S').
Proof.
  split; simpl.
  - intros j Hj. unfold mset. destruct (_ && _)%bool; [reflexivity|].
    now rewrite !direct_clear_row_in.
  - now rewrite !vset_eq.
Qed.

(** Running the override of directSteadyNS.cpp on its own result
    returns that result. *)
Lemma direct_override_idempotent (S0 S1 S2 : System T) :
  Direct.sharp_edge_V2 P S0 = Some S1 ->
  Direct.sharp_edge_V2 P S1 = Some S2 ->
  forall i, agree_row P i S1 S2.
Proof.
  unfold Direct.sharp_edge_V2, bind.
  destruct (for_each _ _ S0) as [T1|] eqn:H1; [|discriminate].
  destruct (for_each _ _ S1) as [T2|] eqn:H2; [|discriminate].
  intros [= <-] [= <-] i.
  destruct (Nat.eq_dec i (n_dofs P - 1)) as [->|Hlast].
  - apply pin_last_dof_determined.
  - set (S1 := Direct.pin_last_dof P T1) in *.
    assert (Hloop : agree_row P i T1 T2).
    { destruct (in_dec Nat.eq_dec i (direct_rewritten_rows P)) as [Hin|Hout].
      - now apply direct_cells_determined with (2 := H1) (3 := H2).
      - pose proof (direct_cells_frame i S1 T2 Hout H2) as [HA Hr].
        pose proof (pin_last_dof_other i T1 Hlast) as [HA' Hr'].
        split.
        + intros j _. rewrite HA. apply HA'.
        + rewrite Hr. apply Hr'. }
    apply agree_row_of_same with (S1 := T1) (S2 := T2); [| |assumption];
      now apply pin_last_dof_other.
Qed.

End DirectRows.

(** ** The rewritten row of directSteadyNS.cpp *)

Section DirectExactRow.
Context {Cell : Type}.
Variable P : Problem R Cell.
Local Open Scope R_scope.

Lemma direct_add_stencil_entry (dofs2 : list nat) (xi : Point R) (k i : nat)
  (d : R) (A : Matrix R) (m : nat) :
  Direct.add_stencil P dofs2 xi k i d A i m =
  A i m + stencil_weight P dofs2 xi k m / (d * d).
Proof.
  unfold Direct.add_stencil, stencil_weight.
  generalize (stride (dofs_per_cell P) k). intros ns. revert A.
  induction ns as [|n ns IH]; intros A; simpl.
  - exact_arith. unfold Rdiv. ring.
  - rewrite IH. unfold madd. rewrite Nat.eqb_refl. simpl.
    rewrite (Nat.eqb_sym m).
    destruct (Nat.eqb (nth n dofs2 0%nat) m).
    + rewrite (stencil_weight_acc P dofs2 xi m ns (0 + _)).
      exact_arith. unfold Rdiv. ring.
    + reflexivity.
Qed.

(** In directSteadyNS.cpp the row of a dof is scaled by [1 / d^2] and
    not by its former diagonal entry, and the boundary value is written
    on every call. *)
Lemma direct_override_row_entries (small : bool) (cell : Cell) (k l : nat)
  (S0 : System R) (cell_2 : Cell) (xi : Point R) :
  let i := nth l (get_dof_indices P cell) 0%nat in
  let sp := support_points P i in
  let rad := if small then Direct.radius else Direct.radius_2 in
  let d := Direct.dist (Direct.vect_dist rad sp) in
  let weight := stencil_weight P (get_dof_indices P cell_2) xi k in
  find_active_cell_around_point P (Direct.second_point rad sp) = Some cell_2 ->
  transform_real_to_unit_cell P cell_2 (Direct.second_point rad sp) = Some xi ->
  (i < n_dofs P)%nat ->
  exists S1,
    Direct.override_row P small cell k l S0 = Some S1 /\
    system_matrix S1 i i = -2 / (d * d) + weight i / (d * d) /\
    (forall m, (m < n_dofs P)%nat -> m <> i ->
               system_matrix S1 i m = weight m / (d * d)) /\
    system_rhs S1 i =
      (if small then Direct.boundary_condition k sp / (d * d) else 0) /\
    (forall i', i' <> i -> system_rhs S1 i' = system_rhs S0 i').
Proof.
  intros i sp rad d weight Hfind Hmap Hi.
  unfold Direct.override_row. fold i. fold sp. fold rad.
  unfold Direct.second_point in Hfind, Hmap. rewrite Hfind. simpl.
  rewrite Hmap. simpl. eexists. split; [reflexivity|]. simpl. repeat split.
  - rewrite direct_add_stencil_entry, mset_eq. reflexivity.
  - intros m Hm Hmi. rewrite direct_add_stencil_entry.
    rewrite mset_other_col by assumption.
    rewrite (@direct_clear_row_in R exact Cell P) by assumption.
    exact (Rplus_0_l _).
  - rewrite vset_eq. reflexivity.
  - intros i' Hi'. now apply vset_other.
Qed.

End DirectExactRow.

(** In binary64, for a dof on the large circle, the distance is 0 and
    the diagonal entry that directSteadyNS.cpp writes is not finite. *)
Lemma direct_divides_by_zero_distance :
  Direct.dist (Direct.vect_dist Direct.radius_2
                 (support_points square_on_large_circle 0)) = 0%float /\
  matrix_entry (Direct.override_row square_on_large_circle false tt 0 0
                  diagonal_system) 0 0 = Some PrimFloat.nan.
Proof. split; vm_compute; reflexivity. Qed.

(** ** The stabilisation parameter *)

Section Stabilisation.
Local Open Scope R_scope.

(** In exact arithmetic [std::max] is [Rmax]. *)
Lemma std_max_Rmax (a b : R) : std_max a b = Rmax a b.
Proof.
  unfold std_max, Rmax. exact_arith. unfold Rltb.
  destruct (Rlt_dec a b), (Rle_dec a b); try reflexivity; lra.
Qed.

Lemma element_size_sqr (m : R) :
  0 <= m -> element_size m * element_size m = 4 * m / PI.
Proof.
  intros Hm. unfold element_size. exact_arith. apply sqrt_sqrt.
  pose proof PI_RGT_0. apply Rmult_le_pos; [lra|].
  left. now apply Rinv_0_lt_compat.
Qed.

Lemma element_size_3d_cube (m : R) :
  0 < m -> element_size_3d m ^ 3 = 6 * m / PI.
Proof.
  intros Hm. unfold element_size_3d.
  assert (Hx : 0 < 6 * m / PI).
  { pose proof PI_RGT_0. apply Rmult_lt_0_compat; [lra|].
    now apply Rinv_0_lt_compat. }
  rewrite <- Rpower_pow by apply exp_pos.
  rewrite Rpower_mult. replace (1 / 3 * INR 3) with 1 by (simpl; field).
  now apply Rpower_1.
Qed.

(** [GLS_residual_trg] floors the velocity norm at 1e-3 instead. *)
Lemma GLS_residual_trg_floor (nu h : R) :
  GLS_residual_trg_tau nu h 0 = tau nu h (1 / 10 ^ 3).
Proof.
  unfold GLS_residual_trg_tau, tau, u_mag. rewrite !std_max_Rmax.
  unfold decimal. exact_arith.
  replace (IZR (10 ^ Z.of_nat 3)) with 1000 by (simpl; lra).
  replace (IZR (10 ^ Z.of_nat 12)) with (10 ^ 12) by (simpl; lra).
  replace (10 ^ 3) with 1000 by lra.
  rewrite (Rmax_right 0) by lra. rewrite (Rmax_left (1 / 1000)); [reflexivity|].
  apply Rmult_le_compat_l; [lra|]. apply Rinv_le_contravar; lra.
Qed.

End Stabilisation.

(** ** The frame of [assemble_rhs] *)

Section AssembleFrame.
Context {T : Type} {DT : Double T} {Cell Constraints : Type}.
Variable P : Problem T Cell.
Variable F : Assembly T Cell Constraints.

Lemma fold_keeps_first {A B C : Type} (g : A * B -> C -> B) (l : list C)
  (a : A) (b : B) :
  fst (fold_left (fun ab c => (fst ab, g ab c)) l (a, b)) = a.
Proof.
  revert b. induction l as [|c l IH]; intros b; simpl; [reflexivity|apply IH].
Qed.

End AssembleFrame.

(** ** Termination of the Newton drivers *)

Lemma ends_with_bind {A B : Type} (Q : A -> Prop) (R : B -> Prop)
  (o : outcome A) (f : A -> outcome B) :
  ends_with Q o -> (forall a, Q a -> ends_with R (f a)) ->
  ends_with R (obind o f).
Proof. destruct o; simpl; intros H Hf; [now apply Hf|exact I|contradiction]. Qed.

Lemma ends_with_weaken {A : Type} (Q R : A -> Prop) (o : outcome A) :
  ends_with Q o -> (forall a, Q a -> R a) -> ends_with R o.
Proof. destruct o; simpl; intros H Hf; [now apply Hf|exact I|contradiction]. Qed.

Lemma ends_with_lift {A : Type} (o : option A) : ends_with (fun _ => True) (lift o).
Proof. destruct o; exact I. Qed.

Section NewtonTermination.
Context {T : Type} {DT : Double T} {Cell Constraints : Type}.
Variable P : Problem T Cell.
Variable F : Assembly T Cell Constraints.

Lemma sharp_edge_ends (b : bool) (St : Solver T) :
  ends_with (fun _ => True) (SharpEdgeNewton.sharp_edge P b St).
Proof.
  unfold SharpEdgeNewton.sharp_edge.
  eapply ends_with_bind; [apply ends_with_lift|]. intros; exact I.
Qed.

Lemma direct_sharp_edge_ends (St : Solver T) :
  ends_with (fun _ => True) (DirectNewton.sharp_edge P St).
Proof.
  unfold DirectNewton.sharp_edge.
  eapply ends_with_bind; [apply ends_with_lift|]. intros; exact I.
Qed.

Lemma line_search_body_ends (alpha : T) (St : Solver T) :
  ends_with (fun _ => True) (SharpEdgeNewton.line_search_body P F alpha St).
Proof.
  unfold SharpEdgeNewton.line_search_body.
  eapply ends_with_bind; [apply sharp_edge_ends|]. intros; exact I.
Qed.

(** The line search of gls_navier_stokes_sharp_edge.cc ends within the
    number of halvings after which [alpha > 1e-3] fails, and leaves the
    counter of the Newton steps alone. *)
Lemma sharp_edge_line_search_ends (n fuel : nat) (alpha : T) (N : Newton T) :
  dgtb (halve n alpha) (decimal 1 3) = false -> n <= fuel ->
  ends_with
    (fun N' => outer_iteration N' = outer_iteration N /\
               first_step N' = first_step N)
    (SharpEdgeNewton.line_search P F fuel alpha N).
Proof.
  revert fuel alpha N. induction n as [|n IH]; intros fuel alpha N Hstop Hfuel.
  - simpl in Hstop. destruct fuel; simpl; rewrite Hstop; simpl; auto.
  - destruct fuel as [|fuel]; [lia|]. simpl.
    destruct (dgtb alpha (decimal 1 3)); [|simpl; auto].
    eapply ends_with_bind; [apply line_search_body_ends|].
    intros St1 _. destruct (dltb _ _); simpl; [auto|].
    eapply ends_with_weaken; [apply IH; [exact Hstop|lia]|].
    simpl. auto.
Qed.

Lemma direct_line_search_ends (n fuel : nat) (alpha : T) (N : Newton T) :
  dgtb (halve n alpha) (decimal 1 3) = false -> n <= fuel ->
  ends_with
    (fun N' => outer_iteration N' = outer_iteration N /\
               first_step N' = first_step N)
    (DirectNewton.line_search P F fuel alpha N).
Proof.
  revert fuel alpha N. induction n as [|n IH]; intros fuel alpha N Hstop Hfuel.
  - simpl in Hstop. destruct fuel; simpl; rewrite Hstop; simpl; auto.
  - destruct fuel as [|fuel]; [lia|]. simpl.
    destruct (dgtb alpha (decimal 1 3)); [|simpl; auto].
    eapply ends_with_weaken; [apply IH; [exact Hstop|lia]|].
    simpl. auto.
Qed.

Hypothesis halving_stops : dgtb (halve 10 (of_Z 1)) (decimal 1 3) = false.

Lemma sharp_edge_newton_step_ends (N : Newton T) :
  ends_with (fun N' => outer_iteration N' = outer_iteration N)
    (SharpEdgeNewton.newton_step P F 10 N).
Proof.
  unfold SharpEdgeNewton.newton_step. destruct (first_step N).
  - unfold SharpEdgeNewton.initial_newton_step.
    eapply ends_with_bind; [apply sharp_edge_ends|]. intros St4 _.
    eapply ends_with_bind; [apply ends_with_lift|]. intros St5 _.
    reflexivity.
  - unfold SharpEdgeNewton.later_newton_step.
    eapply ends_with_bind; [apply sharp_edge_ends|]. intros St3 _.
    eapply ends_with_bind; [apply ends_with_lift|]. intros St4 _.
    eapply ends_with_weaken;
      [apply sharp_edge_line_search_ends with (n := 10);
       [exact halving_stops|lia]|].
    simpl. tauto.
Qed.

Lemma direct_newton_step_ends (N : Newton T) :
  ends_with (fun N' => outer_iteration N' = outer_iteration N)
    (DirectNewton.newton_step P F 10 N).
Proof.
  unfold DirectNewton.newton_step. destruct (first_step N).
  - unfold DirectNewton.initial_newton_step.
    eapply ends_with_bind; [apply direct_sharp_edge_ends|]. intros St4 _.
    eapply ends_with_bind; [apply ends_with_lift|]. intros St5 _.
    reflexivity.
  - unfold DirectNewton.later_newton_step.
    eapply ends_with_bind; [apply direct_sharp_edge_ends|]. intros St3 _.
    eapply ends_with_bind; [apply ends_with_lift|]. intros St4 _.
    eapply ends_with_bind;
      [apply direct_line_search_ends with (n := 10);
       [exact halving_stops|lia]|].
    simpl. tauto.
Qed.

(** With as much fuel as there are steps left under the cap, the loop
    over the Newton steps ends, no later than the cap, on a state in
    which its condition fails. *)
Lemma sharp_edge_newton_loop_ends (tolerance : T) (max_iteration fuel : nat)
  (N : Newton T) :
  max_iteration - outer_iteration N <= fuel ->
  outer_iteration N <= max_iteration ->
  ends_with
    (fun N' => outer_iteration N' <= max_iteration /\
               SharpEdgeNewton.continues tolerance max_iteration N' = false)
    (SharpEdgeNewton.newton_loop P F fuel 10 tolerance max_iteration N).
Proof.
  revert N. induction fuel as [|fuel IH]; intros N Hfuel Hcap; simpl.
  - destruct (SharpEdgeNewton.continues tolerance max_iteration N) eqn:Hc;
      simpl; [|auto].
    unfold SharpEdgeNewton.continues in Hc. apply andb_prop in Hc.
    destruct Hc as [_ Hc]. apply Nat.ltb_lt in Hc. lia.
  - destruct (SharpEdgeNewton.continues tolerance max_iteration N) eqn:Hc;
      simpl; [|auto].
    unfold SharpEdgeNewton.continues in Hc. apply andb_prop in Hc.
    destruct Hc as [_ Hc]. apply Nat.ltb_lt in Hc.
    eapply ends_with_bind; [apply sharp_edge_newton_step_ends|].
    intros N1 HN1. simpl in HN1. apply IH; simpl; lia.
Qed.

Lemma direct_newton_loop_ends (tolerance : T) (max_iteration fuel : nat)
  (N : Newton T) :
  max_iteration - outer_iteration N <= fuel ->
  outer_iteration N <= max_iteration ->
  ends_with
    (fun N' => outer_iteration N' <= max_iteration /\
               DirectNewton.continues tolerance max_iteration N' = false)
    (DirectNewton.newton_loop P F fuel 10 tolerance max_iteration N).
Proof.
  revert N. induction fuel as [|fuel IH]; intros N Hfuel Hcap; simpl.
  - destruct (DirectNewton.continues tolerance max_iteration N) eqn:Hc;
      simpl; [|auto].
    unfold DirectNewton.continues in Hc. apply andb_prop in Hc.
    destruct Hc as [_ Hc]. apply Nat.ltb_lt in Hc. lia.
  - destruct (DirectNewton.continues tolerance max_iteration N) eqn:Hc;
      simpl; [|auto].
    unfold DirectNewton.continues in Hc. apply andb_prop in Hc.
    destruct Hc as [_ Hc]. apply Nat.ltb_lt in Hc.
    eapply ends_with_bind; [apply direct_newton_step_ends|].
    intros N1 HN1. simpl in HN1. apply IH; simpl; lia.
Qed.

End NewtonTermination.

(** In exact arithmetic ten halvings of 1 are not above 1e-3. *)
Lemma halving_stops_exact : dgtb (halve 10 (1%R : R)) (decimal 1 3) = false.
Proof.
  unfold dgtb, halve, decimal. exact_arith. unfold Rltb.
  destruct (Rlt_dec _ _) as [H|H]; [|reflexivity]. simpl in H. lra.
Qed.

(** Neither are they in binary64. *)
Lemma halving_stops_binary64 :
  dgtb (halve 10 (of_Z 1 : float)) (decimal 1 3) = false.
Proof. vm_compute. reflexivity. Qed.


(** In binary64 both drivers end as well, on a state in which the
    condition of the loop fails. *)
Lemma newton_drivers_end_binary64 {Cell Constraints : Type}
  (P : Problem float Cell) (F : Assembly float Cell Constraints)
  (tolerance : float) (max_iteration : nat) (is_initial_step : bool)
  (St : Solver float) :
  ends_with
    (fun N => outer_iteration N <= max_iteration /\
              SharpEdgeNewton.continues tolerance max_iteration N = false)
    (SharpEdgeNewton.newton_iteration P F tolerance max_iteration is_initial_step St)
  /\
  ends_with
    (fun N => outer_iteration N <= max_iteration /\
              DirectNewton.continues tolerance max_iteration N = false)
    (DirectNewton.newton_iteration P F tolerance max_iteration is_initial_step St).
Proof.
  split.
  - apply sharp_edge_newton_loop_ends; [exact halving_stops_binary64| |]; simpl; lia.
  - apply direct_newton_loop_ends; [exact halving_stops_binary64| |]; simpl; lia.
Qed.

(** ** The line search of gls_navier_stokes_sharp_edge.cc *)

Section LineSearch.
Context {T : Type} {DT : Double T} {Cell Constraints : Type}.
Variable P : Problem T Cell.
Variable F : Assembly T Cell Constraints.

(** A comparison of the search that starts one round later is the next
    comparison of this one. *)
Lemma compared_shift (alpha last : T) (St St1 : Solver T) (i : nat) (v : bool) :
  SharpEdgeNewton.line_search_body P F alpha St = Done St1 ->
  SharpEdgeNewton.compared P F (dmul alpha (decimal 5 1)) (SharpEdgeNewton.residual P St1) St1 i v ->
  SharpEdgeNewton.compared P F alpha last St (S i) v.
Proof.
  intros Hb (Si & Si' & Hi & Hi' & Hv).
  exists Si, Si'. repeat split.
  - simpl. rewrite Hb. exact Hi.
  - change (SharpEdgeNewton.trials P F (S (S i)) alpha St)
      with (obind (SharpEdgeNewton.line_search_body P F alpha St) (fun St1 => SharpEdgeNewton.trials P F (S i) (dmul alpha (decimal 5 1)) St1)).
    rewrite Hb. exact Hi'.
  - destruct i as [|i]; [|exact Hv]. simpl in Hi. injection Hi as <-. exact Hv.
Qed.

Lemma line_search_searched (n : nat) :
  forall (fuel : nat) (alpha : T) (N : Newton T),
    (forall i, i < n -> dgtb (halve i alpha) (decimal 1 3) = true) ->
    dgtb (halve n alpha) (decimal 1 3) = false ->
    n <= fuel ->
    (n = 0 /\ SharpEdgeNewton.line_search P F fuel alpha N = Done N) \/
    searched P F n alpha (last_res N) (st N)
      (SharpEdgeNewton.line_search P F fuel alpha N).
Proof.
  induction n as [|n IH]; intros fuel alpha N Hgo Hstop Hfuel.
  - left. split; [reflexivity|]. simpl in Hstop.
    destruct fuel; simpl; now rewrite Hstop.
  - right. destruct fuel as [|fuel]; [lia|].
    assert (H0 : dgtb alpha (decimal 1 3) = true) by (apply (Hgo 0); lia).
    simpl. rewrite H0.
    pose proof (line_search_body_ends P F alpha (st N)) as Hbody.
    destruct (SharpEdgeNewton.line_search_body P F alpha (st N)) as [St1| |] eqn:Hb; simpl; [| |contradiction].
    + destruct (dltb (SharpEdgeNewton.residual P St1) (last_res N)) eqn:Hres.
      * (* the first trial passes *)
        exists 0. simpl. rewrite Hb. simpl.
        repeat split; [lia| |left].
        -- intros i Hi. lia.
        -- exists (st N), St1. simpl. rewrite Hb. now repeat split.
      * (* the first trial fails: the search goes on from it *)
        assert (Hfirst : SharpEdgeNewton.compared P F alpha (last_res N) (st N) 0 false).
        { exists (st N), St1. simpl. rewrite Hb. now repeat split. }
        specialize (IH fuel (dmul alpha (decimal 5 1))
                      {| first_step := first_step N;
                         outer_iteration := outer_iteration N;
                         current_res := SharpEdgeNewton.residual P St1;
                         last_res := SharpEdgeNewton.residual P St1;
                         st := St1 |}).
        destruct IH as [[Hn Hrun]|Hrun].
        -- intros i Hi. apply (Hgo (S i)). lia.
        -- exact Hstop.
        -- lia.
        -- rewrite Hrun. subst n. exists 0. simpl. rewrite Hb. simpl.
           repeat split; [lia| |right; split; [reflexivity|exact Hfirst]].
           intros i Hi. lia.
        -- simpl in Hrun.
           destruct (SharpEdgeNewton.line_search P F fuel _ _) as [N'| |];
             simpl in Hrun |- *; [| |contradiction].
           ++ destruct Hrun as (j & Hj & Htr & Hcur & Hrej & Hlast).
              exists (S j). split; [lia|]. split.
              { change (SharpEdgeNewton.trials P F (S (S j)) alpha (st N))
                  with (obind (SharpEdgeNewton.line_search_body P F alpha (st N))
                          (fun St1 => SharpEdgeNewton.trials P F (S j) (dmul alpha (decimal 5 1)) St1)).
                rewrite Hb. exact Htr. }
              split; [exact Hcur|]. split.
              { intros [|i] Hi; [exact Hfirst|].
                apply compared_shift with (St1 := St1); [exact Hb|].
                apply Hrej. lia. }
              destruct Hlast as [Hacc|[Hend Hrejl]].
              { left. now apply compared_shift with (St1 := St1). }
              { right. split; [lia|]. now apply compared_shift with (St1 := St1). }
           ++ destruct Hrun as (j & Hj & Htr & Hrej).
              exists (S j). split; [lia|]. split.
              { change (SharpEdgeNewton.trials P F (S (S j)) alpha (st N))
                  with (obind (SharpEdgeNewton.line_search_body P F alpha (st N))
                          (fun St1 => SharpEdgeNewton.trials P F (S j) (dmul alpha (decimal 5 1)) St1)).
                rewrite Hb. exact Htr. }
              intros [|i] Hi; [exact Hfirst|].
              apply compared_shift with (St1 := St1); [exact Hb|].
              apply Hrej. lia.
    + exists 0. split; [lia|]. split; [|intros i Hi; lia].
      simpl. now rewrite Hb.
Qed.

(** A trial moves [present_solution] to the trial point, which is made
    from the [present_solution] and the [newton_update] that it finds,
    and keeps the update. *)
Lemma line_search_body_effect (alpha : T) (St St' : Solver T) :
  SharpEdgeNewton.line_search_body P F alpha St = Done St' ->
  present_solution St' = trial_point F alpha St /\
  evaluation_point St' = trial_point F alpha St /\
  newton_update St' = newton_update St.
Proof.
  unfold SharpEdgeNewton.line_search_body, SharpEdgeNewton.sharp_edge.
  destruct (SharpEdge.sharp_edge_V2 _ _ _) as [S1|]; simpl; [|discriminate].
  intros [= <-]. simpl. repeat split.
Qed.

(** Every further trial is a trial from the state that the trials
    before it leave, with the step length halved once more. *)
Lemma trials_next (j : nat) (alpha : T) (St : Solver T) :
  SharpEdgeNewton.trials P F (S j) alpha St =
  obind (SharpEdgeNewton.trials P F j alpha St) (fun Sj => SharpEdgeNewton.line_search_body P F (halve j alpha) Sj).
Proof.
  revert alpha St. induction j as [|j IH]; intros alpha St.
  - simpl. destruct (SharpEdgeNewton.line_search_body P F alpha St); reflexivity.
  - change (SharpEdgeNewton.trials P F (S (S j)) alpha St)
      with (obind (SharpEdgeNewton.line_search_body P F alpha St)
              (fun St1 => SharpEdgeNewton.trials P F (S j) (dmul alpha (decimal 5 1)) St1)).
    change (SharpEdgeNewton.trials P F (S j) alpha St)
      with (obind (SharpEdgeNewton.line_search_body P F alpha St)
              (fun St1 => SharpEdgeNewton.trials P F j (dmul alpha (decimal 5 1)) St1)).
    destruct (SharpEdgeNewton.line_search_body P F alpha St) as [St1| |]; cbn [obind];
      [apply IH|reflexivity|reflexivity].
Qed.

End LineSearch.

Lemma some_get_system {T : Type} (o : option (System T)) (d : System T) :
  returns o = true -> o = Some (get_system o d).
Proof. destruct o; [reflexivity|discriminate]. Qed.

Section ExactLineSearch.
Local Open Scope R_scope.

(** In exact arithmetic [j] halvings divide by [2 ^ j]. *)
Lemma halve_exact (j : nat) (alpha : R) : halve j alpha = alpha / 2 ^ j.
Proof.
  revert alpha. induction j as [|j IH]; intros alpha; simpl.
  - field.
  - rewrite IH. unfold decimal. exact_arith. simpl. field.
    apply pow_nonzero. lra.
Qed.

(** The step lengths 1, 1/2, ..., 1/512 pass the test [alpha > 1e-3]. *)
Lemma halvings_above (i : nat) :
  (i < 10)%nat -> dgtb (halve i (1 : R)) (decimal 1 3) = true.
Proof.
  intros Hi. rewrite halve_exact. unfold dgtb, decimal. exact_arith. unfold Rltb.
  destruct (Rlt_dec _ _) as [H|H]; [reflexivity|]. exfalso. apply H. clear H.
  do 10 (destruct i as [|i]; [simpl; lra|]). lia.
Qed.

End ExactLineSearch.

(** ** The one-cell strip and the circles of directSteadyNS.cpp *)

Section DirectStripFacts.
Local Open Scope R_scope.

Lemma direct_strip_relative :
  psub (Strip.corner : Point R) Direct.center_immersed = (12 / 10, 0).
Proof.
  rewrite strip_corner. unfold psub, Direct.center_immersed. exact_arith. simpl.
  f_equal; lra.
Qed.

Lemma direct_strip_vect_dist (rad : R) :
  Direct.vect_dist rad Strip.corner = (12 / 10 - rad, 0).
Proof.
  unfold Direct.vect_dist. rewrite direct_strip_relative.
  rewrite norm_on_axis by lra. rewrite strip_corner.
  unfold psub, pdiv, pscale. exact_arith. simpl. f_equal; field.
Qed.

Lemma direct_strip_dist (rad : R) :
  rad <= 12 / 10 ->
  Direct.dist (Direct.vect_dist rad Strip.corner) = 12 / 10 - rad.
Proof.
  intros Hr. rewrite direct_strip_vect_dist. unfold Direct.dist. exact_arith.
  simpl.
  replace (0 * 0 + (12 / 10 - rad) * (12 / 10 - rad))
    with ((12 / 10 - rad) * (12 / 10 - rad)) by ring.
  apply sqrt_square. lra.
Qed.

Lemma direct_radius_exact : (Direct.radius : R) = 21 / 100.
Proof. unfold Direct.radius, decimal. exact_arith. simpl. lra. Qed.

Lemma direct_strip_off_surface :
  Direct.dist (Direct.vect_dist Direct.radius (Strip.corner : Point R)) <> 0.
Proof.
  rewrite direct_strip_dist; rewrite direct_radius_exact; lra.
Qed.

End DirectStripFacts.

(** ** The line search of directSteadyNS.cpp *)

Section DirectLineSearch.
Context {T : Type} {DT : Double T} {Cell Constraints : Type}.
Variable P : Problem T Cell.
Variable F : Assembly T Cell Constraints.

(** The loop makes every trial point from the same iterate and the same
    update, never stops before its test [alpha > 1e-3] fails, and so
    leaves the trial point and the residual of its last round. *)
Lemma direct_line_search_runs (n : nat) :
  forall (fuel : nat) (alpha : T) (N : Newton T),
    (forall i, i <= n -> dgtb (halve i alpha) (decimal 1 3) = true) ->
    dgtb (halve (S n) alpha) (decimal 1 3) = false ->
    S n <= fuel ->
    exists N',
      DirectNewton.line_search P F fuel alpha N = Done N' /\
      evaluation_point (st N') = trial_point F (halve n alpha) (st N) /\
      current_res N' = DirectNewton.residual P (st N') /\
      last_res N' = last_res N /\
      present_solution (st N') = present_solution (st N) /\
      newton_update (st N') = newton_update (st N).
Proof.
  induction n as [|n IH]; intros fuel alpha N Hgo Hstop Hfuel.
  - destruct fuel as [|fuel]; [lia|].
    assert (H0 : dgtb alpha (decimal 1 3) = true) by (apply (Hgo 0); lia).
    simpl in Hstop. simpl. rewrite H0.
    eexists. split.
    + destruct fuel; simpl; rewrite Hstop; reflexivity.
    + simpl. repeat split.
  - destruct fuel as [|fuel]; [lia|].
    assert (H0 : dgtb alpha (decimal 1 3) = true) by (apply (Hgo 0); lia).
    simpl. rewrite H0.
    match goal with
    | |- exists N', DirectNewton.line_search P F fuel ?a ?N1 = _ /\ _ =>
        destruct (IH fuel a N1) as (N' & Hrun & Hev & Hcur & Hlast & Hps & Hnu)
    end.
    + intros i Hi. apply (Hgo (S i)). lia.
    + exact Hstop.
    + lia.
    + exists N'. split; [exact Hrun|]. simpl in Hev, Hlast, Hps, Hnu.
      repeat split; assumption.
Qed.

End DirectLineSearch.

Section MoreExact.
Local Open Scope R_scope.

(** The stabilisation parameter of [GLS_residual_trg] in exact
    arithmetic. *)
Lemma GLS_residual_trg_tau_exact (nu h velocity_norm : R) :
  GLS_residual_trg_tau nu h velocity_norm =
  1 / R_sqrt.sqrt ((2 * Rmax velocity_norm (1 / 10 ^ 3) / h) ^ 2
                   + 9 * (4 * nu / h ^ 2) ^ 2).
Proof.
  unfold GLS_residual_trg_tau, pow2. rewrite std_max_Rmax.
  unfold decimal. exact_arith.
  replace (IZR (10 ^ Z.of_nat 3)) with (10 ^ 3) by (simpl; lra).
  replace (h ^ 2) with (h * h) by ring. do 2 f_equal. ring.
Qed.

(** Nine halvings of 1 are still above 1e-3. *)
Lemma halvings_above_le (i : nat) :
  (i <= 9)%nat -> dgtb (halve i (1 : R)) (decimal 1 3) = true.
Proof. intros Hi. apply halvings_above. lia. Qed.

End MoreExact.

(* ================================================================== *)
(** * Part III: the claims *)

(* ------------------------------------------------------------------ *)
(** ** C1: the stencil of a rewritten row *)

(** C1 (amended).  Let [alpha] be the diagonal entry of row [i] before
    the override and [W m] the sum of the shape functions of the cell of
    the second point that belong to dof [m] and component [k], taken at
    the reference coordinates of the second point.  In
    gls_navier_stokes_sharp_edge.cc a row rewritten by either pass (for
    the small circle when the distance is not 0) gets the diagonal entry
    [-2 alpha + alpha W i] and the entry [alpha W m] in the column of
    every other stencil dof [m]: the distance does not scale the row.
    In directSteadyNS.cpp the row gets [-2 / d^2 + W i / d^2] on the
    diagonal and [W m / d^2] in every other column [m]: the former
    diagonal entry does not scale the row. *)
Theorem override_row_stencil {Cell : Type} (P : Problem R Cell) (cell : Cell)
  (k l : nat) (S0 : System R) :
  let i := nth l (get_dof_indices P cell) 0%nat in
  let sp := support_points P i in
  let alpha := system_matrix S0 i i in
  ((forall (c : circle) (initial_step : bool) (cell_2 : Cell) (xi : Point R),
      let W := stencil_weight P (get_dof_indices P cell_2) xi k in
      SharpEdge.locate P (SharpEdge.second_point_of P c sp) cell l
        = Some (cell_2, xi) ->
      (c = Small -> dneb (norm (SharpEdge.vect_dist P sp)) 0 = true) ->
      exists S1,
        SharpEdge.rewrite_row P c initial_step cell k l S0 = Some S1 /\
        system_matrix S1 i i = -2 * alpha + alpha * W i /\
        forall n,
          In n (stride (dofs_per_cell P) k) ->
          let m := nth n (get_dof_indices P cell_2) 0%nat in
          m <> i -> system_matrix S1 i m = alpha * W m) /\
   (forall (small : bool) (cell_2 : Cell) (xi : Point R),
      let W := stencil_weight P (get_dof_indices P cell_2) xi k in
      let rad := if small then Direct.radius else Direct.radius_2 in
      let d := Direct.dist (Direct.vect_dist rad sp) in
      find_active_cell_around_point P (Direct.second_point rad sp)
        = Some cell_2 ->
      transform_real_to_unit_cell P cell_2 (Direct.second_point rad sp)
        = Some xi ->
      (i < n_dofs P)%nat ->
      d <> 0 ->
      exists S1,
        Direct.override_row P small cell k l S0 = Some S1 /\
        system_matrix S1 i i = -2 / (d * d) + W i / (d * d) /\
        forall m, (m < n_dofs P)%nat -> m <> i ->
                  system_matrix S1 i m = W m / (d * d)))%R.
Proof.
  intros i sp alpha. split.
  - intros c initial_step cell_2 xi W Hloc Hd.
    destruct (rewrite_row_located P c initial_step cell k l S0 cell_2 xi Hloc)
      as (S1 & Hrun & HA & _).
    fold i sp alpha in HA.
    assert (HA' : system_matrix S1 =
                  SharpEdge.add_stencil P (get_dof_indices P cell_2) xi k i alpha
                    (mset (SharpEdge.clear_line P
                             (SharpEdge.active_neighbors_of P cell l) i
                             (system_matrix S0)) i i (-2 / (1 / alpha))%R)).
    { rewrite HA. destruct c; [|reflexivity]. now rewrite Hd. }
    exists S1. split; [assumption|]. rewrite HA'. split.
    + rewrite stencil_diag. reflexivity.
    + intros n Hn m Hm. subst m. rewrite stencil_off; [reflexivity| |assumption].
      apply locate_neighbor in Hloc. destruct Hloc as [Hin _].
      now apply stencil_column_cleared with (k := k).
  - intros small cell_2 xi W rad d Hfind Hmap Hi _.
    destruct (direct_override_row_entries P small cell k l S0 cell_2 xi
                Hfind Hmap Hi) as (S1 & Hrun & Hdiag & Hoff & _).
    exists S1. split; [exact Hrun|]. split; [exact Hdiag|exact Hoff].
Qed.

(** The two rows on the one-cell strip, for the circle of radius 1/2 and
    4 on the diagonal. *)
Lemma override_row_stencil_witness :
  let P := strip_R (1 / 2) true in
  let sp := support_points P 0 in
  let xi := psub (SharpEdge.second_point P sp) Strip.corner in
  let d := Direct.dist (Direct.vect_dist Direct.radius sp) in
  let xi' := psub (Direct.second_point Direct.radius sp) Strip.corner in
  ((SharpEdge.locate P (SharpEdge.second_point_of P Small sp) tt 0
      = Some (tt, xi) /\
    dneb (norm (SharpEdge.vect_dist P sp)) 0 = true /\
    exists S1,
      SharpEdge.rewrite_row P Small true tt 0 0 diagonal_system_R = Some S1 /\
      system_matrix S1 0%nat 0%nat =
        -2 * 4 + 4 * stencil_weight P (get_dof_indices P tt) xi 0 0 /\
      forall n,
        In n (stride (dofs_per_cell P) 0) ->
        let m := nth n (get_dof_indices P tt) 0%nat in
        m <> 0%nat ->
        system_matrix S1 0%nat m
          = 4 * stencil_weight P (get_dof_indices P tt) xi 0 m) /\
   (d <> 0 /\
    exists S1,
      Direct.override_row P true tt 0 0 diagonal_system_R = Some S1 /\
      system_matrix S1 0%nat 0%nat =
        -2 / (d * d) + stencil_weight P (get_dof_indices P tt) xi' 0 0 / (d * d) /\
      forall m, (m < 12)%nat -> m <> 0%nat ->
        system_matrix S1 0%nat m
          = stencil_weight P (get_dof_indices P tt) xi' 0 m / (d * d)))%R.
Proof.
  intros P sp xi d xi'.
  destruct (override_row_stencil P tt 0 0 diagonal_system_R) as [Hcc Hcpp].
  assert (Hloc : SharpEdge.locate P (SharpEdge.second_point_of P Small sp) tt 0
                 = Some (tt, xi)) by apply strip_locate.
  assert (Hd : dneb (norm (SharpEdge.vect_dist P sp)) 0%R = true).
  { apply (strip_off_surface (1 / 2) true). lra. }
  assert (Hd' : d <> 0%R) by exact direct_strip_off_surface.
  split.
  - split; [exact Hloc|]. split; [exact Hd|].
    exact (Hcc Small true tt xi Hloc (fun _ => Hd)).
  - split; [exact Hd'|].
    refine (Hcpp true tt xi' eq_refl eq_refl _ Hd'). simpl. lia.
Defined.

(** C1, counterexample: on the 2 by 2 grid with the circle of [runMMS]
    and 4 on the diagonal, the row of dof 8, at distance 0.01 from the
    circle, does not get the diagonal entry [-2 alpha / d^2]. *)
Lemma stencil_not_divided_by_distance :
  ~ spec_row_stencil (coarse_grid false) true 3 0 0 diagonal_system.
Proof.
  intros H. unfold spec_row_stencil in H.
  assert (Hd : dneb (norm (SharpEdge.vect_dist (coarse_grid false)
                             (support_points (coarse_grid false)
                                (nth 0 (get_dof_indices (coarse_grid false) 3) 0%nat))))
                    (of_Z 0) = true) by (vm_compute; reflexivity).
  assert (E : exists c x,
             SharpEdge.locate (coarse_grid false)
               (SharpEdge.second_point (coarse_grid false)
                  (support_points (coarse_grid false)
                     (nth 0 (get_dof_indices (coarse_grid false) 3) 0%nat))) 3 0
             = Some (c, x)).
  { vm_compute. eexists. eexists. reflexivity. }
  destruct E as (c & x & E).
  destruct (H Hd c x E) as [Hdiag _]. clear H E.
  vm_compute in Hdiag. revert Hdiag.
  apply not_eq_sym, separated_some with (bound := (-100)%float); reflexivity.
Qed.

(* ------------------------------------------------------------------ *)
(** ** C2: the second stencil point *)

(** C2 (amended).  With [x_proj] the projection of the support point
    [x_i] on the circle, the second stencil point of the pass for the
    small circle of gls_navier_stokes_sharp_edge.cc and of both passes
    of directSteadyNS.cpp is [x_i + (x_i - x_proj)]: it lies on the
    side of [x_i] away from the surface, at the distance of [x_i] from
    it. *)
Theorem second_point_extrapolates {Cell : Type} (P : Problem R Cell) (sp : Point R) :
  SharpEdge.second_point P sp =
    padd sp (psub sp (spec_projection SharpEdge.center_immersed (radius P) sp)) /\
  forall rad : R,
    Direct.second_point rad sp =
    padd sp (psub sp (spec_projection Direct.center_immersed rad sp)).
Proof.
  destruct sp as [x y]. split; [|intros rad];
    unfold SharpEdge.second_point, SharpEdge.vect_dist, Direct.second_point,
      Direct.vect_dist, spec_projection, padd, psub, pdiv, pscale;
    simpl; exact_arith; unfold Rdiv; f_equal; ring.
Qed.

(** C2, counterexample: for the dof at (0, 0) of the 2 by 2 grid, which
    lies inside the circle of radius 0.21 about (0.2, 0), the second
    point has abscissa 0.01 and the reflection through the projection
    has abscissa -0.02. *)
Lemma second_point_is_not_the_mirror_point :
  ~ spec_second_point (coarse_grid false) (support_points (coarse_grid false) 8).
Proof.
  unfold spec_second_point. intros Heq. apply (f_equal fst) in Heq.
  vm_compute in Heq. revert Heq.
  apply not_eq_sym, separated with (bound := 0%float); reflexivity.
Qed.

(* ------------------------------------------------------------------ *)
(** ** C3: the right-hand side of a rewritten row *)

(** C3 (amended).  In gls_navier_stokes_sharp_edge.cc the pass for the
    small circle sets the right-hand side of a rewritten row to
    [alpha g_k], not divided by the square of the distance, when the
    member [couette] is set and the step is the initial one, and to 0
    otherwise; the pass for the large circle sets it to 0; the other
    entries of the right-hand side are kept.  In directSteadyNS.cpp,
    which has no initial step to tell, the pass for the small circle
    sets it to [g_k / d^2], without [alpha], on every call, and the
    pass for the large circle to 0. *)
Theorem override_row_rhs {Cell : Type} (P : Problem R Cell) (cell : Cell)
  (k l : nat) (S0 : System R) :
  let i := nth l (get_dof_indices P cell) 0%nat in
  let sp := support_points P i in
  let alpha := system_matrix S0 i i in
  ((forall (c : circle) (initial_step : bool) (cell_2 : Cell) (xi : Point R),
      SharpEdge.locate P (SharpEdge.second_point_of P c sp) cell l
        = Some (cell_2, xi) ->
      exists S1,
        SharpEdge.rewrite_row P c initial_step cell k l S0 = Some S1 /\
        system_rhs S1 i =
          match c with
          | Small =>
              if (couette P && initial_step)%bool
              then alpha * SharpEdge.boundary_condition k sp
              else 0
          | Large => 0
          end /\
        forall i', i' <> i -> system_rhs S1 i' = system_rhs S0 i') /\
   (forall (small : bool) (cell_2 : Cell) (xi : Point R),
      let rad := if small then Direct.radius else Direct.radius_2 in
      let d := Direct.dist (Direct.vect_dist rad sp) in
      find_active_cell_around_point P (Direct.second_point rad sp)
        = Some cell_2 ->
      transform_real_to_unit_cell P cell_2 (Direct.second_point rad sp)
        = Some xi ->
      (i < n_dofs P)%nat ->
      d <> 0 ->
      exists S1,
        Direct.override_row P small cell k l S0 = Some S1 /\
        system_rhs S1 i =
          (if small then Direct.boundary_condition k sp / (d * d) else 0) /\
        forall i', i' <> i -> system_rhs S1 i' = system_rhs S0 i'))%R.
Proof.
  intros i sp alpha. split.
  - intros c initial_step cell_2 xi Hloc.
    destruct (rewrite_row_located P c initial_step cell k l S0 cell_2 xi Hloc)
      as (S1 & Hrun & _ & Hr).
    fold i sp alpha in Hr.
    exists S1. split; [assumption|]. split.
    + rewrite Hr, Nat.eqb_refl. destruct c; [|reflexivity].
      destruct (couette P && initial_step)%bool; [|reflexivity].
      apply div_inv_scale.
    + intros i' Hi'. rewrite Hr. apply Nat.eqb_neq in Hi'. now rewrite Hi'.
  - intros small cell_2 xi rad d Hfind Hmap Hi _.
    destruct (direct_override_row_entries P small cell k l S0 cell_2 xi
                Hfind Hmap Hi) as (S1 & Hrun & _ & _ & Hr & Hother).
    exists S1. split; [exact Hrun|]. split; [exact Hr|exact Hother].
Qed.

(** The two right-hand sides on the one-cell strip, on the initial step
    with [couette] set. *)
Lemma override_row_rhs_witness :
  let P := strip_R (1 / 2) true in
  let sp := support_points P 1 in
  let xi := psub (SharpEdge.second_point P sp) Strip.corner in
  let d := Direct.dist (Direct.vect_dist Direct.radius sp) in
  let xi' := psub (Direct.second_point Direct.radius sp) Strip.corner in
  ((SharpEdge.locate P (SharpEdge.second_point_of P Small sp) tt 1
      = Some (tt, xi) /\
    exists S1,
      SharpEdge.rewrite_row P Small true tt 1 1 diagonal_system_R = Some S1 /\
      system_rhs S1 1%nat = 4 * SharpEdge.boundary_condition 1 sp /\
      forall i', i' <> 1%nat -> system_rhs S1 i' = system_rhs diagonal_system_R i') /\
   (d <> 0 /\
    exists S1,
      Direct.override_row P true tt 1 1 diagonal_system_R = Some S1 /\
      system_rhs S1 1%nat = Direct.boundary_condition 1 sp / (d * d) /\
      forall i', i' <> 1%nat -> system_rhs S1 i' = system_rhs diagonal_system_R i'))%R.
Proof.
  intros P sp xi d xi'.
  destruct (override_row_rhs P tt 1 1 diagonal_system_R) as [Hcc Hcpp].
  assert (Hloc : SharpEdge.locate P (SharpEdge.second_point_of P Small sp) tt 1
                 = Some (tt, xi)) by apply strip_locate.
  assert (Hd' : d <> 0%R) by exact direct_strip_off_surface.
  split.
  - split; [exact Hloc|]. exact (Hcc Small true tt xi Hloc).
  - split; [exact Hd'|].
    refine (Hcpp true tt xi' eq_refl eq_refl _ Hd'). simpl. lia.
Defined.

(** C3, counterexample: on the 2 by 2 grid with [couette] set, on the
    initial step, the right-hand side of the row of dof 9, at distance
    0.01 from the circle, is not [alpha g_k / d^2]. *)
Lemma rhs_not_divided_by_distance :
  ~ spec_row_rhs (coarse_grid true) true 3 1 1 diagonal_system.
Proof.
  unfold spec_row_rhs. vm_compute.
  apply separated_some with (bound := 100%float); reflexivity.
Qed.

(* ------------------------------------------------------------------ *)
(** ** C4: the override run twice *)

(** C4 (amended).  A second run of the override of directSteadyNS.cpp
    on the system that a first run returns leaves every row as it is,
    on the columns of the matrix and in the right-hand side.  A second
    run of the override of gls_navier_stokes_sharp_edge.cc leaves the
    rows outside the cells that a circle cuts as they are, and the whole
    right-hand side unless the step is the initial one with [couette]
    set; nothing is said of the matrix on the rows that it rewrites. *)
Theorem override_run_twice {T : Type} {DT : Double T} {Cell : Type}
  (P : Problem T Cell) (initial_step : bool) (S0 : System T) :
  (forall S1 S2,
      SharpEdge.sharp_edge_V2 P initial_step S0 = Some S1 ->
      SharpEdge.sharp_edge_V2 P initial_step S1 = Some S2 ->
      (forall i, ~ In i (rewritten_rows P) -> same_row i S1 S2) /\
      ((couette P && initial_step)%bool = false ->
       forall i, system_rhs S2 i = system_rhs S1 i)) /\
  (forall D1 D2,
      Direct.sharp_edge_V2 P S0 = Some D1 ->
      Direct.sharp_edge_V2 P D1 = Some D2 ->
      forall i, agree_row P i D1 D2).
Proof.
  split.
  - intros S1 S2. apply sharp_edge_twice_frame.
  - intros D1 D2. apply direct_override_idempotent.
Qed.

(** Two runs on the 2 by 2 grid for gls_navier_stokes_sharp_edge.cc,
    and on the 5 by 5 grid for directSteadyNS.cpp, in binary64. *)
Lemma override_run_twice_witness :
  let S1 := get_system (SharpEdge.sharp_edge_V2 (coarse_grid false) true
                          diagonal_system) diagonal_system in
  let S2 := get_system (SharpEdge.sharp_edge_V2 (coarse_grid false) true S1)
                       diagonal_system in
  let D1 := get_system (Direct.sharp_edge_V2 wide_grid diagonal_system)
                       diagonal_system in
  let D2 := get_system (Direct.sharp_edge_V2 wide_grid D1) diagonal_system in
  (SharpEdge.sharp_edge_V2 (coarse_grid false) true diagonal_system = Some S1 /\
   SharpEdge.sharp_edge_V2 (coarse_grid false) true S1 = Some S2 /\
   (forall i, ~ In i (rewritten_rows (coarse_grid false)) -> same_row i S1 S2) /\
   forall i, system_rhs S2 i = system_rhs S1 i) /\
  (Direct.sharp_edge_V2 wide_grid diagonal_system = Some D1 /\
   Direct.sharp_edge_V2 wide_grid D1 = Some D2 /\
   forall i, agree_row wide_grid i D1 D2).
Proof.
  intros S1 S2 D1 D2.
  assert (H1 : SharpEdge.sharp_edge_V2 (coarse_grid false) true diagonal_system
               = Some S1) by (apply some_get_system; vm_compute; reflexivity).
  assert (H2 : SharpEdge.sharp_edge_V2 (coarse_grid false) true S1 = Some S2)
    by (apply some_get_system; vm_compute; reflexivity).
  assert (H3 : Direct.sharp_edge_V2 wide_grid diagonal_system = Some D1)
    by (apply some_get_system; vm_compute; reflexivity).
  assert (H4 : Direct.sharp_edge_V2 wide_grid D1 = Some D2)
    by (apply some_get_system; vm_compute; reflexivity).
  split.
  - split; [exact H1|]. split; [exact H2|].
    destruct (override_run_twice (coarse_grid false) true diagonal_system) as [Hs _].
    destruct (Hs S1 S2 H1 H2) as [Hframe Hrhs].
    split; [exact Hframe|]. exact (Hrhs eq_refl).
  - split; [exact H3|]. split; [exact H4|].
    destruct (override_run_twice wide_grid true diagonal_system) as [_ Hd].
    exact (Hd D1 D2 H3 H4).
Defined.

(** C4, counterexample: on the 2 by 2 grid with 4 on the diagonal, the
    diagonal entry of row 8 after two runs of the override of
    gls_navier_stokes_sharp_edge.cc is not the one after one run. *)
Lemma override_not_idempotent :
  ~ spec_idempotent (coarse_grid false) true diagonal_system.
Proof.
  intros H. destruct (H 8%nat 8%nat) as [HA _]. clear H.
  vm_compute in HA. revert HA.
  apply not_eq_sym, separated_some with (bound := (4.25)%float); reflexivity.
Qed.

(* ------------------------------------------------------------------ *)
(** ** C5: the line search *)

(** C5 (amended).  The line search of gls_navier_stokes_sharp_edge.cc
    makes at most ten trials, with the step lengths 1, 1/2, ..., 1/512,
    all above 1e-3, the next one, 1/1024, being below it.  Each trial
    copies its trial point into [present_solution], so that the next
    trial starts from it and the trial points add up; the residual of
    the first trial is compared with [last_res], the residual of every
    other trial with the residual of the trial before it.  The search
    ends at the first trial that passes the test, or after the tenth,
    and leaves the state and the residual of its last trial.  The line
    search of directSteadyNS.cpp, whose test is commented out, makes all
    ten trials from the same [present_solution] and leaves the trial
    point of the step length 1/512 and its residual. *)
Theorem line_search_accumulates {Cell Constraints : Type}
  (P : Problem R Cell) (F : Assembly R Cell Constraints) (N : Newton R) :
  (searched P F 10 1 (last_res N) (st N) (SharpEdgeNewton.line_search P F 10 1 N) /\
   (forall j St,
       SharpEdgeNewton.trials P F (S j) 1 St =
       obind (SharpEdgeNewton.trials P F j 1 St)
             (fun Sj => SharpEdgeNewton.line_search_body P F (1 / 2 ^ j) Sj)) /\
   (forall alpha St,
       ends_with
         (fun St' =>
            present_solution St' = trial_point F alpha St /\
            evaluation_point St' = trial_point F alpha St /\
            newton_update St' = newton_update St)
         (SharpEdgeNewton.line_search_body P F alpha St)) /\
   (Forall (fun j => 1 / 1000 < 1 / 2 ^ j) (seq 0 10) /\ 1 / 2 ^ 10 < 1 / 1000) /\
   exists N',
     DirectNewton.line_search P F 10 1 N = Done N' /\
     evaluation_point (st N') = trial_point F (1 / 2 ^ 9) (st N) /\
     current_res N' = DirectNewton.residual P (st N') /\
     last_res N' = last_res N /\
     present_solution (st N') = present_solution (st N))%R.
Proof.
  split; [|split; [|split; [|split]]].
  - destruct (line_search_searched P F 10 10 1%R N) as [[H _]|H].
    + apply halvings_above.
    + apply halving_stops_exact.
    + lia.
    + discriminate.
    + exact H.
  - intros j St. rewrite trials_next. now rewrite halve_exact.
  - intros alpha St.
    pose proof (line_search_body_ends P F alpha St) as Hends.
    pose proof (line_search_body_effect P F alpha St) as Heff.
    destruct (SharpEdgeNewton.line_search_body P F alpha St) as [St'| |];
      simpl in *; [now apply Heff|exact I|contradiction].
  - split; [|simpl; lra].
    repeat (apply Forall_cons; [simpl; lra|]). apply Forall_nil.
  - destruct (direct_line_search_runs P F 9 10 1%R N)
      as (N' & Hrun & Hev & Hcur & Hlast & Hps & _).
    + apply halvings_above_le.
    + apply halving_stops_exact.
    + lia.
    + exists N'. rewrite halve_exact in Hev. now repeat split.
Qed.

(** C5, counterexample: from the iterate 0 with the update (1, 0, ...)
    and the last residual 1, when the residual is 5 below 1.25 and 3
    from there on, the search of the code leaves 1.5 in the first
    entry of [present_solution], and the search of the specification,
    which no trial passes, leaves 0.001. *)
Lemma line_search_not_as_specified :
  ~ SharpEdgeNewton.spec_line_search_agrees one_cell_grid step_assembly
      before_line_search.
Proof.
  intros H. specialize (H 0%nat). vm_compute in H. revert H.
  apply not_eq_sym, separated_some with (bound := 1%float); reflexivity.
Qed.

(* ------------------------------------------------------------------ *)
(** ** C6: the stabilisation parameter *)

(** C6 (amended).  In [assemble] the element size [h] is the diameter of
    the disc, or in three dimensions of the ball, whose measure is that
    of the cell, the norm of the velocity is floored at 1e-12, and
    [tau = 1 / sqrt ((2 |v| / h)^2 + 9 (4 nu / h^2)^2)] with the floored
    norm.  [GLS_residual_trg] computes the same expression from the
    size [h'] that the triangle gives, with the norm of the velocity
    floored at 1e-3. *)
Theorem tau_formula (nu cell_measure velocity_norm : R) :
  (0 < cell_measure ->
   let h := element_size cell_measure in
   let floored := Rmax velocity_norm (1 / 10 ^ 12) in
   PI * (h / 2) ^ 2 = cell_measure /\
   4 / 3 * PI * (element_size_3d cell_measure / 2) ^ 3 = cell_measure /\
   u_mag velocity_norm = floored /\
   tau nu h velocity_norm =
     1 / R_sqrt.sqrt ((2 * floored / h) ^ 2 + 9 * (4 * nu / h ^ 2) ^ 2) /\
   forall h',
     GLS_residual_trg_tau nu h' velocity_norm =
     1 / R_sqrt.sqrt ((2 * Rmax velocity_norm (1 / 10 ^ 3) / h') ^ 2
                      + 9 * (4 * nu / h' ^ 2) ^ 2))%R.
Proof.
  intros Hm h floored. pose proof PI_RGT_0 as Hpi.
  assert (Hu : u_mag velocity_norm = floored).
  { unfold u_mag. rewrite std_max_Rmax. unfold floored, decimal. exact_arith.
    do 2 f_equal. simpl. lra. }
  split; [|split; [|split; [|split]]].
  - replace (PI * (h / 2) ^ 2)%R with (PI * (h * h) / 4)%R by field.
    unfold h. rewrite element_size_sqr by lra. field. lra.
  - replace (4 / 3 * PI * (element_size_3d cell_measure / 2) ^ 3)%R
      with (PI * element_size_3d cell_measure ^ 3 / 6)%R by field.
    rewrite element_size_3d_cube by assumption. field. lra.
  - exact Hu.
  - unfold tau, pow2. rewrite Hu. exact_arith.
    replace (h ^ 2)%R with (h * h)%R by ring. do 2 f_equal. ring.
  - intros h'. apply GLS_residual_trg_tau_exact.
Qed.

(** A cell of measure 4 in a fluid at rest. *)
Lemma tau_formula_witness :
  (0 < 4 /\
   PI * (element_size 4 / 2) ^ 2 = 4 /\
   4 / 3 * PI * (element_size_3d 4 / 2) ^ 3 = 4 /\
   u_mag 0 = Rmax 0 (1 / 10 ^ 12) /\
   tau 1 (element_size 4) 0 =
     1 / R_sqrt.sqrt ((2 * Rmax 0 (1 / 10 ^ 12) / element_size 4) ^ 2
                      + 9 * (4 * 1 / element_size 4 ^ 2) ^ 2) /\
   forall h',
     GLS_residual_trg_tau 1 h' 0 =
     1 / R_sqrt.sqrt ((2 * Rmax 0 (1 / 10 ^ 3) / h') ^ 2
                      + 9 * (4 * 1 / h' ^ 2) ^ 2))%R.
Proof. split; [lra|]. apply (tau_formula 1 4 0). lra. Defined.

(** C6, counterexample: for a fluid at rest, with [nu = 1] and [h = 1],
    the parameter that [GLS_residual_trg] computes, with its floor of
    1e-3, is below the one of the formula with the floor of 1e-12. *)
Lemma GLS_residual_trg_floor_differs :
  GLS_residual_trg_tau 1%float 1%float 0%float <> spec_tau 1%float 1%float 0%float.
Proof.
  vm_compute.
  apply separated with (bound := 0x1.5555555p-4%float); reflexivity.
Qed.

(* ------------------------------------------------------------------ *)
(** ** C7: a dof on the surface *)




(* ------------------------------------------------------------------ *)
(** ** C8: the Newton iteration ends *)


(* ------------------------------------------------------------------ *)
(** ** C9: the sampling step of the traction integrator *)

(** C9 (amended).  In [torque] of gls_navier_stokes_sharp_edge.cc the
    step is doubled after it is computed: [dr = 2 h_min / sqrt 2], that
    is [sqrt 2 * h_min]; [torque] of directSteadyNS.cpp keeps
    [dr = h_min / sqrt 2]. *)
Theorem torque_dr_value (h : R) :
  (0 < h)%R ->
  (torque_dr h = 2 * (h / R_sqrt.sqrt 2) /\ torque_dr h = R_sqrt.sqrt 2 * h /\
   direct_torque_dr h = h / R_sqrt.sqrt 2)%R.
Proof.
  intros Hh. unfold torque_dr, direct_torque_dr. exact_arith.
  assert (H2 : (0 < R_sqrt.sqrt 2)%R) by (apply sqrt_lt_R0; lra).
  assert (Hs : (R_sqrt.sqrt (2 * (h * h)) = R_sqrt.sqrt 2 * h)%R).
  { rewrite sqrt_mult by nra. rewrite sqrt_square by lra. reflexivity. }
  assert (H22 : (R_sqrt.sqrt 2 * R_sqrt.sqrt 2 = 2)%R) by (apply sqrt_sqrt; lra).
  rewrite Hs. repeat split.
  - field. split; lra.
  - apply (Rmult_eq_reg_r (R_sqrt.sqrt 2)); [|lra].
    transitivity (h * h / (R_sqrt.sqrt 2 * h) * 2 * R_sqrt.sqrt 2)%R; [reflexivity|].
    field_simplify; [|split; lra]. nra.
  - field. split; lra.
Qed.

(** The mesh whose smallest cell has diameter 1. *)
Lemma torque_dr_value_witness :
  (0 < 1 /\ torque_dr 1 = 2 * (1 / R_sqrt.sqrt 2) /\ torque_dr 1 = R_sqrt.sqrt 2 * 1 /\
   direct_torque_dr 1 = 1 / R_sqrt.sqrt 2)%R.
Proof. split; [lra|]. apply (torque_dr_value 1). lra. Defined.

(** C9, counterexample: for [h_min = 1] the step of
    gls_navier_stokes_sharp_edge.cc is above 1 and [1 / sqrt 2] is
    not. *)
Lemma sampling_step_is_doubled :
  torque_dr 1%float <> spec_sampling_step 1%float.
Proof.
  vm_compute. apply not_eq_sym, separated with (bound := 1%float); reflexivity.
Qed.

(* ------------------------------------------------------------------ *)
(** ** C10: the frame of [assemble_rhs] *)

(** C10.  A call [assemble(initial_step, false)] returns the matrix of
    the system that it is given, whatever the iterate, the constraints
    and what the cells add to the right-hand side; the vectors of the
    solver other than the right-hand side are kept as well. *)
Theorem assemble_rhs_keeps_matrix {T : Type} {DT : Double T}
  {Cell Constraints : Type} (P : Problem T Cell) (F : Assembly T Cell Constraints)
  (initial_step : bool) (St : Solver T) :
  let St' := assemble P F initial_step false St in
  system_matrix (sys St') = system_matrix (sys St) /\
  present_solution St' = present_solution St /\
  newton_update St' = newton_update St /\
  evaluation_point St' = evaluation_point St /\
  last_vect St' = last_vect St.
Proof.
  simpl. repeat split.
  apply (fold_keeps_first
           (fun (Ar : Matrix T * Vector T) cell =>
              distribute_local_to_global_rhs F
                (if initial_step then nonzero_constraints F else zero_constraints F)
                (snd (assemble_cell P F false (evaluation_point St) cell))
                (get_dof_indices P cell) (snd Ar))).
Qed.

(* ================================================================== *)
(** * Part IV: further properties of the code *)

(* ------------------------------------------------------------------ *)
(** ** The index walk *)

Lemma stride_loop_head (fuel size l : nat) (ls : list nat) :
  stride_loop fuel size l = Some ls ->
  (forall n, In n ls -> l <= n) /\ StronglySorted lt ls.
Proof.
  revert l ls. induction fuel as [|fuel IH]; intros l ls; simpl.
  - destruct (Nat.ltb l size); [discriminate|]. intros [= <-].
    split; [intros n []|constructor].
  - destruct (Nat.ltb l size); [|intros [= <-]; split; [intros n []|constructor]].
    destruct (stride_loop fuel size (stride_next l)) as [ls'|] eqn:E;
      [|discriminate].
    simpl. intros [= <-]. destruct (IH _ _ E) as [Hge Hs].
    pose proof (stride_next_gt l) as Hgt. split.
    + intros n [<-|Hn]; [lia|]. specialize (Hge n Hn). lia.
    + constructor; [exact Hs|]. apply Forall_forall. intros n Hn.
      specialize (Hge n Hn). lia.
Qed.

Lemma stride_loop_by_three (fuel size l : nat) (ls : list nat) :
  size <= 12 ->
  stride_loop fuel size l = Some ls ->
  forall n, In n ls <-> (n < size /\ exists j, n = l + 3 * j).
Proof.
  intros Hsize. revert l ls. induction fuel as [|fuel IH]; intros l ls; simpl.
  - destruct (Nat.ltb_spec l size); [discriminate|]. intros [= <-] n.
    split; [intros []|]. intros [Hn [j ->]]. lia.
  - destruct (Nat.ltb_spec l size) as [Hl|Hl].
    + destruct (stride_loop fuel size (stride_next l)) as [ls'|] eqn:E;
        [|discriminate].
      simpl. intros [= <-] n. specialize (IH _ _ E n).
      unfold stride_next in IH.
      destruct (Nat.ltb_spec l 12) as [H12|H12]; [|lia].
      split.
      * intros [<-|Hn].
        -- split; [lia|]. exists 0. lia.
        -- apply IH in Hn. destruct Hn as [Hn [j ->]].
           split; [lia|]. exists (S j). lia.
      * intros [Hn [j ->]]. destruct j as [|j]; [left; lia|].
        right. apply IH. split; [lia|]. exists j. lia.
    + intros [= <-] n. split; [intros []|]. intros [Hn [j ->]]. lia.
Qed.

(** X1.  The index walk over the dofs of a cell ends within the fuel
    that [stride] gives it, visits only indices below [size], in
    increasing order and starting at [k]; up to 12 dofs per cell it
    visits exactly the indices [k], [k + 3], [k + 6], ... below
    [size], the dofs of component [k] of a cell of Q1-Q1 elements. *)
Theorem index_walk_visits (size k : nat) :
  stride_loop size size k = Some (stride size k) /\
  (forall n, In n (stride size k) -> k <= n < size) /\
  StronglySorted lt (stride size k) /\
  (size <= 12 ->
   forall n, In n (stride size k) <-> (n < size /\ exists j, n = k + 3 * j)).
Proof.
  pose proof (stride_total size k) as Htotal.
  destruct (stride_loop_head _ _ _ _ Htotal) as [Hge Hsorted].
  split; [exact Htotal|]. split; [|split; [exact Hsorted|]].
  - intros n Hn. split; [now apply Hge|]. now apply (stride_lt size k).
  - intros Hsize. now apply (stride_loop_by_three size size k).
Qed.

(* ------------------------------------------------------------------ *)
(** ** The search of the cell of the second point *)

Section CellSearch.
Context {T : Type} {DT : Double T} {Cell : Type}.
Variable P : Problem T Cell.

Lemma cell_search_step (i0 : nat) (c : Cell) (rest : list Cell) (pt : Point T) :
  SharpEdge.cell_search P i0 (c :: rest) pt =
  if holds_point P pt c then i0 else SharpEdge.cell_search P (S i0) rest pt.
Proof.
  unfold holds_point. simpl.
  destruct (transform_real_to_unit_cell P c pt); reflexivity.
Qed.

Lemma cell_search_none (i0 : nat) (rest : list Cell) (pt : Point T) :
  existsb (holds_point P pt) rest = false ->
  SharpEdge.cell_search P i0 rest pt = 0.
Proof.
  revert i0. induction rest as [|c rest IH]; intros i0 H; [reflexivity|].
  rewrite cell_search_step. simpl in H. apply orb_false_elim in H.
  destruct H as [-> H]. now apply IH.
Qed.

Lemma cell_search_some (i0 : nat) (rest : list Cell) (pt : Point T) :
  existsb (holds_point P pt) rest = true ->
  exists j c,
    SharpEdge.cell_search P i0 rest pt = i0 + j /\
    nth_error rest j = Some c /\
    holds_point P pt c = true /\
    forall j' c', j' < j -> nth_error rest j' = Some c' ->
                  holds_point P pt c' = false.
Proof.
  revert i0. induction rest as [|c rest IH]; intros i0 H; [discriminate|].
  rewrite cell_search_step. simpl in H.
  destruct (holds_point P pt c) eqn:Hc.
  - exists 0, c. repeat split; [lia|assumption|]. intros j' c' Hj. lia.
  - simpl in H. destruct (IH (S i0) H) as (j & c2 & Hrun & Hnth & Hholds & Hfirst).
    exists (S j), c2. repeat split; [lia|assumption|assumption|].
    intros [|j'] c' Hj Hn; simpl in Hn.
    + now injection Hn as <-.
    + apply (Hfirst j' c'); [lia|assumption].
Qed.

(** X2.  The search over the cells around a vertex returns the index
    of the first cell in which the inverse mapping of the point
    succeeds at distance 0 from the unit cell, a cell whose mapping
    fails being skipped; when no cell passes, it returns 0. *)
Theorem cell_search_first (active_neighbors : list Cell) (pt : Point T) :
  let cell_found := SharpEdge.cell_search P 0 active_neighbors pt in
  (existsb (holds_point P pt) active_neighbors = true ->
   exists c,
     nth_error active_neighbors cell_found = Some c /\
     holds_point P pt c = true /\
     forall j' c', j' < cell_found -> nth_error active_neighbors j' = Some c' ->
                   holds_point P pt c' = false) /\
  (existsb (holds_point P pt) active_neighbors = false -> cell_found = 0).
Proof.
  intros cell_found. split.
  - intros H. destruct (cell_search_some 0 _ _ H) as (j & c & Hrun & Hnth & Hc & Hf).
    unfold cell_found. rewrite Hrun. simpl. exists c. now repeat split.
  - now apply cell_search_none.
Qed.

(** X3.  When none of the cells around the vertex of the dof holds the
    second point, the override does not fail: it takes the first of
    these cells and the coordinates of the point in it, which lie
    outside the unit cell, provided the inverse mapping succeeds there;
    it fails when the vertex has no cell around it. *)
Theorem locate_falls_back (pt : Point T) (cell : Cell) (l : nat) :
  let active_neighbors := SharpEdge.active_neighbors_of P cell l in
  (existsb (holds_point P pt) active_neighbors = false ->
   SharpEdge.locate P pt cell l =
   match active_neighbors with
   | [] => None
   | cell_2 :: _ =>
       match transform_real_to_unit_cell P cell_2 pt with
       | Some xi => Some (cell_2, xi)
       | None => None
       end
   end) /\
  (active_neighbors = [] -> SharpEdge.locate P pt cell l = None).
Proof.
  intros active_neighbors. split.
  - intros H. unfold SharpEdge.locate. fold active_neighbors.
    rewrite (cell_search_none 0 _ _ H).
    destruct active_neighbors as [|c rest]; [reflexivity|]. simpl.
    destruct (transform_real_to_unit_cell P c pt); reflexivity.
  - intros H. unfold SharpEdge.locate. fold active_neighbors. rewrite H.
    reflexivity.
Qed.

(* ------------------------------------------------------------------ *)
(** ** Which cells are cut *)





End CellSearch.

(* ------------------------------------------------------------------ *)
(** ** Whole runs of the override *)

Section WholeRuns.
Context {T : Type} {DT : Double T} {Cell : Type}.
Variable P : Problem T Cell.

Lemma for_each_identity {A St : Type} (body : A -> St -> option St)
  (l : list A) (s : St) :
  (forall a, In a l -> body a s = Some s) -> for_each body l s = Some s.
Proof.
  induction l as [|a l IH]; intros H; simpl; [reflexivity|].
  rewrite (H a (or_introl eq_refl)). simpl. apply IH.
  intros a' Ha'. apply H. now right.
Qed.

(** X5.  On a mesh none of whose cells is cut by a circle the override
    of gls_navier_stokes_sharp_edge.cc returns the system that it is
    given, and looks for no cell: no exception can leave it. *)
Theorem sharp_edge_V2_uncut (initial_step : bool) (S0 : System T) :
  (forall cell, In cell (active_cells P) ->
                cut_by_small P cell = false /\ cut_by_large P cell = false) ->
  SharpEdge.sharp_edge_V2 P initial_step S0 = Some S0.
Proof.
  intros H. unfold SharpEdge.sharp_edge_V2. apply for_each_identity.
  intros cell Hcell. rewrite visit_cell_passes.
  destruct (H cell Hcell) as [-> ->]. reflexivity.
Qed.

(** X6.  A run of the override of gls_navier_stokes_sharp_edge.cc
    changes no row of the matrix and no entry of the right-hand side
    other than those of the velocity dofs of the cells that a circle
    cuts. *)
Theorem sharp_edge_V2_keeps_other_rows (initial_step : bool) (S0 S1 : System T) :
  SharpEdge.sharp_edge_V2 P initial_step S0 = Some S1 ->
  forall i, ~ In i (rewritten_rows P) ->
            (forall j, system_matrix S1 i j = system_matrix S0 i j) /\
            system_rhs S1 i = system_rhs S0 i.
Proof.
  intros Hrun i Hi.
  exact (sharp_edge_V2_frame P initial_step S0 S1 i Hrun Hi).
Qed.

(** X7.  Unless the step is the initial one with [couette] set, a run
    of the override of gls_navier_stokes_sharp_edge.cc leaves 0 in the
    right-hand side of every row that it rewrites, however many cells
    share the dof of the row. *)
Theorem sharp_edge_V2_homogeneous (initial_step : bool) (S0 S1 : System T) :
  (couette P && initial_step)%bool = false ->
  SharpEdge.sharp_edge_V2 P initial_step S0 = Some S1 ->
  forall i, In i (rewritten_rows P) -> system_rhs S1 i = of_Z 0.
Proof.
  intros Hc Hrun i Hi.
  exact (sharp_edge_V2_rhs_zero P initial_step S0 S1 i Hc Hrun Hi).
Qed.

(** X8.  Every run of the override of directSteadyNS.cpp that returns
    ends by fixing the last dof: its row is 0 off the diagonal and
    [1 / min_cell_d^2] on it, and its right-hand side is 0, whether a
    circle cuts a cell or not and whatever the passes wrote there. *)
Theorem direct_pins_last_dof (S0 S1 : System T) :
  0 < n_dofs P ->
  Direct.sharp_edge_V2 P S0 = Some S1 ->
  let last := n_dofs P - 1 in
  (forall j, j < n_dofs P -> j <> last -> system_matrix S1 last j = of_Z 0) /\
  system_matrix S1 last last
    = (of_Z 1 / (Direct.min_cell_d P * Direct.min_cell_d P))%D /\
  system_rhs S1 last = of_Z 0.
Proof.
  intros Hn Hrun last. unfold Direct.sharp_edge_V2 in Hrun.
  destruct (for_each (Direct.visit_cell P) (active_cells P) S0) as [S'|];
    [|discriminate].
  simpl in Hrun. injection Hrun as <-. unfold Direct.pin_last_dof. simpl.
  fold last. split; [|split].
  - intros j Hj Hne. rewrite mset_other_col by assumption.
    now apply direct_clear_row_in.
  - apply mset_eq.
  - apply vset_eq.
Qed.

(** X9.  A run of the override of directSteadyNS.cpp changes no row of
    the matrix and no entry of the right-hand side other than those of
    the velocity dofs of the cells that a circle cuts and those of the
    last dof. *)
Theorem direct_keeps_other_rows (S0 S1 : System T) :
  Direct.sharp_edge_V2 P S0 = Some S1 ->
  forall i, ~ In i (direct_rewritten_rows P) -> i <> n_dofs P - 1 ->
            (forall j, system_matrix S1 i j = system_matrix S0 i j) /\
            system_rhs S1 i = system_rhs S0 i.
Proof.
  intros Hrun i Hi Hlast. unfold Direct.sharp_edge_V2 in Hrun.
  destruct (for_each (Direct.visit_cell P) (active_cells P) S0) as [S'|] eqn:E;
    [|discriminate].
  simpl in Hrun. injection Hrun as <-.
  apply (same_row_trans i S0 S' (Direct.pin_last_dof P S')).
  - exact (direct_cells_frame P i S0 S' Hi E).
  - now apply pin_last_dof_other.
Qed.

End WholeRuns.

(** The mesh of one cell, which the circle of radius 0.21 does not
    cut. *)
Lemma sharp_edge_V2_uncut_witness :
  (forall cell, In cell (active_cells one_cell_grid) ->
                cut_by_small one_cell_grid cell = false /\
                cut_by_large one_cell_grid cell = false) /\
  SharpEdge.sharp_edge_V2 one_cell_grid true diagonal_system = Some diagonal_system.
Proof.
  assert (H : forall cell, In cell (active_cells one_cell_grid) ->
                cut_by_small one_cell_grid cell = false /\
                cut_by_large one_cell_grid cell = false).
  { intros cell [<-|[]]. split; vm_compute; reflexivity. }
  split; [exact H|].
  exact (sharp_edge_V2_uncut one_cell_grid true diagonal_system H).
Defined.

(** The 2 by 2 grid with 4 on the diagonal: dof 18 is the pressure
    dof of the first vertex. *)
Lemma sharp_edge_V2_keeps_other_rows_witness :
  let S1 := get_system (SharpEdge.sharp_edge_V2 (coarse_grid false) true
                          diagonal_system) diagonal_system in
  SharpEdge.sharp_edge_V2 (coarse_grid false) true diagonal_system = Some S1 /\
  ~ In 18 (rewritten_rows (coarse_grid false)) /\
  (forall j, system_matrix S1 18 j = system_matrix diagonal_system 18 j) /\
  system_rhs S1 18 = system_rhs diagonal_system 18.
Proof.
  intros S1.
  assert (H1 : SharpEdge.sharp_edge_V2 (coarse_grid false) true diagonal_system
               = Some S1) by (apply some_get_system; vm_compute; reflexivity).
  assert (Hi : ~ In 18 (rewritten_rows (coarse_grid false))).
  { intros H. vm_compute in H.
    repeat (destruct H as [H|H]; [discriminate|]). exact H. }
  split; [exact H1|]. split; [exact Hi|].
  exact (sharp_edge_V2_keeps_other_rows (coarse_grid false) true
           diagonal_system S1 H1 18 Hi).
Defined.

(** The Couette variant of the 2 by 2 grid on a later step: dof 0 is a
    velocity dof of the first cell, which the circle cuts. *)
Lemma sharp_edge_V2_homogeneous_witness :
  let S1 := get_system (SharpEdge.sharp_edge_V2 (coarse_grid true) false
                          diagonal_system) diagonal_system in
  (couette (coarse_grid true) && false)%bool = false /\
  SharpEdge.sharp_edge_V2 (coarse_grid true) false diagonal_system = Some S1 /\
  In 0 (rewritten_rows (coarse_grid true)) /\
  system_rhs S1 0 = of_Z 0.
Proof.
  intros S1.
  assert (H1 : SharpEdge.sharp_edge_V2 (coarse_grid true) false diagonal_system
               = Some S1) by (apply some_get_system; vm_compute; reflexivity).
  assert (Hi : In 0 (rewritten_rows (coarse_grid true)))
    by (vm_compute; left; reflexivity).
  split; [reflexivity|]. split; [exact H1|]. split; [exact Hi|].
  exact (sharp_edge_V2_homogeneous (coarse_grid true) false diagonal_system S1
           eq_refl H1 0 Hi).
Defined.

(** The 5 by 5 grid with 4 on the diagonal. *)
Lemma direct_pins_last_dof_witness :
  let S1 := get_system (Direct.sharp_edge_V2 wide_grid diagonal_system)
                       diagonal_system in
  let last := n_dofs wide_grid - 1 in
  0 < n_dofs wide_grid /\
  Direct.sharp_edge_V2 wide_grid diagonal_system = Some S1 /\
  (forall j, j < n_dofs wide_grid -> j <> last ->
             system_matrix S1 last j = of_Z 0) /\
  system_matrix S1 last last
    = (of_Z 1 / (Direct.min_cell_d wide_grid * Direct.min_cell_d wide_grid))%D /\
  system_rhs S1 last = of_Z 0.
Proof.
  intros S1 last.
  assert (Hn : 0 < n_dofs wide_grid) by (vm_compute; lia).
  assert (H1 : Direct.sharp_edge_V2 wide_grid diagonal_system = Some S1)
    by (apply some_get_system; vm_compute; reflexivity).
  split; [exact Hn|]. split; [exact H1|].
  exact (direct_pins_last_dof wide_grid diagonal_system S1 Hn H1).
Defined.

(** Dof 0 of the 5 by 5 grid, a velocity dof of a corner that no
    circle reaches. *)
Lemma direct_keeps_other_rows_witness :
  let S1 := get_system (Direct.sharp_edge_V2 wide_grid diagonal_system)
                       diagonal_system in
  Direct.sharp_edge_V2 wide_grid diagonal_system = Some S1 /\
  ~ In 0 (direct_rewritten_rows wide_grid) /\
  0 <> n_dofs wide_grid - 1 /\
  (forall j, system_matrix S1 0 j = system_matrix diagonal_system 0 j) /\
  system_rhs S1 0 = system_rhs diagonal_system 0.
Proof.
  intros S1.
  assert (H1 : Direct.sharp_edge_V2 wide_grid diagonal_system = Some S1)
    by (apply some_get_system; vm_compute; reflexivity).
  assert (Hi : ~ In 0 (direct_rewritten_rows wide_grid)).
  { intros H. vm_compute in H.
    repeat (destruct H as [H|H]; [discriminate|]). exact H. }
  assert (Hlast : 0 <> n_dofs wide_grid - 1) by (vm_compute; lia).
  split; [exact H1|]. split; [exact Hi|]. split; [exact Hlast|].
  exact (direct_keeps_other_rows wide_grid diagonal_system S1 H1 0 Hi Hlast).
Defined.

(* ------------------------------------------------------------------ *)
(** ** The stabilisation parameter, in exact arithmetic *)

Section ExactFormulas.
Local Open Scope R_scope.

Lemma u_mag_positive (v : R) : 1 / 10 ^ 12 <= u_mag v.
Proof.
  unfold u_mag. rewrite std_max_Rmax. unfold decimal. exact_arith.
  replace (1 / IZR (10 ^ Z.of_nat 12)) with (1 / 10 ^ 12) by (simpl; lra).
  apply Rmax_r.
Qed.

Lemma inv_sqrt_sum_le (a b : R) :
  0 < a -> 0 <= b -> 1 / R_sqrt.sqrt (a * a + b) <= 1 / a.
Proof.
  intros Ha Hb.
  assert (Hs : a <= R_sqrt.sqrt (a * a + b)).
  { rewrite <- (sqrt_square a) at 1 by lra. apply sqrt_le_1_alt. nra. }
  unfold Rdiv. rewrite !Rmult_1_l. apply Rinv_le_contravar; assumption.
Qed.

(** X10.  For a cell of positive size and a viscosity that is not
    negative the stabilisation parameter of [assemble] is positive and
    at most [h / (2 |v|)], with the norm of the velocity floored at
    1e-12, so at most [h / 2e-12]; for a positive viscosity it is also
    at most [h^2 / (12 nu)]. *)
Theorem tau_bounds (nu h velocity_norm : R) :
  0 < h -> 0 <= nu ->
  0 < tau nu h velocity_norm /\
  tau nu h velocity_norm <= h / (2 * u_mag velocity_norm) /\
  tau nu h velocity_norm <= h * 10 ^ 12 / 2 /\
  (0 < nu -> tau nu h velocity_norm <= h * h / (12 * nu)).
Proof.
  intros Hh Hnu. pose proof (u_mag_positive velocity_norm) as Hu.
  assert (H12 : 0 < 1 / 10 ^ 12) by (apply Rdiv_lt_0_compat; [lra|apply pow_lt; lra]).
  set (u := u_mag velocity_norm) in *.
  assert (Hu0 : 0 < u) by lra.
  unfold tau, pow2. fold u. exact_arith.
  set (a := 2 * u / h). set (b := 4 * nu / (h * h)).
  assert (Ha : 0 < a) by (unfold a; apply Rdiv_lt_0_compat; lra).
  assert (Hb : 0 <= b).
  { unfold b. apply Rmult_le_pos; [lra|].
    left. apply Rinv_0_lt_compat. nra. }
  assert (Hpos : 0 < a * a + 9 * (b * b)) by nra.
  assert (Hfirst : 1 / R_sqrt.sqrt (a * a + 9 * (b * b)) <= h / (2 * u)).
  { eapply Rle_trans; [apply inv_sqrt_sum_le; [assumption|nra]|].
    unfold a. right. field. lra. }
  split; [|split; [|split]].
  - apply Rdiv_lt_0_compat; [lra|]. now apply sqrt_lt_R0.
  - exact Hfirst.
  - eapply Rle_trans; [exact Hfirst|].
    assert (Hinv : 1 / u <= 10 ^ 12).
    { assert (Hp : 0 < 10 ^ 12) by (apply pow_lt; lra).
      apply (Rmult_le_reg_r u); [assumption|].
      replace (1 / u * u) with 1 by (field; lra).
      apply (Rmult_le_reg_r (1 / 10 ^ 12)); [assumption|].
      replace (10 ^ 12 * u * (1 / 10 ^ 12)) with u by (field; lra).
      lra. }
    replace (h / (2 * u)) with (h / 2 * (1 / u)) by (field; lra).
    replace (h * 10 ^ 12 / 2) with (h / 2 * 10 ^ 12) by field.
    apply Rmult_le_compat_l; lra.
  - intros Hnu'.
    assert (Hb' : 0 < 3 * b).
    { unfold b. apply Rmult_lt_0_compat; [lra|].
      apply Rdiv_lt_0_compat; nra. }
    replace (a * a + 9 * (b * b)) with (3 * b * (3 * b) + a * a) by ring.
    eapply Rle_trans; [apply inv_sqrt_sum_le; [assumption|nra]|].
    unfold b. right. field. lra.
Qed.

Lemma tau_bounds_witness :
  0 < 1 /\ 0 <= 1 /\
  0 < tau 1 1 0 /\
  tau 1 1 0 <= 1 / (2 * u_mag 0) /\
  tau 1 1 0 <= 1 * 10 ^ 12 / 2 /\
  (0 < 1 -> tau 1 1 0 <= 1 * 1 / (12 * 1)).
Proof.
  split; [lra|]. split; [lra|]. apply (tau_bounds 1 1 0); lra.
Defined.

(* ------------------------------------------------------------------ *)
(** ** The geometry of the override, in exact arithmetic *)

Lemma norm_sqr (p : Point R) : norm p * norm p = fst p * fst p + snd p * snd p.
Proof. unfold norm. exact_arith. apply sqrt_sqrt. nra. Qed.

Lemma norm_nonneg (p : Point R) : 0 <= norm p.
Proof. unfold norm. exact_arith. apply sqrt_pos. Qed.

Lemma norm_positive (p : Point R) : p <> (0, 0) -> 0 < norm p.
Proof.
  intros Hp. destruct (Rle_lt_or_eq_dec _ _ (norm_nonneg p)) as [H|H];
    [assumption|].
  exfalso. apply Hp. pose proof (norm_sqr p) as Hs. rewrite <- H in Hs.
  destruct p as [x y]. simpl in Hs.
  assert (x = 0) by nra. assert (y = 0) by nra. now subst.
Qed.

Lemma psub_nonzero (p c : Point R) : p <> c -> psub p c <> (0, 0).
Proof.
  intros Hp H. apply Hp. destruct p as [x y], c as [cx cy].
  unfold psub in H. exact_arith. simpl in H. injection H as Hx Hy.
  f_equal; lra.
Qed.

(** The two components of the boundary velocity about a centre [c]. *)
Lemma boundary_velocity_tangent (d : Point R) :
  0 < norm d ->
  let n_vec := pdiv d (norm d) in
  let g0 := 1 * component n_vec 1 in
  let g1 := -1 * component n_vec 0 in
  g0 * g0 + g1 * g1 = 1 /\ g0 * fst d + g1 * snd d = 0.
Proof.
  intros Hn n_vec g0 g1. pose proof (norm_sqr d) as Hs.
  unfold g0, g1, n_vec. set (r := norm d) in *.
  unfold pdiv, component. cbn [fst snd]. exact_arith. split.
  - transitivity ((fst d * fst d + snd d * snd d) / (r * r)); [field; lra|].
    rewrite <- Hs. field. lra.
  - field. lra.
Qed.

(** X11.  The velocity that the override prescribes on the small
    circle at a dof other than the centre has norm 1 and is orthogonal
    to the direction from the centre to the dof: it is the velocity of
    a rotation about the centre, in both prototypes. *)
Theorem boundary_condition_is_a_rotation (sp : Point R) :
  (sp <> SharpEdge.center_immersed ->
   let g := SharpEdge.boundary_condition in
   let d := psub sp SharpEdge.center_immersed in
   g 0%nat sp * g 0%nat sp + g 1%nat sp * g 1%nat sp = 1 /\
   g 0%nat sp * fst d + g 1%nat sp * snd d = 0) /\
  (sp <> Direct.center_immersed ->
   let g := Direct.boundary_condition in
   let d := psub sp Direct.center_immersed in
   g 0%nat sp * g 0%nat sp + g 1%nat sp * g 1%nat sp = 1 /\
   g 0%nat sp * fst d + g 1%nat sp * snd d = 0).
Proof.
  split; intros Hsp g d.
  - apply (boundary_velocity_tangent (psub sp SharpEdge.center_immersed)).
    now apply norm_positive, psub_nonzero.
  - apply (boundary_velocity_tangent (psub sp Direct.center_immersed)).
    now apply norm_positive, psub_nonzero.
Qed.

Lemma scaled_norm (d : Point R) (rad : R) :
  0 < norm d ->
  let v := psub d (pdiv (pscale rad d) (norm d)) in
  fst v * fst v + snd v * snd v = Rsqr (norm d - rad).
Proof.
  intros Hn v. pose proof (norm_sqr d) as Hs. unfold v. set (r := norm d) in *.
  unfold psub, pdiv, pscale, Rsqr. cbn [fst snd]. exact_arith.
  transitivity ((fst d * fst d + snd d * snd d) * ((r - rad) * (r - rad)) / (r * r));
    [field; lra|].
  rewrite <- Hs. field. lra.
Qed.

Lemma dneb_zero (a : R) : dneb a 0 = false <-> a = 0.
Proof.
  unfold dneb. exact_arith. unfold Reqb.
  destruct (Req_dec_T a 0); simpl; split; intros H; congruence.
Qed.

(** X12.  For a dof other than the centre, the distance that the pass
    for the small circle of gls_navier_stokes_sharp_edge.cc and both
    passes of directSteadyNS.cpp compute is the distance from the dof
    to the circle, [| |x_i - c| - radius |]; the branch of
    gls_navier_stokes_sharp_edge.cc for a distance of 0 is taken for
    the dofs on the circle and for no other. *)
Theorem distance_to_the_circle {Cell : Type} (P : Problem R Cell) (sp : Point R) :
  (sp <> SharpEdge.center_immersed ->
   norm (SharpEdge.vect_dist P sp)
     = Rabs (norm (psub sp SharpEdge.center_immersed) - radius P) /\
   (dneb (norm (SharpEdge.vect_dist P sp)) 0 = false <->
    norm (psub sp SharpEdge.center_immersed) = radius P)) /\
  (sp <> Direct.center_immersed ->
   forall rad,
     Direct.dist (Direct.vect_dist rad sp)
       = Rabs (norm (psub sp Direct.center_immersed) - rad)).
Proof.
  split; intros Hsp.
  - assert (Hn : 0 < norm (psub sp SharpEdge.center_immersed))
      by now apply norm_positive, psub_nonzero.
    assert (Hd : norm (SharpEdge.vect_dist P sp)
                 = Rabs (norm (psub sp SharpEdge.center_immersed) - radius P)).
    { unfold SharpEdge.vect_dist. unfold norm at 1. exact_arith.
      rewrite (scaled_norm _ (radius P) Hn). apply sqrt_Rsqr_abs. }
    split; [exact Hd|]. rewrite dneb_zero, Hd. split.
    + intros H. unfold Rabs in H. destruct (Rcase_abs _) in H; lra.
    + intros H. rewrite H. replace (radius P - radius P) with 0 by ring.
      apply Rabs_R0.
  - intros rad.
    assert (Hn : 0 < norm (psub sp Direct.center_immersed))
      by now apply norm_positive, psub_nonzero.
    set (d := psub sp Direct.center_immersed) in *.
    assert (Hfd : fst d = fst sp)
      by (unfold d, psub, Direct.center_immersed; cbn [fst snd]; exact_arith; ring).
    assert (Hsd : snd d = snd sp)
      by (unfold d, psub, Direct.center_immersed; cbn [fst snd]; exact_arith; ring).
    pose proof (scaled_norm d rad Hn) as Hs. cbv zeta in Hs.
    rewrite <- sqrt_Rsqr_abs, <- Hs.
    unfold Direct.dist, Direct.vect_dist. fold d.
    unfold component, psub. cbn [fst snd]. exact_arith.
    rewrite Hfd, Hsd. f_equal. ring.
Qed.

(* ------------------------------------------------------------------ *)
(** ** The exact solution of [calculateL2Error] *)

(** X13.  For circles of radii [0 < ri < ro] the tangential velocity of
    the Couette flow that [calculateL2Error] compares the solution with
    is [r / ri] inside the small circle, 0 on the large circle and
    outside of it, 1 on the small circle, and between 0 and 1
    everywhere: the three branches meet at the two radii. *)
Theorem couette_profile (ri ro : R) :
  0 < ri -> ri < ro ->
  couette_utheta ri ro ri = 1 /\
  (forall r, ro <= r -> couette_utheta ri ro r = 0) /\
  (forall r, 0 <= r -> r < ri -> couette_utheta ri ro r = r / ri) /\
  (forall r, 0 <= r -> 0 <= couette_utheta ri ro r <= 1).
Proof.
  intros Hri Hro.
  assert (Hden : 0 < ro * ro - ri * ri) by nra.
  assert (Hmid : forall r, ri <= r -> r <= ro ->
            couette_utheta ri ro r = ri * (ro * ro - r * r) / (r * (ro * ro - ri * ri))).
  { intros r H1 H2. unfold couette_utheta, dgtb. exact_arith. unfold Rltb.
    destruct (Rlt_dec ro r); [lra|]. destruct (Rlt_dec r ri); [lra|].
    field. split; lra. }
  assert (Hout : forall r, ro < r -> couette_utheta ri ro r = 0).
  { intros r H. unfold couette_utheta, dgtb. exact_arith. unfold Rltb.
    destruct (Rlt_dec ro r); [|lra]. destruct (Rlt_dec r ri); [lra|reflexivity]. }
  assert (Hin : forall r, r < ri -> couette_utheta ri ro r = r / ri).
  { intros r H. unfold couette_utheta, dgtb. exact_arith. unfold Rltb.
    destruct (Rlt_dec r ri); [|lra]. field. lra. }
  split; [|split; [|split]].
  - rewrite Hmid by lra. field. split; lra.
  - intros r Hr. destruct (Rle_lt_or_eq_dec _ _ Hr) as [H|<-].
    + now apply Hout.
    + rewrite Hmid by lra. field. split; lra.
  - intros r _ Hr. now apply Hin.
  - intros r Hr. destruct (Rlt_le_dec r ri) as [H1|H1].
    + rewrite Hin by assumption. split.
      * apply Rmult_le_pos; [lra|]. left. now apply Rinv_0_lt_compat.
      * apply (Rmult_le_reg_r ri); [assumption|].
        replace (r / ri * ri) with r by (field; lra). lra.
    + destruct (Rlt_le_dec ro r) as [H2|H2].
      * rewrite Hout by assumption. lra.
      * rewrite Hmid by assumption.
        assert (Hr0 : 0 < r * (ro * ro - ri * ri)) by nra.
        split.
        -- assert (Hnum : 0 <= (ro - r) * (ro + r)) by (apply Rmult_le_pos; lra).
           apply Rmult_le_pos; [apply Rmult_le_pos; lra|].
           left. now apply Rinv_0_lt_compat.
        -- apply (Rmult_le_reg_r (r * (ro * ro - ri * ri))); [assumption|].
           replace (ri * (ro * ro - r * r) / (r * (ro * ro - ri * ri))
                    * (r * (ro * ro - ri * ri)))
             with (ri * (ro * ro - r * r)) by (field; split; lra).
           assert (Hgap : 0 <= (r - ri) * (ro * ro + ri * r))
             by (apply Rmult_le_pos; [lra|nra]).
           nra.
Qed.

Lemma couette_profile_witness :
  0 < 1 /\ 1 < 2 /\
  couette_utheta 1 2 1 = 1 /\
  (forall r, 2 <= r -> couette_utheta 1 2 r = 0) /\
  (forall r, 0 <= r -> r < 1 -> couette_utheta 1 2 r = r / 1) /\
  (forall r, 0 <= r -> 0 <= couette_utheta 1 2 r <= 1).
Proof.
  split; [lra|]. split; [lra|]. apply (couette_profile 1 2); lra.
Defined.

End ExactFormulas.

Section ExactWitnesses.
Local Open Scope R_scope.

Lemma strip_corner_off_centres :
  (Strip.corner : Point R) <> SharpEdge.center_immersed /\
  (Strip.corner : Point R) <> Direct.center_immersed.
Proof.
  rewrite strip_corner, strip_center. split; intros H.
  - apply (f_equal fst) in H. simpl in H. lra.
  - apply (f_equal fst) in H. unfold Direct.center_immersed in H.
    simpl in H. lra.
Qed.

(** The lower left vertex of the strip, at (1.2, 0). *)
Lemma boundary_condition_is_a_rotation_witness :
  let sp : Point R := Strip.corner in
  (sp <> SharpEdge.center_immersed /\
   SharpEdge.boundary_condition 0%nat sp * SharpEdge.boundary_condition 0%nat sp
   + SharpEdge.boundary_condition 1%nat sp * SharpEdge.boundary_condition 1%nat sp
   = 1 /\
   SharpEdge.boundary_condition 0%nat sp * fst (psub sp SharpEdge.center_immersed)
   + SharpEdge.boundary_condition 1%nat sp * snd (psub sp SharpEdge.center_immersed)
   = 0) /\
  (sp <> Direct.center_immersed /\
   Direct.boundary_condition 0%nat sp * Direct.boundary_condition 0%nat sp
   + Direct.boundary_condition 1%nat sp * Direct.boundary_condition 1%nat sp
   = 1 /\
   Direct.boundary_condition 0%nat sp * fst (psub sp Direct.center_immersed)
   + Direct.boundary_condition 1%nat sp * snd (psub sp Direct.center_immersed)
   = 0).
Proof.
  intros sp. destruct strip_corner_off_centres as [H1 H2].
  destruct (boundary_condition_is_a_rotation sp) as [Hcc Hcpp].
  split.
  - split; [exact H1|]. exact (Hcc H1).
  - split; [exact H2|]. exact (Hcpp H2).
Defined.

Lemma distance_to_the_circle_witness :
  let P := strip_R (1 / 2) true in
  let sp : Point R := Strip.corner in
  (sp <> SharpEdge.center_immersed /\
   norm (SharpEdge.vect_dist P sp)
     = Rabs (norm (psub sp SharpEdge.center_immersed) - radius P) /\
   (dneb (norm (SharpEdge.vect_dist P sp)) 0 = false <->
    norm (psub sp SharpEdge.center_immersed) = radius P)) /\
  (sp <> Direct.center_immersed /\
   forall rad,
     Direct.dist (Direct.vect_dist rad sp)
       = Rabs (norm (psub sp Direct.center_immersed) - rad)).
Proof.
  intros P sp. destruct strip_corner_off_centres as [H1 H2].
  destruct (distance_to_the_circle P sp) as [Hcc Hcpp].
  split.
  - split; [exact H1|]. exact (Hcc H1).
  - split; [exact H2|]. exact (Hcpp H2).
Defined.

End ExactWitnesses.

(* ------------------------------------------------------------------ *)
(** ** The samples of [torque], in exact arithmetic *)

Section TorqueSamples.
Local Open Scope R_scope.

Lemma tangent_angle_exact (i : nat) :
  tangent_angle i = sample_angle i - PI / 2.
Proof. reflexivity. Qed.

Lemma cos_tangent (x : R) : cos (x - PI / 2) = sin x.
Proof. rewrite cos_minus, cos_PI2, sin_PI2. ring. Qed.

Lemma sin_tangent (x : R) : sin (x - PI / 2) = - cos x.
Proof. rewrite sin_minus, cos_PI2, sin_PI2. ring. Qed.

Lemma sin_cos_one (x : R) : sin x * sin x + cos x * cos x = 1.
Proof. exact (sin2_cos2 x). Qed.

Lemma U1_exact (i : nat) : U1 i = -1.
Proof.
  unfold U1. rewrite tangent_angle_exact. exact_trig. exact_arith.
  rewrite cos_tangent, sin_tangent.
  pose proof (sin_cos_one (sample_angle i)) as H. lra.
Qed.

Lemma sample_angle_zero : sample_angle 0 = 0.
Proof.
  unfold sample_angle, of_unsigned, nb_evaluation. exact_arith. simpl.
  unfold Rdiv. ring.
Qed.

Lemma torque_samples_geometry (rad offset : R) (i : nat) :
  norm (eval_point rad i) = Rabs rad /\
  norm (eval_point_2 rad offset i) = Rabs (rad + offset).
Proof.
  pose proof (sin_cos_one (sample_angle i)) as Hsc. split.
  - unfold norm, eval_point. cbn [fst snd]. exact_trig. exact_arith.
    rewrite <- sqrt_Rsqr_abs. f_equal. unfold Rsqr.
    set (c := cos (sample_angle i)) in *. set (s := sin (sample_angle i)) in *.
    transitivity (rad * rad * (s * s + c * c)); [ring|]. rewrite Hsc. ring.
  - unfold norm, eval_point_2, eval_point. cbn [fst snd]. exact_trig. exact_arith.
    rewrite <- sqrt_Rsqr_abs. f_equal. unfold Rsqr.
    set (c := cos (sample_angle i)) in *. set (s := sin (sample_angle i)) in *.
    transitivity ((rad + offset) * (rad + offset) * (s * s + c * c)); [ring|].
    rewrite Hsc. ring.
Qed.

(** X14.  The samples of [torque] lie on the circle of the given radius
    about the origin, and the second point of a sample at [offset]
    further along the same ray; the first sample is the point
    [(rad, 0)], at the distance [|rad - 0.2|] from the centre
    [(0.2, 0)] of the circle of [sharp_edge_V2] in the same file.  The
    velocity of the wall that the shear is measured against is -1 at
    every sample. *)
Theorem torque_samples (rad offset : R) (i : nat) :
  norm (eval_point rad i) = Rabs rad /\
  norm (eval_point_2 rad offset i) = Rabs (rad + offset) /\
  eval_point rad 0 = (rad, 0) /\
  norm (psub (eval_point rad 0) SharpEdge.center_immersed) = Rabs (rad - 2 / 10) /\
  U1 i = -1.
Proof.
  pose proof (sin_cos_one (sample_angle i)) as Hsc.
  assert (Hzero : eval_point rad 0 = (rad, 0)).
  { unfold eval_point. rewrite sample_angle_zero. exact_trig. exact_arith.
    rewrite cos_0, sin_0. f_equal; ring. }
  destruct (torque_samples_geometry rad offset i) as [Hn Hn2].
  split; [exact Hn|]. split; [exact Hn2|]. split; [|split].
  - exact Hzero.
  - rewrite Hzero, strip_center. unfold norm, psub. cbn [fst snd]. exact_arith.
    rewrite <- sqrt_Rsqr_abs. f_equal. unfold Rsqr. ring.
  - apply U1_exact.
Qed.

(** X15.  The pressures that the last loop of [torque] extrapolates to
    the surface from the pressures at [dr], [2 dr] and [3 dr]: for a
    pressure [a + b s + c s^2] along the ray the extrapolation of order
    2 is the value [a] at the surface, the one of order 1 is
    [a - 2 c dr^2], exact when the pressure is affine, and the one of
    order 0 is the pressure at [dr]. *)
Theorem pressure_extrapolation (a b c dr : R) :
  let p (s : R) := a + b * s + c * (s * s) in
  pressure_order_2 (p dr) (p (2 * dr)) (p (3 * dr)) = p 0 /\
  pressure_order_1 (p dr) (p (2 * dr)) = p 0 - 2 * c * (dr * dr) /\
  pressure_order_0 (p dr) = p 0 + b * dr + c * (dr * dr).
Proof.
  intros p. unfold pressure_order_2, pressure_order_1, pressure_order_0, p.
  exact_arith. repeat split; ring.
Qed.

Section Quadrature.
Context {Cell : Type}.
Variable P : Problem R Cell.
Variable present_solution : Vector R.

Lemma torque_small_sum (c : R) (n : nat) :
  forall (a : nat) (t fx fy : R),
    (forall i, (a <= i < a + n)%nat -> du_dr_small P present_solution i = Some c) ->
    exists fx' fy',
      for_each (torque_small_step P present_solution) (seq a n) (t, fx, fy)
      = Some (t + INR n * (radius P * c * viscosity_ P * radius P * 2 * PI
                           * radius P / 99),
              fx', fy').
Proof.
  induction n as [|n IH]; intros a t fx fy H.
  - exists fx, fy. simpl. do 2 f_equal. f_equal. ring.
  - cbn [seq for_each]. unfold torque_small_step at 1.
    rewrite (H a) by lia. cbn [bind].
    match goal with
    | |- exists fx' fy', for_each _ _ (?t1, ?fx1, ?fy1) = _ =>
        destruct (IH (S a) t1 fx1 fy1) as (fx' & fy' & Hrun)
    end.
    { intros i Hi. apply H. lia. }
    exists fx', fy'. rewrite Hrun. do 2 f_equal. f_equal.
    rewrite S_INR. unfold of_unsigned, nb_evaluation. exact_arith. simpl. ring.
Qed.

(** X16.  When the shear is the same [c] at the 100 samples of the
    small circle, the torque that the first loop of [torque] sums is
    [100 / 99] times [radius * c * mu * radius] times the perimeter
    [2 PI radius]: each of the 100 samples weighs a 99th of the
    perimeter. *)
Theorem torque_small_uniform (c : R) :
  (forall i, (i < 100)%nat -> du_dr_small P present_solution i = Some c) ->
  exists fx_v fy_v,
    torque_small P present_solution
    = Some (100 / 99 * (radius P * c * viscosity_ P * radius P
                        * (2 * PI * radius P)),
            fx_v, fy_v).
Proof.
  intros H.
  destruct (torque_small_sum c 100 0 0 0 0) as (fx' & fy' & Hrun).
  { intros i Hi. apply H. lia. }
  exists fx', fy'. unfold torque_small, nb_evaluation. exact_arith.
  rewrite Hrun. do 2 f_equal. f_equal.
  replace (INR 100) with 100 by (simpl; lra). field.
Qed.

End Quadrature.

Lemma interpolate_at_rest {Cell : Type} (P : Problem R Cell) (c : nat)
  (local_dof_indices : list nat) (p : Point R) :
  interpolate P (fun _ => 0) c local_dof_indices p = 0.
Proof. unfold interpolate. cbn [fold_left]. exact_arith. ring. Qed.

(** For a fluid at rest on a mesh where every point has a cell, the
    shear against the wall is the same at every sample. *)
Lemma du_dr_small_at_rest {Cell : Type} (P : Problem R Cell) (i : nat) :
  (forall pt, exists found, cell_and_unit_point P pt = Some found) ->
  du_dr_small P (fun _ => 0) i
  = Some ((0 / (radius P + dr P) - -1 / radius P) / dr P).
Proof.
  intros Hfound. unfold du_dr_small, U2.
  destruct (Hfound (eval_point (radius P) i)) as [x ->].
  destruct (Hfound (eval_point_2 (radius P) (dr P) i)) as [y ->].
  cbn [bind]. rewrite !interpolate_at_rest, U1_exact. exact_arith.
  do 2 f_equal. f_equal. f_equal. ring.
Qed.

Lemma strip_has_cells (rad : R) (cou : bool) (pt : Point R) :
  exists found, cell_and_unit_point (strip_R rad cou) pt = Some found.
Proof. eexists. reflexivity. Qed.

Lemma torque_small_uniform_witness :
  let P := strip_R (1 / 2) true in
  let c := (0 / (radius P + dr P) - -1 / radius P) / dr P in
  (forall i, (i < 100)%nat -> du_dr_small P (fun _ => 0) i = Some c) /\
  exists fx_v fy_v,
    torque_small P (fun _ => 0)
    = Some (100 / 99 * (radius P * c * viscosity_ P * radius P
                        * (2 * PI * radius P)),
            fx_v, fy_v).
Proof.
  intros P c.
  assert (H : forall i, (i < 100)%nat -> du_dr_small P (fun _ => 0) i = Some c)
    by (intros i _; apply du_dr_small_at_rest, strip_has_cells).
  split; [exact H|].
  exact (torque_small_uniform P (fun _ => 0) c H).
Defined.

End TorqueSamples.

(* ------------------------------------------------------------------ *)
(** ** The Newton drivers at their edges *)

Section NewtonEdges.
Context {Cell Constraints : Type}.
Variable P : Problem R Cell.
Variable F : Assembly R Cell Constraints.

Lemma dgtb_one (tolerance : R) : (1 <= tolerance)%R -> dgtb (1%R : R) tolerance = false.
Proof.
  intros H. unfold dgtb. exact_arith. unfold Rltb.
  destruct (Rlt_dec tolerance 1); [lra|reflexivity].
Qed.

(** X17.  [newton_iteration] makes no Newton step at all, and returns
    with the solver as it found it, when [max_iteration] is 0, and also
    when the step is not announced as the initial one and the tolerance
    is at least 1: the residual that the loop tests first is the value
    1.0 that [current_res] is set to, not a residual of the system. *)
Theorem newton_iteration_no_step (tolerance : R) (max_iteration : nat)
  (is_initial_step : bool) (St : Solver R) :
  max_iteration = 0 \/ (is_initial_step = false /\ (1 <= tolerance)%R) ->
  SharpEdgeNewton.newton_iteration P F tolerance max_iteration is_initial_step St
    = Done (SharpEdgeNewton.newton_start is_initial_step St) /\
  DirectNewton.newton_iteration P F tolerance max_iteration is_initial_step St
    = Done (DirectNewton.newton_start is_initial_step St).
Proof.
  intros H.
  assert (Hc : ((is_initial_step || dgtb (1%R : R) tolerance)
                && Nat.ltb 0 max_iteration)%bool = false).
  { destruct H as [->|[-> Htol]].
    - apply andb_false_r.
    - now rewrite dgtb_one. }
  assert (Hs : SharpEdgeNewton.continues tolerance max_iteration
                 (SharpEdgeNewton.newton_start is_initial_step St) = false)
    by exact Hc.
  assert (Hd : DirectNewton.continues tolerance max_iteration
                 (DirectNewton.newton_start is_initial_step St) = false)
    by exact Hc.
  unfold SharpEdgeNewton.newton_iteration, DirectNewton.newton_iteration.
  split.
  - generalize max_iteration at 1 as fuel. intros fuel.
    destruct fuel; cbn [SharpEdgeNewton.newton_loop]; rewrite Hs; reflexivity.
  - generalize max_iteration at 1 as fuel. intros fuel.
    destruct fuel; cbn [DirectNewton.newton_loop]; rewrite Hd; reflexivity.
Qed.

Lemma sharp_edge_step_not_first (N : Newton R) :
  ends_with
    (fun N' => outer_iteration N' = outer_iteration N /\ first_step N' = false)
    (SharpEdgeNewton.newton_step P F 10 N).
Proof.
  unfold SharpEdgeNewton.newton_step. destruct (first_step N).
  - unfold SharpEdgeNewton.initial_newton_step.
    eapply ends_with_bind; [apply sharp_edge_ends|]. intros St4 _.
    eapply ends_with_bind; [apply ends_with_lift|]. intros St5 _.
    simpl. auto.
  - unfold SharpEdgeNewton.later_newton_step.
    eapply ends_with_bind; [apply sharp_edge_ends|]. intros St3 _.
    eapply ends_with_bind; [apply ends_with_lift|]. intros St4 _.
    eapply ends_with_weaken;
      [apply sharp_edge_line_search_ends with (n := 10);
       [exact halving_stops_exact|lia]|].
    simpl. tauto.
Qed.

Lemma direct_step_not_first (N : Newton R) :
  ends_with
    (fun N' => outer_iteration N' = outer_iteration N /\ first_step N' = false)
    (DirectNewton.newton_step P F 10 N).
Proof.
  unfold DirectNewton.newton_step. destruct (first_step N).
  - unfold DirectNewton.initial_newton_step.
    eapply ends_with_bind; [apply direct_sharp_edge_ends|]. intros St4 _.
    eapply ends_with_bind; [apply ends_with_lift|]. intros St5 _.
    simpl. auto.
  - unfold DirectNewton.later_newton_step.
    eapply ends_with_bind; [apply direct_sharp_edge_ends|]. intros St3 _.
    eapply ends_with_bind; [apply ends_with_lift|]. intros St4 _.
    eapply ends_with_bind;
      [apply direct_line_search_ends with (n := 10);
       [exact halving_stops_exact|lia]|].
    simpl. tauto.
Qed.

Lemma sharp_edge_loop_counts (tolerance : R) (max_iteration fuel : nat)
  (N : Newton R) (n0 : nat) :
  max_iteration - outer_iteration N <= fuel ->
  first_step N = false -> n0 <= outer_iteration N ->
  ends_with (fun N' => first_step N' = false /\ n0 <= outer_iteration N')
    (SharpEdgeNewton.newton_loop P F fuel 10 tolerance max_iteration N).
Proof.
  revert N. induction fuel as [|fuel IH]; intros N Hfuel Hfirst Hn; simpl.
  - destruct (SharpEdgeNewton.continues tolerance max_iteration N) eqn:Hc;
      simpl; [|auto].
    unfold SharpEdgeNewton.continues in Hc. apply andb_prop in Hc.
    destruct Hc as [_ Hc]. apply Nat.ltb_lt in Hc. lia.
  - destruct (SharpEdgeNewton.continues tolerance max_iteration N) eqn:Hc;
      simpl; [|auto].
    eapply ends_with_bind; [apply sharp_edge_step_not_first|].
    intros N1 [Ho Hf]. apply IH; simpl; [lia|assumption|lia].
Qed.

Lemma direct_loop_counts (tolerance : R) (max_iteration fuel : nat)
  (N : Newton R) (n0 : nat) :
  max_iteration - outer_iteration N <= fuel ->
  first_step N = false -> n0 <= outer_iteration N ->
  ends_with (fun N' => first_step N' = false /\ n0 <= outer_iteration N')
    (DirectNewton.newton_loop P F fuel 10 tolerance max_iteration N).
Proof.
  revert N. induction fuel as [|fuel IH]; intros N Hfuel Hfirst Hn; simpl.
  - destruct (DirectNewton.continues tolerance max_iteration N) eqn:Hc;
      simpl; [|auto].
    unfold DirectNewton.continues in Hc. apply andb_prop in Hc.
    destruct Hc as [_ Hc]. apply Nat.ltb_lt in Hc. lia.
  - destruct (DirectNewton.continues tolerance max_iteration N) eqn:Hc;
      simpl; [|auto].
    eapply ends_with_bind; [apply direct_step_not_first|].
    intros N1 [Ho Hf]. apply IH; simpl; [lia|assumption|lia].
Qed.

(** X18.  When the step is announced as the initial one and
    [max_iteration] is not 0, [newton_iteration] makes at least one
    Newton step, however large the tolerance: the loop ends within
    [max_iteration] steps, and unless an exception leaves it, the
    counter of the steps is at least 1 and [first_step] is unset. *)
Theorem newton_iteration_first_step (tolerance : R) (max_iteration : nat)
  (St : Solver R) :
  0 < max_iteration ->
  let stepped N := first_step N = false /\ 1 <= outer_iteration N in
  ends_with stepped
    (SharpEdgeNewton.newton_iteration P F tolerance max_iteration true St) /\
  ends_with stepped
    (DirectNewton.newton_iteration P F tolerance max_iteration true St).
Proof.
  intros Hmax stepped.
  unfold SharpEdgeNewton.newton_iteration, DirectNewton.newton_iteration.
  destruct max_iteration as [|m]; [lia|]. split.
  - simpl. eapply ends_with_bind; [apply sharp_edge_step_not_first|].
    intros N1 [Ho Hf]. simpl in Ho.
    apply sharp_edge_loop_counts; simpl; [lia|assumption|lia].
  - simpl. eapply ends_with_bind; [apply direct_step_not_first|].
    intros N1 [Ho Hf]. simpl in Ho.
    apply direct_loop_counts; simpl; [lia|assumption|lia].
Qed.

End NewtonEdges.

(* ------------------------------------------------------------------ *)
(** ** The assembler called twice *)

(** X19.  Assembling again at the same evaluation point changes
    nothing: [assemble] zeroes the right-hand side, and the matrix when
    it is asked for it, before it adds the cells, so that a second call
    with the same arguments returns the solver of the first one.  This
    holds for the matrix and the right-hand side together and for the
    right-hand side alone. *)
Theorem assemble_twice {T : Type} {DT : Double T} {Cell Constraints : Type}
  (P : Problem T Cell) (F : Assembly T Cell Constraints)
  (initial_step assemble_matrix : bool) (St : Solver T) :
  assemble P F initial_step assemble_matrix
    (assemble P F initial_step assemble_matrix St)
  = assemble P F initial_step assemble_matrix St.
Proof.
  destruct assemble_matrix; [reflexivity|].
  unfold assemble at 1. cbn [sys system_matrix evaluation_point present_solution
                              newton_update last_vect].
  assert (Hm : system_matrix (sys (assemble P F initial_step false St))
               = system_matrix (sys St)).
  { simpl.
    apply (fold_keeps_first
             (fun (Ar : Matrix T * Vector T) cell =>
                distribute_local_to_global_rhs F
                  (if initial_step then nonzero_constraints F else zero_constraints F)
                  (snd (assemble_cell P F false (evaluation_point St) cell))
                  (get_dof_indices P cell) (snd Ar))). }
  rewrite Hm. reflexivity.
Qed.

(** The strip with an assembler that adds nothing. *)
Lemma newton_iteration_no_step_witness :
  (0 = 0 \/ (true = false /\ (1 <= 1)%R)) /\
  SharpEdgeNewton.newton_iteration (strip_R (1 / 2)%R true) idle_assembly 1%R 0 true
    solver_at_rest
    = Done (SharpEdgeNewton.newton_start true solver_at_rest) /\
  DirectNewton.newton_iteration (strip_R (1 / 2)%R true) idle_assembly 1%R 0 true
    solver_at_rest
    = Done (DirectNewton.newton_start true solver_at_rest).
Proof.
  assert (H : 0 = 0 \/ (true = false /\ (1 <= 1)%R)) by (left; reflexivity).
  split; [exact H|].
  exact (newton_iteration_no_step (strip_R (1 / 2)%R true) idle_assembly 1%R 0 true
           solver_at_rest H).
Defined.

Lemma newton_iteration_first_step_witness :
  0 < 1 /\
  ends_with (fun N => first_step N = false /\ 1 <= outer_iteration N)
    (SharpEdgeNewton.newton_iteration (strip_R (1 / 2)%R true) idle_assembly 1%R 1
       true solver_at_rest) /\
  ends_with (fun N => first_step N = false /\ 1 <= outer_iteration N)
    (DirectNewton.newton_iteration (strip_R (1 / 2)%R true) idle_assembly 1%R 1
       true solver_at_rest).
Proof.
  assert (H : 0 < 1) by lia.
  split; [exact H|].
  exact (newton_iteration_first_step (strip_R (1 / 2)%R true) idle_assembly 1%R 1
           solver_at_rest H).
Defined.

(* ------------------------------------------------------------------ *)
(** ** The cells around the vertices *)

Section VerticesToCells.
Context {T Cell : Type}.
Variable P : Problem T Cell.
Variable cell_ltb : Cell -> Cell -> bool.

Lemma set_insert_in (c x : Cell) (s : list Cell) :
  In x (set_insert cell_ltb c s) -> x = c \/ In x s.
Proof.
  induction s as [|y s IH]; simpl.
  - intros [<-|[]]. now left.
  - destruct (cell_ltb c y).
    + intros [<-|H]; [now left|now right].
    + destruct (cell_ltb y c).
      * intros [<-|H]; [right; now left|].
        destruct (IH H) as [->|H']; [now left|right; now right].
      * intros H. now right.
Qed.

Lemma set_insert_keeps (c x : Cell) (s : list Cell) :
  In x s -> In x (set_insert cell_ltb c s).
Proof.
  induction s as [|y s IH]; simpl; [intros []|].
  destruct (cell_ltb c y); [intros H; now right|].
  destruct (cell_ltb y c); [|auto].
  intros [<-|H]; [now left|right; now apply IH].
Qed.

Lemma assign_at_length {A : Type} (n : nat) (a : A) (l : list A) :
  length (assign_at n a l) = length l.
Proof.
  revert n. induction l as [|x l IH]; intros [|n]; simpl; auto.
Qed.

Lemma assign_at_same {A : Type} (n : nat) (a d : A) (l : list A) :
  n < length l -> nth n (assign_at n a l) d = a.
Proof.
  revert n. induction l as [|x l IH]; intros [|n]; simpl; intros H;
    [lia|lia|reflexivity|apply IH; lia].
Qed.

Lemma assign_at_other {A : Type} (n m : nat) (a d : A) (l : list A) :
  m <> n -> nth m (assign_at n a l) d = nth m l d.
Proof.
  revert n m. induction l as [|x l IH]; intros [|n] [|m] H; simpl;
    try reflexivity; [lia|apply IH; lia].
Qed.

(** The loops over the cells and over their vertices, as one loop over
    the pairs of a cell and a vertex number. *)
Lemma for_each_app {A St : Type} (body : A -> St -> option St) (l1 l2 : list A)
  (s : St) :
  for_each body (l1 ++ l2) s = bind (for_each body l1 s) (for_each body l2).
Proof.
  revert s. induction l1 as [|a l1 IH]; intros s; simpl; [reflexivity|].
  destruct (body a s); simpl; [apply IH|reflexivity].
Qed.

Lemma nested_loops (cells : list Cell) (V : list (list Cell)) :
  for_each
    (fun cell V' => for_each (add_cell_to_vertex P cell_ltb cell)
                             (seq 0 vertices_per_cell) V')
    cells V
  = for_each (fun ci V' => add_cell_to_vertex P cell_ltb (fst ci) (snd ci) V')
      (flat_map (fun cell => map (pair cell) (seq 0 vertices_per_cell)) cells) V.
Proof.
  revert V. induction cells as [|cell cells IH]; intros V; [reflexivity|].
  cbn [for_each flat_map]. rewrite for_each_app.
  assert (Hinner : forall l V0,
    for_each (add_cell_to_vertex P cell_ltb cell) l V0
    = for_each (fun ci V' => add_cell_to_vertex P cell_ltb (fst ci) (snd ci) V')
        (map (pair cell) l) V0).
  { induction l as [|i l IHl]; intros V0; [reflexivity|]. simpl.
    destruct (add_cell_to_vertex P cell_ltb cell i V0); simpl;
      [apply IHl|reflexivity]. }
  rewrite <- Hinner.
  destruct (for_each (add_cell_to_vertex P cell_ltb cell)
              (seq 0 vertices_per_cell) V); simpl; [apply IH|reflexivity].
Qed.

Lemma pairs_in (cells : list Cell) (c : Cell) (i : nat) :
  In (c, i) (flat_map (fun cell => map (pair cell) (seq 0 vertices_per_cell)) cells)
  <-> In c cells /\ i < vertices_per_cell.
Proof.
  rewrite in_flat_map. split.
  - intros (cell & Hcell & Hin). apply in_map_iff in Hin.
    destruct Hin as (j & [= <- <-] & Hj). apply in_seq in Hj.
    split; [assumption|lia].
  - intros [Hc Hi]. exists c. split; [assumption|].
    apply in_map_iff. exists i. split; [reflexivity|]. apply in_seq. lia.
Qed.

(** The loop fails exactly when it meets a vertex index past the end
    of the vector. *)
Lemma pairs_loop_returns (pairs : list (Cell * nat)) (V : list (list Cell)) :
  (exists V', for_each (fun ci V0 => add_cell_to_vertex P cell_ltb (fst ci) (snd ci) V0) pairs V = Some V') <->
  (forall c i, In (c, i) pairs -> vertex_index P c i < length V).
Proof.
  revert V. induction pairs as [|[c i] pairs IH]; intros V.
  - split; [intros _ c i []|]. intros _. now exists V.
  - cbn [for_each fst snd]. unfold add_cell_to_vertex at 1.
    destruct (nth_error V (vertex_index P c i)) as [adjacent|] eqn:E;
      cbn [bind].
    + assert (Hlt : vertex_index P c i < length V)
        by (apply nth_error_Some; congruence).
      rewrite IH. rewrite assign_at_length. split.
      * intros H c' i' [[= <- <-]|Hin]; [assumption|now apply H].
      * intros H c' i' Hin. apply H. now right.
    + apply nth_error_None in E. split.
      * intros [V' HV']. discriminate.
      * intros H. specialize (H c i (or_introl eq_refl)). lia.
Qed.

Section TotalOrder.
Hypothesis ltb_total :
  forall a b, cell_ltb a b = false -> cell_ltb b a = false -> a = b.

Lemma set_insert_adds (c : Cell) (s : list Cell) :
  In c (set_insert cell_ltb c s).
Proof.
  induction s as [|y s IH]; simpl; [now left|].
  destruct (cell_ltb c y) eqn:H1; [now left|].
  destruct (cell_ltb y c) eqn:H2; [now right|].
  left. now apply ltb_total.
Qed.

Lemma set_of_range_in (l : list Cell) (x : Cell) :
  In x (set_of_range cell_ltb l) <-> In x l.
Proof.
  unfold set_of_range.
  assert (H : forall s, In x (fold_left (fun s c => set_insert cell_ltb c s) l s)
                        <-> In x s \/ In x l).
  { induction l as [|c l IH]; intros s; simpl; [tauto|].
    rewrite IH. split.
    - intros [H|H]; [|tauto].
      destruct (set_insert_in _ _ _ H) as [->|H']; tauto.
    - intros [H|[<-|H]]; [left; now apply set_insert_keeps| |tauto].
      left. apply set_insert_adds. }
  rewrite H. simpl. tauto.
Qed.

Lemma pairs_loop_members (pairs : list (Cell * nat)) :
  forall V V',
    for_each (fun ci V0 => add_cell_to_vertex P cell_ltb (fst ci) (snd ci) V0) pairs V = Some V' ->
    length V' = length V /\
    forall v c, v < length V ->
      (In c (nth v V' []) <->
       In c (nth v V []) \/ exists i, In (c, i) pairs /\ vertex_index P c i = v).
Proof.
  induction pairs as [|[c0 i0] pairs IH]; intros V V' Hrun.
  - simpl in Hrun. injection Hrun as <-. split; [reflexivity|].
    intros v c Hv. split; [tauto|]. intros [H|(i & [] & _)]. exact H.
  - cbn [for_each fst snd] in Hrun. unfold add_cell_to_vertex at 1 in Hrun.
    destruct (nth_error V (vertex_index P c0 i0)) as [adjacent|] eqn:E;
      cbn [bind] in Hrun; [|discriminate].
    assert (Hlt : vertex_index P c0 i0 < length V)
      by (apply nth_error_Some; congruence).
    assert (Hadj : nth (vertex_index P c0 i0) V [] = adjacent)
      by now apply nth_error_nth.
    destruct (IH _ _ Hrun) as [Hlen Hmem]. rewrite assign_at_length in Hlen, Hmem.
    split; [exact Hlen|]. intros v c Hv. rewrite (Hmem v c Hv).
    destruct (Nat.eq_dec v (vertex_index P c0 i0)) as [->|Hne].
    + rewrite assign_at_same by assumption. rewrite Hadj. split.
      * intros [H|(i & Hin & Hi)].
        -- destruct (set_insert_in _ _ _ H) as [->|H'].
           ++ right. exists i0. split; [now left|reflexivity].
           ++ left. now apply set_of_range_in.
        -- right. exists i. split; [now right|assumption].
      * intros [H|(i & [[= <- <-]|Hin] & Hi)].
        -- left. apply set_insert_keeps. now apply set_of_range_in.
        -- left. apply set_insert_adds.
        -- right. now exists i.
    + rewrite assign_at_other by assumption. split.
      * intros [H|(i & Hin & Hi)]; [now left|].
        right. exists i. split; [now right|assumption].
      * intros [H|(i & [[= <- <-]|Hin] & Hi)]; [now left|congruence|].
        right. now exists i.
Qed.

End TotalOrder.

Section Sortedness.
Hypothesis ltb_trans :
  forall a b c, cell_ltb a b = true -> cell_ltb b c = true -> cell_ltb a c = true.

Lemma set_insert_sorted (c : Cell) (s : list Cell) :
  StronglySorted (fun a b => cell_ltb a b = true) s -> StronglySorted (fun a b => cell_ltb a b = true) (set_insert cell_ltb c s).
Proof.
  induction s as [|y s IH]; intros Hs; simpl.
  - constructor; [constructor|constructor].
  - inversion Hs as [|? ? Hs' Hall]; subst.
    destruct (cell_ltb c y) eqn:H1.
    + constructor; [assumption|]. constructor; [assumption|].
      rewrite Forall_forall in *. intros x Hx. apply (ltb_trans c y x); auto.
    + destruct (cell_ltb y c) eqn:H2; [|assumption].
      constructor; [now apply IH|].
      rewrite Forall_forall in *. intros x Hx.
      destruct (set_insert_in _ _ _ Hx) as [->|Hx']; auto.
Qed.

Lemma set_of_range_sorted (l : list Cell) :
  StronglySorted (fun a b => cell_ltb a b = true) (set_of_range cell_ltb l).
Proof.
  unfold set_of_range.
  assert (H : forall s, StronglySorted (fun a b => cell_ltb a b = true) s ->
            StronglySorted (fun a b => cell_ltb a b = true)
              (fold_left (fun s c => set_insert cell_ltb c s) l s)).
  { induction l as [|c l IH]; intros s Hs; simpl; [assumption|].
    apply IH. now apply set_insert_sorted. }
  apply H. constructor.
Qed.

Lemma pairs_loop_sorted (pairs : list (Cell * nat)) :
  forall V V',
    for_each (fun ci V0 => add_cell_to_vertex P cell_ltb (fst ci) (snd ci) V0) pairs V = Some V' ->
    (forall v, StronglySorted (fun a b => cell_ltb a b = true) (nth v V [])) ->
    forall v, StronglySorted (fun a b => cell_ltb a b = true) (nth v V' []).
Proof.
  induction pairs as [|[c0 i0] pairs IH]; intros V V' Hrun HV.
  - simpl in Hrun. now injection Hrun as <-.
  - cbn [for_each fst snd] in Hrun. unfold add_cell_to_vertex at 1 in Hrun.
    destruct (nth_error V (vertex_index P c0 i0)) as [adjacent|] eqn:E;
      cbn [bind] in Hrun; [|discriminate].
    assert (Hlt : vertex_index P c0 i0 < length V)
      by (apply nth_error_Some; congruence).
    apply (IH _ _ Hrun). intros v.
    destruct (Nat.eq_dec v (vertex_index P c0 i0)) as [->|Hne].
    + rewrite assign_at_same by assumption.
      apply set_insert_sorted, set_of_range_sorted.
    + rewrite assign_at_other by assumption. apply HV.
Qed.

End Sortedness.

Lemma sorted_nodup (l : list Cell) :
  (forall a, cell_ltb a a = false) ->
  StronglySorted (fun a b => cell_ltb a b = true) l -> NoDup l.
Proof.
  intros Hirrefl Hs. induction Hs as [|a l Hs IH Hall]; constructor.
  - intros Hin. rewrite Forall_forall in Hall. specialize (Hall a Hin).
    rewrite Hirrefl in Hall. discriminate.
  - exact IH.
Qed.

Lemma nth_repeat_nil (n v : nat) : nth v (repeat (@nil Cell) n) [] = [].
Proof.
  revert v. induction n as [|n IH]; intros [|v]; simpl; auto.
Qed.

(** X20.  [vertices_cell_mapping] returns exactly when every vertex
    index of every active cell is below [n_dofs / 3], the size that it
    gives the vector; a larger index is an access past its end. *)
Theorem vertices_cell_mapping_returns :
  (exists V, vertices_cell_mapping P cell_ltb = Some V) <->
  (forall cell i, In cell (active_cells P) -> i < vertices_per_cell ->
                  vertex_index P cell i < n_dofs P / 3).
Proof.
  unfold vertices_cell_mapping. rewrite nested_loops, pairs_loop_returns.
  rewrite repeat_length. split.
  - intros H cell i Hc Hi. apply H. now apply pairs_in.
  - intros H c i Hin. apply pairs_in in Hin. now apply H.
Qed.

(** X21.  When the order of the cell iterators is a strict total order,
    the vector that [vertices_cell_mapping] returns has one entry for
    each of the [n_dofs / 3] vertices; the entry of a vertex holds the
    active cells that have it as one of their 4 vertices and no other
    cell, each one once, in increasing order. *)
Theorem vertices_cell_mapping_lists (V : list (list Cell)) :
  (forall a, cell_ltb a a = false) ->
  (forall a b, cell_ltb a b = false -> cell_ltb b a = false -> a = b) ->
  (forall a b c, cell_ltb a b = true -> cell_ltb b c = true -> cell_ltb a c = true) ->
  vertices_cell_mapping P cell_ltb = Some V ->
  length V = n_dofs P / 3 /\
  forall v, v < n_dofs P / 3 ->
    (forall c, In c (nth v V []) <->
               In c (active_cells P) /\
               exists i, i < vertices_per_cell /\ vertex_index P c i = v) /\
    StronglySorted (fun a b => cell_ltb a b = true) (nth v V []) /\
    NoDup (nth v V []).
Proof.
  intros Hirrefl Htotal Htrans Hrun.
  assert (Hsorted : forall v,
            StronglySorted (fun a b => cell_ltb a b = true) (nth v V [])).
  { intros v. unfold vertices_cell_mapping in Hrun. rewrite nested_loops in Hrun.
    apply (pairs_loop_sorted Htrans _ _ _ Hrun). intros v'.
    rewrite nth_repeat_nil. constructor. }
  unfold vertices_cell_mapping in Hrun.
  rewrite nested_loops in Hrun.
  destruct (pairs_loop_members Htotal _ _ _ Hrun) as [Hlen Hmem].
  rewrite repeat_length in Hlen, Hmem. split; [exact Hlen|].
  intros v Hv. split.
  - intros c. rewrite (Hmem v c Hv). rewrite nth_repeat_nil. split.
    + intros [[]|(i & Hin & Hi)]. apply pairs_in in Hin.
      destruct Hin as [Hc Hi4]. split; [assumption|]. now exists i.
    + intros [Hc (i & Hi4 & Hi)]. right. exists i. split; [|assumption].
      now apply pairs_in.
  - split; [apply Hsorted|]. apply (sorted_nodup _ Hirrefl), Hsorted.
Qed.

End VerticesToCells.

(** The 2 by 2 grid, whose cells are numbered 0 to 3 and its vertices
    0 to 8. *)
Lemma vertices_cell_mapping_lists_witness :
  let P := coarse_grid false in
  let V := match vertices_cell_mapping P Nat.ltb with Some V => V | None => [] end in
  (forall a, Nat.ltb a a = false) /\
  (forall a b, Nat.ltb a b = false -> Nat.ltb b a = false -> a = b) /\
  (forall a b c, Nat.ltb a b = true -> Nat.ltb b c = true -> Nat.ltb a c = true) /\
  vertices_cell_mapping P Nat.ltb = Some V /\
  length V = n_dofs P / 3 /\
  forall v, v < n_dofs P / 3 ->
    (forall c, In c (nth v V []) <->
               In c (active_cells P) /\
               exists i, i < vertices_per_cell /\ vertex_index P c i = v) /\
    StronglySorted (fun a b => Nat.ltb a b = true) (nth v V []) /\
    NoDup (nth v V []).
Proof.
  intros P V.
  assert (Hirrefl : forall a, Nat.ltb a a = false) by (intros a; apply Nat.ltb_irrefl).
  assert (Htotal : forall a b, Nat.ltb a b = false -> Nat.ltb b a = false -> a = b).
  { intros a b H1 H2. apply Nat.ltb_ge in H1, H2. lia. }
  assert (Htrans : forall a b c, Nat.ltb a b = true -> Nat.ltb b c = true ->
                                 Nat.ltb a c = true).
  { intros a b c H1 H2. apply Nat.ltb_lt in H1, H2. apply Nat.ltb_lt. lia. }
  assert (Hrun : vertices_cell_mapping P Nat.ltb = Some V)
    by (vm_compute; reflexivity).
  split; [exact Hirrefl|]. split; [exact Htotal|]. split; [exact Htrans|].
  split; [exact Hrun|].
  exact (vertices_cell_mapping_lists P Nat.ltb V Hirrefl Htotal Htrans Hrun).
Defined.

(* ------------------------------------------------------------------ *)
(** ** The equation of a rewritten row, in exact arithmetic *)

Section RowEquation.
Local Open Scope R_scope.

Lemma row_times_ext (n : nat) (A B : Matrix R) (i : nat) (u : Vector R) :
  (forall m, (m < n)%nat -> A i m = B i m) ->
  row_times n A i u = row_times n B i u.
Proof.
  induction n as [|n IH]; intros H; simpl; [reflexivity|].
  rewrite IH by (intros m Hm; apply H; lia). rewrite (H n) by lia. reflexivity.
Qed.

Lemma row_times_plus (n : nat) (f g : nat -> R) (i : nat) (u : Vector R) :
  row_times n (fun _ m => f m + g m) i u
  = row_times n (fun _ m => f m) i u + row_times n (fun _ m => g m) i u.
Proof.
  induction n as [|n IH]; simpl; exact_arith; [ring|]. rewrite IH. ring.
Qed.

Lemma row_times_scal (n : nat) (a : R) (f : nat -> R) (i : nat) (u : Vector R) :
  row_times n (fun _ m => a * f m) i u = a * row_times n (fun _ m => f m) i u.
Proof.
  induction n as [|n IH]; simpl; exact_arith; [ring|]. rewrite IH. ring.
Qed.

Lemma row_times_unit (n j : nat) (a : R) (i : nat) (u : Vector R) :
  row_times n (fun _ m => if Nat.eqb m j then a else 0) i u
  = if Nat.ltb j n then a * u j else 0.
Proof.
  induction n as [|n IH]; simpl; exact_arith; [reflexivity|]. rewrite IH.
  destruct (Nat.eqb_spec n j) as [->|Hne].
  - rewrite Nat.ltb_irrefl. replace (j <? S j)%nat with true
      by (symmetry; apply Nat.ltb_lt; lia). ring.
  - destruct (Nat.ltb_spec j n), (Nat.ltb_spec j (S n)); try lia; ring.
Qed.

Section WithProblem.
Context {Cell : Type}.
Variable P : Problem R Cell.

Lemma stencil_value_acc (dofs2 : list nat) (xi : Point R) (u : Vector R)
  (ns : list nat) (acc : R) :
  fold_left (fun a n => (a + shape_value P n xi * u (nth n dofs2 0%nat))%D) ns acc
  = acc + fold_left
            (fun a n => (a + shape_value P n xi * u (nth n dofs2 0%nat))%D) ns 0.
Proof.
  revert acc. induction ns as [|n ns IH]; intros acc; cbn [fold_left].
  - ring.
  - rewrite (IH (acc + shape_value P n xi * u (nth n dofs2 0%nat))%D).
    rewrite (IH (dadd 0 (dmul (shape_value P n xi) (u (nth n dofs2 0%nat))))).
    exact_arith. ring.
Qed.

Lemma row_times_weights (N : nat) (dofs2 : list nat) (xi : Point R) (i : nat)
  (u : Vector R) (ns : list nat) :
  (forall n, In n ns -> (nth n dofs2 0 < N)%nat) ->
  row_times N
    (fun _ m =>
       fold_left
         (fun a n => if Nat.eqb (nth n dofs2 0%nat) m
                     then (a + shape_value P n xi)%D else a) ns 0) i u
  = fold_left (fun a n => (a + shape_value P n xi * u (nth n dofs2 0%nat))%D) ns 0.
Proof.
  induction ns as [|n ns IH]; intros Hin.
  - simpl. clear Hin. induction N as [|N IHN]; simpl; exact_arith; [reflexivity|].
    rewrite IHN. ring.
  - cbn [fold_left].
    rewrite (row_times_ext N _
               (fun _ m => (if Nat.eqb m (nth n dofs2 0%nat)
                            then shape_value P n xi else 0)
                           + fold_left
                               (fun a n0 => if Nat.eqb (nth n0 dofs2 0%nat) m
                                            then (a + shape_value P n0 xi)%D else a)
                               ns 0)).
    + rewrite (row_times_plus N
                 (fun m => if Nat.eqb m (nth n dofs2 0%nat)
                           then shape_value P n xi else 0)).
      rewrite row_times_unit, IH by (intros n0 Hn0; apply Hin; now right).
      replace (nth n dofs2 0 <? N)%nat with true
        by (symmetry; apply Nat.ltb_lt, Hin; now left).
      rewrite (stencil_value_acc dofs2 xi u ns
                 (dadd 0 (dmul (shape_value P n xi) (u (nth n dofs2 0%nat))))).
      exact_arith. ring.
    + intros m Hm. rewrite (stencil_weight_acc P dofs2 xi m ns).
      rewrite (Nat.eqb_sym m). exact_arith.
      destruct (Nat.eqb (nth n dofs2 0%nat) m); ring.
Qed.

Lemma stencil_row_times (dofs2 : list nat) (xi : Point R) (k i : nat)
  (a b : R) (A : Matrix R) (u : Vector R) :
  (i < n_dofs P)%nat ->
  (forall n, In n (stride (dofs_per_cell P) k) ->
             (nth n dofs2 0 < n_dofs P)%nat) ->
  (forall m, (m < n_dofs P)%nat ->
             A i m = (if Nat.eqb m i then a else 0)
                     + b * stencil_weight P dofs2 xi k m) ->
  row_times (n_dofs P) A i u = a * u i + b * stencil_value P dofs2 xi k u.
Proof.
  intros Hi Hdofs HA.
  rewrite (row_times_ext (n_dofs P) A
             (fun _ m => (if Nat.eqb m i then a else 0)
                         + b * stencil_weight P dofs2 xi k m) i u HA).
  rewrite (row_times_plus (n_dofs P) (fun m => if Nat.eqb m i then a else 0)
             (fun m => b * stencil_weight P dofs2 xi k m)).
  rewrite row_times_unit, row_times_scal.
  replace (i <? n_dofs P)%nat with true by (symmetry; now apply Nat.ltb_lt).
  f_equal. f_equal.
  exact (row_times_weights (n_dofs P) dofs2 xi i u _ Hdofs).
Qed.

(** X22.  The equation that a rewritten row states.  In
    gls_navier_stokes_sharp_edge.cc, for a row whose entries outside
    the columns of the neighbouring cells are 0, the product of the row
    with any vector [u], less the right-hand side, is
    [alpha (u(x_2) - 2 u_i - g)], where [u(x_2)] is the component of [u]
    interpolated at the second point and [g] the boundary value on the
    initial step with [couette] set and 0 otherwise; in
    directSteadyNS.cpp it is [(u(x_2) - 2 u_i - g) / d^2], with [d] the
    distance from the dof to the circle, for a second point that a cell
    holds. *)
Theorem rewritten_row_equation (cell : Cell) (k l : nat) (S0 : System R) :
  let i := nth l (get_dof_indices P cell) 0%nat in
  let sp := support_points P i in
  let alpha := system_matrix S0 i i in
  let cleared := cleared_columns P (SharpEdge.active_neighbors_of P cell l) in
  (i < n_dofs P)%nat ->
  (forall (c : circle) (initial_step : bool) (cell_2 : Cell) (xi : Point R),
     let g := match c with
              | Small => if (couette P && initial_step)%bool
                         then SharpEdge.boundary_condition k sp else 0
              | Large => 0
              end in
     SharpEdge.locate P (SharpEdge.second_point_of P c sp) cell l
       = Some (cell_2, xi) ->
     (c = Small -> dneb (norm (SharpEdge.vect_dist P sp)) 0 = true) ->
     (forall m, (m < n_dofs P)%nat -> m <> i -> ~ In m cleared ->
                system_matrix S0 i m = 0) ->
     (forall n, In n (stride (dofs_per_cell P) k) ->
                (nth n (get_dof_indices P cell_2) 0 < n_dofs P)%nat) ->
     exists S1,
       SharpEdge.rewrite_row P c initial_step cell k l S0 = Some S1 /\
       forall u : Vector R,
         row_times (n_dofs P) (system_matrix S1) i u - system_rhs S1 i
         = alpha * (stencil_value P (get_dof_indices P cell_2) xi k u
                    - 2 * u i - g)) /\
  (forall (small : bool) (cell_2 : Cell) (xi : Point R),
     let rad := if small then Direct.radius else Direct.radius_2 in
     let d := Direct.dist (Direct.vect_dist rad sp) in
     let g := if small then Direct.boundary_condition k sp else 0 in
     find_active_cell_around_point P (Direct.second_point rad sp)
       = Some cell_2 ->
     transform_real_to_unit_cell P cell_2 (Direct.second_point rad sp)
       = Some xi ->
     d <> 0 ->
     (forall n, In n (stride (dofs_per_cell P) k) ->
                (nth n (get_dof_indices P cell_2) 0 < n_dofs P)%nat) ->
     exists S1,
       Direct.override_row P small cell k l S0 = Some S1 /\
       forall u : Vector R,
         row_times (n_dofs P) (system_matrix S1) i u - system_rhs S1 i
         = (stencil_value P (get_dof_indices P cell_2) xi k u - 2 * u i - g)
           / (d * d)).
Proof.
  intros i sp alpha cleared Hi. split.
  - intros c initial_step cell_2 xi g Hloc Hd Hsparse Hdofs.
    destruct (rewrite_row_located P c initial_step cell k l S0 cell_2 xi Hloc)
      as (S1 & Hrun & HA & Hr).
    fold i sp alpha in HA, Hr.
    assert (HA' : system_matrix S1 =
                  SharpEdge.add_stencil P (get_dof_indices P cell_2) xi k i alpha
                    (mset (SharpEdge.clear_line P
                             (SharpEdge.active_neighbors_of P cell l) i
                             (system_matrix S0)) i i (-2 / (1 / alpha)))).
    { rewrite HA. destruct c; [|reflexivity]. now rewrite Hd. }
    exists S1. split; [exact Hrun|]. intros u.
    rewrite (stencil_row_times (get_dof_indices P cell_2) xi k i
               (-2 * alpha) alpha (system_matrix S1) u Hi Hdofs).
    + rewrite Hr, Nat.eqb_refl. unfold g.
      destruct c; [destruct (couette P && initial_step)%bool|];
        rewrite ?div_inv_scale; ring.
    + intros m Hm. rewrite HA', add_stencil_entry.
      destruct (Nat.eqb_spec m i) as [->|Hne].
      * rewrite mset_eq, div_inv_scale. ring.
      * rewrite mset_other_col by assumption. f_equal.
        destruct (in_dec Nat.eq_dec m cleared) as [Hin|Hout].
        -- now apply (@clear_line_cleared R exact Cell P).
        -- rewrite clear_line_kept by assumption. now apply Hsparse.
  - intros small cell_2 xi rad d g Hfind Hmap Hd Hdofs.
    destruct (direct_override_row_entries P small cell k l S0 cell_2 xi
                Hfind Hmap Hi) as (S1 & Hrun & Hdiag & Hoff & Hr & _).
    fold i sp rad d in Hdiag, Hoff, Hr.
    exists S1. split; [exact Hrun|]. intros u.
    rewrite (stencil_row_times (get_dof_indices P cell_2) xi k i
               (-2 / (d * d)) (1 / (d * d)) (system_matrix S1) u Hi Hdofs).
    + rewrite Hr. unfold g. destruct small; field; exact Hd.
    + intros m Hm. destruct (Nat.eqb_spec m i) as [->|Hne].
      * rewrite Hdiag. field. exact Hd.
      * rewrite (Hoff m Hm Hne). field. exact Hd.
Qed.

End WithProblem.

(** The row of dof 0 of the strip, for the circle of radius 1/2 and 4
    on the diagonal. *)
Lemma rewritten_row_equation_witness :
  let P := strip_R (1 / 2) true in
  let sp := support_points P 0 in
  let xi := psub (SharpEdge.second_point P sp) Strip.corner in
  let d := Direct.dist (Direct.vect_dist Direct.radius sp) in
  let xi' := psub (Direct.second_point Direct.radius sp) Strip.corner in
  (0 < n_dofs P)%nat /\
  (exists S1,
     SharpEdge.rewrite_row P Small true tt 0 0 diagonal_system_R = Some S1 /\
     forall u : Vector R,
       row_times (n_dofs P) (system_matrix S1) 0 u - system_rhs S1 0%nat
       = 4 * (stencil_value P (get_dof_indices P tt) xi 0 u - 2 * u 0%nat
              - SharpEdge.boundary_condition 0 sp)) /\
  (exists S1,
     Direct.override_row P true tt 0 0 diagonal_system_R = Some S1 /\
     forall u : Vector R,
       row_times (n_dofs P) (system_matrix S1) 0 u - system_rhs S1 0%nat
       = (stencil_value P (get_dof_indices P tt) xi' 0 u - 2 * u 0%nat
          - Direct.boundary_condition 0 sp) / (d * d)).
Proof.
  intros P sp xi d xi'.
  assert (Hi : (0 < n_dofs P)%nat) by (simpl; lia).
  destruct (rewritten_row_equation P tt 0 0 diagonal_system_R Hi) as [Hcc Hcpp].
  assert (Hdofs : forall n, In n (stride (dofs_per_cell P) 0) ->
                            (nth n (get_dof_indices P tt) 0 < n_dofs P)%nat).
  { intros n Hn. change (stride (dofs_per_cell P) 0) with (stride 12 0) in Hn.
    rewrite (stride_Q1 0) in Hn by lia. simpl in Hn.
    destruct Hn as [<-|[<-|[<-|[<-|[]]]]]; simpl; lia. }
  split; [exact Hi|]. split.
  - apply (Hcc Small true tt xi).
    + apply strip_locate.
    + intros _. apply (strip_off_surface (1 / 2) true). lra.
    + intros m Hm Hne _. destruct m as [|m]; [|reflexivity].
      exfalso. apply Hne. reflexivity.
    + exact Hdofs.
  - apply (Hcpp true tt xi' eq_refl eq_refl).
    + exact direct_strip_off_surface.
    + exact Hdofs.
Defined.

End RowEquation.

Section MoreGeometry.
Local Open Scope R_scope.

(** X23.  In the pass for the large circle of
    gls_navier_stokes_sharp_edge.cc the vector from the surface to the
    dof is taken from the origin and not from the centre of the circle:
    the second point is the point [x_i + (x_i - x_proj)], with [x_proj]
    the projection of the dof on the large circle, moved by the
    coordinates [(0.2, 0)] of the centre. *)
Theorem second_point_large_is_shifted {Cell : Type} (P : Problem R Cell)
  (sp : Point R) :
  SharpEdge.second_point_large P sp =
  padd (padd sp (psub sp (spec_projection SharpEdge.center_immersed
                            (radius_2 P) sp)))
       SharpEdge.center_immersed /\
  SharpEdge.center_immersed = (2 / 10, 0).
Proof.
  split; [|apply strip_center].
  destruct sp as [x y].
  unfold SharpEdge.second_point_large, SharpEdge.vect_dist_large,
    spec_projection, padd, psub, pdiv, pscale.
  cbn [fst snd]. exact_arith. unfold Rdiv. f_equal; ring.
Qed.

(** X24.  The velocity of the wall that [torque] measures the shear
    against, [(- sin, cos)] of the angle of the sample, is the opposite
    of the boundary value [g] that the override of directSteadyNS.cpp
    takes at the sample, a point of the circle about the origin. *)
Theorem torque_wall_velocity (rad : R) (i : nat) :
  0 < rad ->
  - dsin (sample_angle i) = - Direct.boundary_condition 0 (eval_point rad i) /\
  dcos (sample_angle i) = - Direct.boundary_condition 1 (eval_point rad i).
Proof.
  intros Hrad.
  destruct (torque_samples_geometry rad 0 i) as [Hn _].
  assert (Hd : psub (eval_point rad i) Direct.center_immersed = eval_point rad i).
  { unfold psub, eval_point, Direct.center_immersed. cbn [fst snd].
    exact_arith. f_equal; ring. }
  unfold Direct.boundary_condition. rewrite Hd, Hn.
  rewrite Rabs_right by lra.
  unfold pdiv, component, eval_point. cbn [fst snd Nat.eqb]. exact_trig.
  exact_arith. split; field; lra.
Qed.

Lemma torque_wall_velocity_witness :
  0 < 1 /\
  - dsin (sample_angle 3) = - Direct.boundary_condition 0 (eval_point 1 3) /\
  dcos (sample_angle 3) = - Direct.boundary_condition 1 (eval_point 1 3).
Proof.
  split; [lra|]. apply (torque_wall_velocity 1 3). lra.
Defined.

End MoreGeometry.

(* ------------------------------------------------------------------ *)
(** ** When the override returns *)

Section Returns.
Context {T : Type} {DT : Double T} {Cell : Type}.
Variable P : Problem T Cell.

Lemma locate_some (pt : Point T) (cell : Cell) (l : nat) :
  existsb (holds_point P pt) (SharpEdge.active_neighbors_of P cell l) = true ->
  exists cell_2 xi, SharpEdge.locate P pt cell l = Some (cell_2, xi).
Proof.
  intros H.
  destruct (cell_search_some P 0 _ _ H) as (j & c & Hrun & Hnth & Hc & _).
  simpl in Hrun. unfold SharpEdge.locate. rewrite Hrun, Hnth. cbn [bind].
  unfold holds_point in Hc.
  destruct (transform_real_to_unit_cell P c pt) as [xi|]; [|discriminate].
  now exists c, xi.
Qed.

(** X25.  When one of the cells around the vertex of the dof holds the
    point, the search of the override does not fail: it returns the
    first such cell, with the coordinates of the point in it, which lie
    at distance 0 from the unit cell. *)
Theorem locate_finds (pt : Point T) (cell : Cell) (l : nat) :
  existsb (holds_point P pt) (SharpEdge.active_neighbors_of P cell l) = true ->
  exists cell_2 xi,
    SharpEdge.locate P pt cell l = Some (cell_2, xi) /\
    In cell_2 (SharpEdge.active_neighbors_of P cell l) /\
    (distance_to_unit_cell P xi =? of_Z 0)%D = true.
Proof.
  intros H.
  destruct (cell_search_some P 0 _ _ H) as (j & c & Hrun & Hnth & Hc & _).
  simpl in Hrun. unfold SharpEdge.locate. rewrite Hrun, Hnth. cbn [bind].
  unfold holds_point in Hc.
  destruct (transform_real_to_unit_cell P c pt) as [xi|]; [|discriminate].
  exists c, xi. split; [reflexivity|]. split; [|exact Hc].
  now apply nth_error_In with (n := j).
Qed.

Lemma for_each_returns {A St : Type} (body : A -> St -> option St) (l : list A) :
  (forall a, In a l -> forall s, exists s', body a s = Some s') ->
  forall s, exists s', for_each body l s = Some s'.
Proof.
  induction l as [|a l IH]; intros H s; simpl; [now exists s|].
  destruct (H a (or_introl eq_refl) s) as [s1 ->]. simpl.
  apply IH. intros a' Ha'. apply H. now right.
Qed.

Lemma rewrite_row_returns (c : circle) (initial_step : bool) (cell : Cell)
  (k l : nat) (S0 : System T) :
  existsb
    (holds_point P
       (SharpEdge.second_point_of P c
          (support_points P (nth l (get_dof_indices P cell) 0))))
    (SharpEdge.active_neighbors_of P cell l) = true ->
  exists S1, SharpEdge.rewrite_row P c initial_step cell k l S0 = Some S1.
Proof.
  intros H. destruct (locate_some _ cell l H) as (cell_2 & xi & Hloc).
  destruct c; simpl in *.
  - unfold SharpEdge.override_row. rewrite Hloc. cbn [bind]. eexists. reflexivity.
  - unfold SharpEdge.override_row_large. rewrite Hloc. cbn [bind].
    eexists. reflexivity.
Qed.

Lemma component_loops_returns (row : nat -> nat -> System T -> option (System T)) :
  (forall k l, k < 2 -> In l (stride (dofs_per_cell P) k) ->
               forall S, exists S', row k l S = Some S') ->
  forall S, exists S', SharpEdge.component_loops P row S = Some S'.
Proof.
  intros H. unfold SharpEdge.component_loops. apply for_each_returns.
  intros k Hk S. destruct (Nat.ltb_spec k 2) as [Hlt|Hge]; [|now exists S].
  apply for_each_returns. intros l Hl. now apply H.
Qed.

(** X26.  A run of the override of gls_navier_stokes_sharp_edge.cc
    returns, and no exception leaves it, when for every velocity dof of
    every cell that a circle cuts one of the cells around the vertex of
    the dof holds the second point of the dof for that circle. *)
Theorem sharp_edge_V2_returns (initial_step : bool) (S0 : System T) :
  (forall cell c k l,
     In cell (active_cells P) ->
     match c with
     | Small => cut_by_small P cell
     | Large => cut_by_large P cell
     end = true ->
     k < 2 -> In l (stride (dofs_per_cell P) k) ->
     existsb
       (holds_point P
          (SharpEdge.second_point_of P c
             (support_points P (nth l (get_dof_indices P cell) 0))))
       (SharpEdge.active_neighbors_of P cell l) = true) ->
  exists S1, SharpEdge.sharp_edge_V2 P initial_step S0 = Some S1.
Proof.
  intros H. unfold SharpEdge.sharp_edge_V2. apply for_each_returns.
  intros cell Hcell S. rewrite visit_cell_passes.
  assert (Hsmall : exists S1,
            (if cut_by_small P cell
             then SharpEdge.component_loops P
                    (SharpEdge.rewrite_row P Small initial_step cell) S
             else Some S) = Some S1).
  { destruct (cut_by_small P cell) eqn:Hcut; [|now exists S].
    apply component_loops_returns. intros k l Hk Hl S'.
    apply rewrite_row_returns. now apply (H cell Small k l). }
  destruct Hsmall as [S1 ->]. cbn [bind].
  destruct (cut_by_large P cell) eqn:Hcut; [|now exists S1].
  apply component_loops_returns. intros k l Hk Hl S'.
  apply rewrite_row_returns. now apply (H cell Large k l).
Qed.

End Returns.

Lemma second_points_held_spec {T : Type} {DT : Double T} {Cell : Type}
  (P : Problem T Cell) :
  second_points_held P = true ->
  forall cell c k l,
    In cell (active_cells P) ->
    match c with
    | Small => cut_by_small P cell
    | Large => cut_by_large P cell
    end = true ->
    k < 2 -> In l (stride (dofs_per_cell P) k) ->
    existsb
      (holds_point P
         (SharpEdge.second_point_of P c
            (support_points P (nth l (get_dof_indices P cell) 0))))
      (SharpEdge.active_neighbors_of P cell l) = true.
Proof.
  intros H cell c k l Hcell Hcut Hk Hl. unfold second_points_held in H.
  rewrite forallb_forall in H. specialize (H cell Hcell).
  rewrite forallb_forall in H.
  assert (Hc : In c [Small; Large]) by (destruct c; simpl; auto).
  specialize (H c Hc). rewrite Hcut in H.
  rewrite forallb_forall in H.
  assert (Hk' : In k [0; 1]) by (simpl; lia).
  specialize (H k Hk'). rewrite forallb_forall in H. now apply H.
Qed.

(** The 7 by 7 grid: the circle cuts six cells, and the second points
    of their dofs lie in the cells around them. *)
Lemma sharp_edge_V2_returns_witness :
  (forall cell c k l,
     In cell (active_cells fine_grid) ->
     match c with
     | Small => cut_by_small fine_grid cell
     | Large => cut_by_large fine_grid cell
     end = true ->
     k < 2 -> In l (stride (dofs_per_cell fine_grid) k) ->
     existsb
       (holds_point fine_grid
          (SharpEdge.second_point_of fine_grid c
             (support_points fine_grid (nth l (get_dof_indices fine_grid cell) 0))))
       (SharpEdge.active_neighbors_of fine_grid cell l) = true) /\
  length (filter (cut_by_small fine_grid) (active_cells fine_grid)) = 6 /\
  exists S1, SharpEdge.sharp_edge_V2 fine_grid true diagonal_system = Some S1.
Proof.
  assert (H : second_points_held fine_grid = true) by (vm_compute; reflexivity).
  split; [exact (second_points_held_spec fine_grid H)|].
  split; [vm_compute; reflexivity|].
  exact (sharp_edge_V2_returns fine_grid true diagonal_system
           (second_points_held_spec fine_grid H)).
Defined.

(** Dof 0 of the first of the six cells that the circle cuts on the 7
    by 7 grid. *)
Lemma locate_finds_witness :
  let P := fine_grid in
  let pt :=
    SharpEdge.second_point P (support_points P (nth 0 (get_dof_indices P 17) 0)) in
  existsb (holds_point P pt) (SharpEdge.active_neighbors_of P 17 0) = true /\
  exists cell_2 xi,
    SharpEdge.locate P pt 17 0 = Some (cell_2, xi) /\
    In cell_2 (SharpEdge.active_neighbors_of P 17 0) /\
    (distance_to_unit_cell P xi =? of_Z 0)%D = true.
Proof.
  intros P pt.
  assert (H : existsb (holds_point P pt) (SharpEdge.active_neighbors_of P 17 0)
              = true) by (vm_compute; reflexivity).
  split; [exact H|].
  exact (locate_finds P pt 17 0 H).
Defined.

(** Dof 0 of the first cell of the 2 by 2 grid: its second point lies
    outside the grid. *)
Lemma locate_falls_back_witness :
  let P := coarse_grid false in
  let pt :=
    SharpEdge.second_point P (support_points P (nth 0 (get_dof_indices P 0) 0)) in
  existsb (holds_point P pt) (SharpEdge.active_neighbors_of P 0 0) = false /\
  SharpEdge.locate P pt 0 0 =
  match SharpEdge.active_neighbors_of P 0 0 with
  | [] => None
  | cell_2 :: _ =>
      match transform_real_to_unit_cell P cell_2 pt with
      | Some xi => Some (cell_2, xi)
      | None => None
      end
  end.
Proof.
  intros P pt.
  assert (H : existsb (holds_point P pt) (SharpEdge.active_neighbors_of P 0 0)
              = false) by (vm_compute; reflexivity).
  split; [exact H|].
  exact (proj1 (locate_falls_back P pt 0 0) H).
Defined.
